(** * indicatorToJs: translation of indicator formulas to JavaScript

    A shallow embedding of [src/indicatorToJs.ts].  The source file holds
    two dialects of the translator:

    - the first one ([Module Bespoke]) knows field names ([$name]), array
      literals and the functions [INCLUDES], [PERCENT] and [COUNTFORMS],
      each with its own argument grammar;
    - the second one ([Module Generic]) renames functions through the table
      [func2jsfunc] and parses their arguments as a comma list.

    JavaScript strings are modelled as [string]: sequences of code units
    below 256.  Exceptions are explicit: [Throw msg] is [throw new
    Error(msg)], [TypeError] is what the engine raises when a property of
    [undefined] is read (a [pop] on an empty array followed by [.type]).
    Loops and the mutual recursion of the parser run on fuel.  For the
    first dialect the fuel the entry points give is shown to be enough:
    [tokenize] and [indicatorToJs] never run out of it, and more fuel
    changes no result. *)

From Stdlib Require Import Bool Arith Lia List Ascii String.
Import ListNotations.
Local Open Scope string_scope.
Local Open Scope list_scope.
Local Open Scope nat_scope.

Infix "+++" := String.append (right associativity, at level 60).

(** ** Completions of a JavaScript computation *)

Inductive Completion (A : Type) : Type :=
| Return (a : A)
| Throw (msg : string)
| TypeError
| Diverge.

Arguments Return {A} a.
Arguments Throw {A} msg.
Arguments TypeError {A}.
Arguments Diverge {A}.

(** ** JavaScript strings and regular expressions *)

Module Js.

Definition dquote : ascii := "034"%char.

Definition code (c : ascii) : nat := nat_of_ascii c.

Definition between (lo hi : nat) (c : ascii) : bool :=
  (lo <=? code c) && (code c <=? hi).

(** [\d] *)
Definition isDigit (c : ascii) : bool := between 48 57 c.

(** [[a-zA-Z_]] *)
Definition isIdentStart (c : ascii) : bool :=
  between 97 122 c || between 65 90 c || (code c =? 95).

(** [\w] *)
Definition isWord (c : ascii) : bool :=
  between 97 122 c || between 65 90 c || between 48 57 c || (code c =? 95).

(** [\s], which is also what [trim] strips: among the code units below
    256 these are TAB, LF, VT, FF, CR, space and the no-break space. *)
Definition isSpace (c : ascii) : bool :=
  between 9 13 c || (code c =? 32) || (code c =? 160).

Fixpoint trimStart (s : string) : string :=
  match s with
  | EmptyString => EmptyString
  | String c s' => if isSpace c then trimStart s' else s
  end.

Fixpoint trimEnd (s : string) : string :=
  match s with
  | EmptyString => EmptyString
  | String c s' =>
      match trimEnd s' with
      | EmptyString => if isSpace c then EmptyString else String c EmptyString
      | t => String c t
      end
  end.

(** [s.trim()] *)
Definition trim (s : string) : string := trimEnd (trimStart s).

(** [s.slice(n)] for [0 <= n] *)
Fixpoint slice (n : nat) (s : string) : string :=
  match n, s with
  | 0, _ => s
  | S n', String _ s' => slice n' s'
  | S _, EmptyString => EmptyString
  end.

(** [s.charAt(n)]: the code unit at [n], or the empty string. *)
Fixpoint charAt (s : string) (n : nat) : string :=
  match s, n with
  | EmptyString, _ => EmptyString
  | String c _, 0 => String c EmptyString
  | String _ s', S n' => charAt s' n'
  end.

(** The first [n] code units of [s]. *)
Fixpoint take (n : nat) (s : string) : string :=
  match n, s with
  | S n', String c s' => String c (take n' s')
  | _, _ => EmptyString
  end.

(** Every code unit of [s] satisfies [p]. *)
Fixpoint allChars (p : ascii -> bool) (s : string) : bool :=
  match s with
  | EmptyString => true
  | String c s' => p c && allChars p s'
  end.

(** The strings that [[a-zA-Z_]\w*] matches as a whole. *)
Definition isIdentifier (s : string) : bool :=
  match s with
  | EmptyString => false
  | String c s' => isIdentStart c && allChars isWord s'
  end.

(** Regular expressions, as far as the source uses them.  All the
    patterns of the source are anchored with [^]. *)
Inductive Regex : Type :=
| Eps
| Chr (c : ascii)
| Cls (p : ascii -> bool)
| Seq (r1 r2 : Regex)
| Alt (r1 r2 : Regex)
| Star (r : Regex).

(** [r+] and [r?] *)
Definition Many1 (r : Regex) : Regex := Seq r (Star r).
Definition Opt (r : Regex) : Regex := Alt r Eps.

(** The backtracking matcher of ECMAScript: alternatives are tried from
    left to right, [*] is greedy and an iteration has to consume
    something.  [k] is the continuation, applied to what is left of the
    subject string. *)
Fixpoint run (r : Regex) (s : string) (k : string -> option string)
  : option string :=
  match r with
  | Eps => k s
  | Chr c =>
      match s with
      | String c' s' => if Ascii.eqb c c' then k s' else None
      | EmptyString => None
      end
  | Cls p =>
      match s with
      | String c' s' => if p c' then k s' else None
      | EmptyString => None
      end
  | Seq r1 r2 => run r1 s (fun s1 => run r2 s1 k)
  | Alt r1 r2 =>
      match run r1 s k with
      | Some x => Some x
      | None => run r2 s k
      end
  | Star r1 =>
      (fix iter (n : nat) (s : string) {struct n} : option string :=
         match n with
         | 0 => k s
         | S n' =>
             match run r1 s (fun s' =>
                     if String.length s' <? String.length s
                     then iter n' s' else None) with
             | Some x => Some x
             | None => k s
             end
         end) (String.length s) s
  end.

(** [s.match(r)]: [Some m0] with [m0] the matched text [m[0]], or [None]
    for [null]. *)
Definition regexMatch (r : Regex) (s : string) : option string :=
  match run r s Some with
  | Some rest => Some (take (String.length s - String.length rest) s)
  | None => None
  end.

End Js.

(** ** The patterns of [firstToken] *)

(** [/^\$[a-zA-Z_]\w*/] *)
Definition reName : Js.Regex :=
  Js.Seq (Js.Chr "$") (Js.Seq (Js.Cls Js.isIdentStart) (Js.Star (Js.Cls Js.isWord))).

(** [/^"(\\\\|\\"|[^"])*"/] *)
Definition reString : Js.Regex :=
  Js.Seq (Js.Chr Js.dquote)
    (Js.Seq
       (Js.Star
          (Js.Alt (Js.Seq (Js.Chr "\") (Js.Chr "\"))
             (Js.Alt (Js.Seq (Js.Chr "\") (Js.Chr Js.dquote))
                (Js.Cls (fun c => negb (Ascii.eqb c Js.dquote))))))
       (Js.Chr Js.dquote)).

(** [/^\d+(\.\d+)?([eE][\+\-]?\d+)?/] *)
Definition reNumber : Js.Regex :=
  Js.Seq (Js.Many1 (Js.Cls Js.isDigit))
    (Js.Seq
       (Js.Opt (Js.Seq (Js.Chr ".") (Js.Many1 (Js.Cls Js.isDigit))))
       (Js.Opt
          (Js.Seq (Js.Cls (fun c => Ascii.eqb c "e" || Ascii.eqb c "E"))
             (Js.Seq (Js.Opt (Js.Cls (fun c => Ascii.eqb c "+" || Ascii.eqb c "-")))
                (Js.Many1 (Js.Cls Js.isDigit)))))).

(** [/^[a-zA-Z_]\w*/] *)
Definition reIdent : Js.Regex :=
  Js.Seq (Js.Cls Js.isIdentStart) (Js.Star (Js.Cls Js.isWord)).

(** [/^\s/] *)
Definition reSpace : Js.Regex := Js.Cls Js.isSpace.

(** * The first dialect: field names, arrays and bespoke functions *)

Module Bespoke.

Module TokenType.

Inductive t : Set :=
| END | LParen | RParen | LBracket | RBracket | Comma
| Plus | Minus | Mul | Div | Less | LessOrEq | Greater | GreaterOrEq
| Equal | NotEqual | Not | String | Number | Indent | Name.

(** The numeric value of the enum member, which the source compares. *)
Definition code (ty : t) : nat :=
  match ty with
  | END => 0 | LParen => 1 | RParen => 2 | LBracket => 3 | RBracket => 4
  | Comma => 5
  | Plus => 6 | Minus => 7 | Mul => 8 | Div => 9 | Less => 10
  | LessOrEq => 11 | Greater => 12 | GreaterOrEq => 13
  | Equal => 14 | NotEqual => 15 | Not => 16 | String => 17 | Number => 18
  | Indent => 19 | Name => 20
  end.

(** [a === b] *)
Definition eqb (a b : t) : bool := code a =? code b.

End TokenType.

Record Token : Set := mkToken { type : TokenType.t; text : string }.

(** [firstToken] returns the first token in [s]; [s] must not begin with
    whitespace characters. *)
Definition firstToken (s : string) : Completion Token :=
  if String.length s =? 0 then Return (mkToken TokenType.END "")
  else
    let c := Js.charAt s 0 in
    let followedByEq :=
      (1 <? String.length s) && String.eqb (Js.charAt s 1) "=" in
    if String.eqb c "(" then Return (mkToken TokenType.LParen "(")
    else if String.eqb c ")" then Return (mkToken TokenType.RParen ")")
    else if String.eqb c "[" then Return (mkToken TokenType.LBracket "[")
    else if String.eqb c "]" then Return (mkToken TokenType.RBracket "]")
    else if String.eqb c "," then Return (mkToken TokenType.Comma ",")
    else if String.eqb c "+" then Return (mkToken TokenType.Plus "+")
    else if String.eqb c "-" then Return (mkToken TokenType.Minus "-")
    else if String.eqb c "*" then Return (mkToken TokenType.Mul "*")
    else if String.eqb c "/" then Return (mkToken TokenType.Div "/")
    else if String.eqb c "<" then
      if followedByEq then Return (mkToken TokenType.LessOrEq "<=")
      else Return (mkToken TokenType.Less "<")
    else if String.eqb c ">" then
      if followedByEq then Return (mkToken TokenType.GreaterOrEq ">=")
      else Return (mkToken TokenType.Greater ">")
    else if String.eqb c "=" then Return (mkToken TokenType.Equal "=")
    else if String.eqb c "!" then
      if followedByEq then Return (mkToken TokenType.NotEqual "!=")
      else Return (mkToken TokenType.Not "!")
    else if String.eqb c "$" then
      match Js.regexMatch reName s with
      | None => Throw ("invalid field name in: " +++ s)
      | Some m0 => Return (mkToken TokenType.Name m0)
      end
    else if String.eqb c (String Js.dquote "") then
      match Js.regexMatch reString s with
      | None => Throw ("unterminated string literal in: " +++ s)
      | Some m0 => Return (mkToken TokenType.String m0)
      end
    else if String.leb "0" c && String.leb c "9" then
      match Js.regexMatch reNumber s with
      | None => Throw "impossible"
      | Some m0 => Return (mkToken TokenType.Number m0)
      end
    else
      match Js.regexMatch reIdent s with
      | Some m0 => Return (mkToken TokenType.Indent m0)
      | None =>
          match Js.regexMatch reSpace s with
          | Some _ => Throw "string s has a leading whitespace"
          | None => Throw ("unrecognized token in: " +++ s)
          end
      end.

(** The [while (true)] loop of [tokenize]; [toks] is the array built so
    far, in source order. *)
Fixpoint tokenizeLoop (fuel : nat) (toks : list Token) (s : string)
  : Completion (list Token) :=
  match fuel with
  | 0 => Diverge
  | S fuel' =>
      let s := Js.trim s in
      match firstToken s with
      | Return t =>
          let toks := toks ++ [t] in
          if TokenType.eqb (type t) TokenType.END then Return toks
          else tokenizeLoop fuel' toks (Js.slice (String.length (text t)) s)
      | Throw msg => Throw msg
      | TypeError => TypeError
      | Diverge => Diverge
      end
  end.

Definition tokenize (s : string) : Completion (list Token) :=
  tokenizeLoop (S (String.length s)) [] s.

(** ** The token stack

    The parser uses the array [revToks] as a stack: it only pops its last
    element and reads it.  The stack is the list of the array's elements
    from the last one to the first one, hence [stackOf]. *)

Definition reverse (toks : list Token) : list Token := rev toks.
Definition stackOf (array : list Token) : list Token := rev array.

Definition Parser (A : Type) : Type :=
  list Token -> Completion (A * list Token).

Definition ret {A} (a : A) : Parser A := fun revToks => Return (a, revToks).

Definition throw {A} (msg : string) : Parser A := fun _ => Throw msg.

Definition bind {A B} (p : Parser A) (k : A -> Parser B) : Parser B :=
  fun revToks =>
    match p revToks with
    | Return (a, revToks') => k a revToks'
    | Throw msg => Throw msg
    | TypeError => TypeError
    | Diverge => Diverge
    end.

Notation "x <- p ;; k" := (bind p (fun x => k))
  (at level 61, p at next level, right associativity).
Notation "p ;;; k" := (bind p (fun _ => k))
  (at level 61, right associativity).

(** [revToks.pop() as Token], the token being used right after. *)
Definition pop : Parser Token :=
  fun revToks =>
    match revToks with
    | tok :: rest => Return (tok, rest)
    | [] => TypeError
    end.

(** [revToks[revToks.length-1]], the token being used right after. *)
Definition peek : Parser Token :=
  fun revToks =>
    match revToks with
    | tok :: _ => Return (tok, revToks)
    | [] => TypeError
    end.

(** Binary operators: [tok.type >= Plus && tok.type <= NotEqual]. *)
Definition isBinary (ty : TokenType.t) : bool :=
  (TokenType.code TokenType.Plus <=? TokenType.code ty)
  && (TokenType.code ty <=? TokenType.code TokenType.NotEqual).

Fixpoint printTokens (revToks : list Token) : string :=
  match revToks with
  | [] => ""
  | tok :: rest =>
      (if isBinary (type tok) then " " +++ text tok +++ " "
       else if TokenType.eqb (type tok) TokenType.Comma then ", "
       else text tok) +++ printTokens rest
  end.

(** The message of the error [unexpectedTokenError(tok, rest)] builds. *)
Definition unexpectedTokenError (tok : Token) (rest : list Token) : string :=
  if TokenType.eqb (type tok) TokenType.END
  then "unexpected end of token stream"
  else "unexpected token at the start of: " +++ printTokens (tok :: rest).


Definition diverge {A} : Parser A := fun _ => Diverge.

(** [throw unexpectedTokenError(tok, revToks)] *)
Definition throwUnexpected {A} (tok : Token) : Parser A :=
  fun revToks => Throw (unexpectedTokenError tok revToks).

Definition consume (expectedType : TokenType.t) : Parser Token :=
  tok <- pop ;;
  if negb (TokenType.eqb (type tok) expectedType)
  then throwUnexpected tok
  else ret tok.

(** ** The parser *)

(** The test on [expectedEnd] that opens [parseExpression]. *)
Definition validEnd (expectedEnd : TokenType.t) : bool :=
  negb (negb (TokenType.eqb expectedEnd TokenType.END)
        && negb (TokenType.eqb expectedEnd TokenType.RParen)
        && negb (TokenType.eqb expectedEnd TokenType.Comma)
        && negb (TokenType.eqb expectedEnd TokenType.RBracket)).

(** The test that ends an expression, on the type of the next token. *)
Definition isEnd (expectedEnd ty : TokenType.t) : bool :=
  TokenType.eqb ty expectedEnd
  || (TokenType.eqb expectedEnd TokenType.Comma
      && TokenType.eqb ty TokenType.RParen)
  || (TokenType.eqb expectedEnd TokenType.RBracket
      && TokenType.eqb ty TokenType.Comma).

(** [tok.type >= TokenType.Plus && tok.type <= TokenType.GreaterOrEq] *)
Definition isPassThrough (ty : TokenType.t) : bool :=
  (TokenType.code TokenType.Plus <=? TokenType.code ty)
  && (TokenType.code ty <=? TokenType.code TokenType.GreaterOrEq).

(** The second half of the loop body of [parseExpression], from the
    comment [// Possible end of expression.] on: the operand has been
    parsed and added to [js]; [loop] is the next iteration. *)
Definition afterOperand (loop : string -> Parser string)
  (expectedEnd : TokenType.t) (js : string) : Parser string :=
  next <- peek ;;
  if isEnd expectedEnd (type next) then ret js
  else
    (* Operator. *)
    tok <- pop ;;
    if isPassThrough (type tok) then loop (js +++ " " +++ text tok +++ " ")
    else
      match type tok with
      | TokenType.Indent =>
          if String.eqb (text tok) "AND" then loop (js +++ " && ")
          else if String.eqb (text tok) "OR" then loop (js +++ " || ")
          else throwUnexpected tok
      | TokenType.Equal => loop (js +++ " === ")
      | TokenType.NotEqual => loop (js +++ " !== ")
      | _ => throwUnexpected tok
      end.

Definition isClosing (ty : TokenType.t) : bool :=
  TokenType.eqb ty TokenType.RParen || TokenType.eqb ty TokenType.RBracket.

(** The bodies of the parsing functions.  The functions call each other
    and their loops go round: in the bodies, the functions that are
    called are variables, named as in the source, and [continue] is the
    next iteration of the loop. *)

Section Bodies.

Variable parseExpression : TokenType.t -> Parser string.
Variable parseList : TokenType.t -> Parser string.
Variable parseFunctionCall : string -> Parser string.
Variable parseCountForms : Parser string.

(** [parseExpression], up to its loop. *)
Definition parseExpressionBody (loop : string -> Parser string)
  (expectedEnd : TokenType.t) : Parser string :=
  if negb (validEnd expectedEnd) then throw "invalid expectedEnd"
  else loop "".

(** One iteration of the [while (true)] of [parseExpression]. *)
Definition parseExpressionIter (continue : string -> Parser string)
  (js : string) (expectedEnd : TokenType.t) : Parser string :=
  (* Expression. *)
  tok <- pop ;;
  match type tok with
  | TokenType.Indent =>
      next <- peek ;;
      if TokenType.eqb (type next) TokenType.LParen then
        call <- parseFunctionCall (text tok) ;;
        afterOperand continue expectedEnd (js +++ call)
      else afterOperand continue expectedEnd (js +++ text tok)
  | TokenType.Name =>
      afterOperand continue expectedEnd
        (js +++ "**" +++ Js.slice 1 (text tok) +++ "**")
  | TokenType.String | TokenType.Number =>
      afterOperand continue expectedEnd (js +++ text tok)
  | TokenType.Plus | TokenType.Minus =>
      next <- peek ;;
      if TokenType.eqb (type next) TokenType.Plus
         || TokenType.eqb (type next) TokenType.Minus
      then (bad <- pop ;; throwUnexpected bad)
      else continue (js +++ text tok)
  | TokenType.Not => continue (js +++ "!")
  | TokenType.LParen =>
      inner <- parseExpression TokenType.RParen ;;
      consume TokenType.RParen ;;;
      afterOperand continue expectedEnd (js +++ "(" +++ inner +++ ")")
  | TokenType.LBracket =>
      inner <- parseList TokenType.RBracket ;;
      consume TokenType.RBracket ;;;
      afterOperand continue expectedEnd (js +++ "[" +++ inner +++ "]")
  | _ => throwUnexpected tok
  end.

(** [parseList], up to its loop. *)
Definition parseListBody (loop : string -> Parser string)
  (expectedEnd : TokenType.t) : Parser string :=
  if negb (TokenType.eqb expectedEnd TokenType.Comma)
     && negb (TokenType.eqb expectedEnd TokenType.RBracket)
  then throw "invalid expectedEnd"
  else
    next <- peek ;;
    if isClosing (type next) then ret "" (* empty list *)
    else loop "".

(** One iteration of the [while (true)] of [parseList]. *)
Definition parseListIter (continue : string -> Parser string)
  (js : string) (expectedEnd : TokenType.t) : Parser string :=
  item <- parseExpression expectedEnd ;;
  next <- peek ;;
  if isClosing (type next) then ret (js +++ item)
  else
    consume TokenType.Comma ;;;
    continue ((js +++ item) +++ ", ").

Definition parseFunctionCallBody (name : string) : Parser string :=
  if String.eqb name "INCLUDES" then
    consume TokenType.LParen ;;;
    list <- parseExpression TokenType.Comma ;;
    consume TokenType.Comma ;;;
    item <- parseExpression TokenType.Comma ;;
    consume TokenType.RParen ;;;
    ret (("(" +++ list +++ ").includes(") +++ item +++ ")")
  else if String.eqb name "PERCENT" then
    consume TokenType.LParen ;;;
    a <- parseExpression TokenType.Comma ;;
    consume TokenType.Comma ;;;
    b <- parseExpression TokenType.Comma ;;
    consume TokenType.RParen ;;;
    ret (("getTrend(" +++ a +++ ", ") +++ b +++ ")")
  else if String.eqb name "COUNTFORMS" then parseCountForms
  else throw ("unsupported function: " +++ name).

Definition parseCountFormsBody : Parser string :=
  consume TokenType.LParen ;;;
  form <- consume TokenType.Indent ;;
  let formName := text form in
  tok <- pop ;;
  match type tok with
  | TokenType.RParen => ret ("countOccurrences(" +++ formName +++ ", [])")
  | TokenType.Comma =>
      condition <- parseExpression TokenType.Comma ;;
      consume TokenType.RParen ;;;
      ret ("countConditionalOccurrences(" +++ formName +++ ", [], `"
           +++ condition +++ "`)")
  | _ => throwUnexpected tok
  end.

End Bodies.

(** The parsing functions, on fuel: a call and an iteration of a loop
    take one unit each. *)
Fixpoint parseExpression (fuel : nat) (expectedEnd : TokenType.t) {struct fuel}
  : Parser string :=
  match fuel with
  | 0 => diverge
  | S fuel =>
      parseExpressionBody
        (fun js => parseExpressionLoop fuel js expectedEnd) expectedEnd
  end

with parseExpressionLoop (fuel : nat) (js : string) (expectedEnd : TokenType.t)
  {struct fuel} : Parser string :=
  match fuel with
  | 0 => diverge
  | S fuel =>
      parseExpressionIter (parseExpression fuel) (parseList fuel)
        (parseFunctionCall fuel)
        (fun js' => parseExpressionLoop fuel js' expectedEnd) js expectedEnd
  end

with parseList (fuel : nat) (expectedEnd : TokenType.t) {struct fuel}
  : Parser string :=
  match fuel with
  | 0 => diverge
  | S fuel =>
      parseListBody (fun js => parseListLoop fuel js expectedEnd) expectedEnd
  end

with parseListLoop (fuel : nat) (js : string) (expectedEnd : TokenType.t)
  {struct fuel} : Parser string :=
  match fuel with
  | 0 => diverge
  | S fuel =>
      parseListIter (parseExpression fuel)
        (fun js' => parseListLoop fuel js' expectedEnd) js expectedEnd
  end

with parseFunctionCall (fuel : nat) (name : string) {struct fuel}
  : Parser string :=
  match fuel with
  | 0 => diverge
  | S fuel =>
      parseFunctionCallBody (parseExpression fuel) (parseCountForms fuel) name
  end

with parseCountForms (fuel : nat) {struct fuel} : Parser string :=
  match fuel with
  | 0 => diverge
  | S fuel => parseCountFormsBody (parseExpression fuel)
  end.

(** The parsing functions with the fuel they need on the stack they are
    given (see [parseExpression_enough] and the lemmas after it). *)

Definition runExpression (expectedEnd : TokenType.t) : Parser string :=
  fun revToks =>
    parseExpression (4 * List.length revToks + 2) expectedEnd revToks.

Definition runExpressionLoop (js : string) (expectedEnd : TokenType.t)
  : Parser string :=
  fun revToks =>
    parseExpressionLoop (4 * List.length revToks + 1) js expectedEnd revToks.

Definition runList (expectedEnd : TokenType.t) : Parser string :=
  fun revToks => parseList (4 * List.length revToks + 4) expectedEnd revToks.

Definition runListLoop (js : string) (expectedEnd : TokenType.t)
  : Parser string :=
  fun revToks =>
    parseListLoop (4 * List.length revToks + 3) js expectedEnd revToks.

Definition runFunctionCall (name : string) : Parser string :=
  fun revToks => parseFunctionCall (4 * List.length revToks + 4) name revToks.

Definition runCountForms : Parser string :=
  fun revToks => parseCountForms (4 * List.length revToks + 3) revToks.

Definition indicatorToJs (formula : string) : Completion string :=
  match tokenize formula with
  | Return toks =>
      match runExpression TokenType.END (stackOf (reverse toks)) with
      | Return (js, _) => Return js
      | Throw msg => Throw msg
      | TypeError => TypeError
      | Diverge => Diverge
      end
  | Throw msg => Throw msg
  | TypeError => TypeError
  | Diverge => Diverge
  end.

End Bespoke.

(** * The second dialect: functions renamed through a table *)

Module Generic.

Module TokenType.

Inductive t : Set :=
| END | LParen | RParen | LBracket | RBracket | Comma
| Plus | Minus | Mul | Div | Less | LessOrEq | Greater | GreaterOrEq
| Equal | NotEqual | Not | String | Number | Indent.

Definition code (ty : t) : nat :=
  match ty with
  | END => 0 | LParen => 1 | RParen => 2 | LBracket => 3 | RBracket => 4
  | Comma => 5
  | Plus => 6 | Minus => 7 | Mul => 8 | Div => 9 | Less => 10
  | LessOrEq => 11 | Greater => 12 | GreaterOrEq => 13
  | Equal => 14 | NotEqual => 15 | Not => 16 | String => 17 | Number => 18
  | Indent => 19
  end.

Definition eqb (a b : t) : bool := code a =? code b.

End TokenType.

Record Token : Set := mkToken { type : TokenType.t; text : string }.

Definition firstToken (s : string) : Completion Token :=
  if String.length s =? 0 then Return (mkToken TokenType.END "")
  else
    let c := Js.charAt s 0 in
    let followedByEq :=
      (1 <? String.length s) && String.eqb (Js.charAt s 1) "=" in
    if String.eqb c "(" then Return (mkToken TokenType.LParen "(")
    else if String.eqb c ")" then Return (mkToken TokenType.RParen ")")
    else if String.eqb c "[" then Return (mkToken TokenType.LBracket "[")
    else if String.eqb c "]" then Return (mkToken TokenType.RBracket "]")
    else if String.eqb c "," then Return (mkToken TokenType.Comma ",")
    else if String.eqb c "+" then Return (mkToken TokenType.Plus "+")
    else if String.eqb c "-" then Return (mkToken TokenType.Minus "-")
    else if String.eqb c "*" then Return (mkToken TokenType.Mul "*")
    else if String.eqb c "/" then Return (mkToken TokenType.Div "/")
    else if String.eqb c "<" then
      if followedByEq then Return (mkToken TokenType.LessOrEq "<=")
      else Return (mkToken TokenType.Less "<")
    else if String.eqb c ">" then
      if followedByEq then Return (mkToken TokenType.GreaterOrEq ">=")
      else Return (mkToken TokenType.Greater ">")
    else if String.eqb c "=" then Return (mkToken TokenType.Equal "=")
    else if String.eqb c "!" then
      if followedByEq then Return (mkToken TokenType.NotEqual "!=")
      else Return (mkToken TokenType.Not "!")
    else if String.eqb c (String Js.dquote "") then
      match Js.regexMatch reString s with
      | None => Throw ("unterminated string literal in: " +++ s)
      | Some m0 => Return (mkToken TokenType.String m0)
      end
    else if String.leb "0" c && String.leb c "9" then
      match Js.regexMatch reNumber s with
      | None => Throw "impossible"
      | Some m0 => Return (mkToken TokenType.Number m0)
      end
    else
      match Js.regexMatch reIdent s with
      | Some m0 => Return (mkToken TokenType.Indent m0)
      | None =>
          match Js.regexMatch reSpace s with
          | Some _ => Throw "string s has a leading whitespace"
          | None => Throw ("unrecognized token in: " +++ s)
          end
      end.

Fixpoint tokenizeLoop (fuel : nat) (toks : list Token) (s : string)
  : Completion (list Token) :=
  match fuel with
  | 0 => Diverge
  | S fuel' =>
      let s := Js.trim s in
      match firstToken s with
      | Return t =>
          let toks := toks ++ [t] in
          if TokenType.eqb (type t) TokenType.END then Return toks
          else tokenizeLoop fuel' toks (Js.slice (String.length (text t)) s)
      | Throw msg => Throw msg
      | TypeError => TypeError
      | Diverge => Diverge
      end
  end.

Definition tokenize (s : string) : Completion (list Token) :=
  tokenizeLoop (S (String.length s)) [] s.

(** The token stack and the parsers on it, as in the first dialect. *)

Definition reverse (toks : list Token) : list Token := rev toks.
Definition stackOf (array : list Token) : list Token := rev array.

Definition Parser (A : Type) : Type :=
  list Token -> Completion (A * list Token).

Definition ret {A} (a : A) : Parser A := fun revToks => Return (a, revToks).

Definition throw {A} (msg : string) : Parser A := fun _ => Throw msg.

Definition diverge {A} : Parser A := fun _ => Diverge.

Definition bind {A B} (p : Parser A) (k : A -> Parser B) : Parser B :=
  fun revToks =>
    match p revToks with
    | Return (a, revToks') => k a revToks'
    | Throw msg => Throw msg
    | TypeError => TypeError
    | Diverge => Diverge
    end.

Notation "x <- p ;; k" := (bind p (fun x => k))
  (at level 61, p at next level, right associativity).
Notation "p ;;; k" := (bind p (fun _ => k))
  (at level 61, right associativity).

Definition pop : Parser Token :=
  fun revToks =>
    match revToks with
    | tok :: rest => Return (tok, rest)
    | [] => TypeError
    end.

Definition peek : Parser Token :=
  fun revToks =>
    match revToks with
    | tok :: _ => Return (tok, revToks)
    | [] => TypeError
    end.

(** The message of the error [unexpectedTokenError(t)] builds. *)
Definition unexpectedTokenError (t : Token) : string :=
  if TokenType.eqb (type t) TokenType.END
  then "unexpected end of token stream"
  else "unexpected token: " +++ text t.

Definition consume (expectedType : TokenType.t) : Parser unit :=
  tok <- pop ;;
  if negb (TokenType.eqb (type tok) expectedType)
  then throw (unexpectedTokenError tok)
  else ret tt.

Definition validEnd (expectedEnd : TokenType.t) : bool :=
  negb (negb (TokenType.eqb expectedEnd TokenType.END)
        && negb (TokenType.eqb expectedEnd TokenType.RParen)
        && negb (TokenType.eqb expectedEnd TokenType.Comma)
        && negb (TokenType.eqb expectedEnd TokenType.RBracket)).

Definition isEnd (expectedEnd ty : TokenType.t) : bool :=
  TokenType.eqb ty expectedEnd
  || (TokenType.eqb expectedEnd TokenType.Comma
      && TokenType.eqb ty TokenType.RParen)
  || (TokenType.eqb expectedEnd TokenType.RBracket
      && TokenType.eqb ty TokenType.Comma).

Definition isPassThrough (ty : TokenType.t) : bool :=
  (TokenType.code TokenType.Plus <=? TokenType.code ty)
  && (TokenType.code ty <=? TokenType.code TokenType.GreaterOrEq).

Definition isClosing (ty : TokenType.t) : bool :=
  TokenType.eqb ty TokenType.RParen || TokenType.eqb ty TokenType.RBracket.

(** ** The table of functions

    [func2jsfunc] is an object literal, and [func2jsfunc[name]] also finds
    what the object inherits from [Object.prototype]. *)

Definition func2jsfunc : list (string * string) :=
  [("SUM", "sumConditionalOccurrences")].

(** The properties of [Object.prototype]. *)
Definition objectPrototype : list string :=
  ["constructor"; "hasOwnProperty"; "isPrototypeOf"; "propertyIsEnumerable";
   "toLocaleString"; "toString"; "valueOf"; "__proto__";
   "__defineGetter__"; "__defineSetter__";
   "__lookupGetter__"; "__lookupSetter__"].

Inductive Value : Set :=
| Undefined
| Str (s : string)
| Inherited (key : string).

Fixpoint ownProperty (object : list (string * string)) (name : string)
  : option string :=
  match object with
  | [] => None
  | (key, value) :: object' =>
      if String.eqb key name then Some value else ownProperty object' name
  end.

(** [func2jsfunc[name]] *)
Definition getProperty (name : string) : Value :=
  match ownProperty func2jsfunc name with
  | Some value => Str value
  | None =>
      if existsb (String.eqb name) objectPrototype then Inherited name
      else Undefined
  end.

(** [js == null] *)
Definition isNullish (js : Value) : bool :=
  match js with
  | Undefined => true
  | _ => false
  end.

Section Parser.

(** The string a value inherited from [Object.prototype] becomes when it
    is added to a string; the text of a built-in function depends on the
    engine. *)
Variable inheritedText : string -> string.

Definition toText (js : Value) : string :=
  match js with
  | Undefined => "undefined"
  | Str s => s
  | Inherited key => inheritedText key
  end.

(** The second half of the loop body of [parseExpression]. *)
Definition afterOperand (loop : string -> Parser string)
  (expectedEnd : TokenType.t) (js : string) : Parser string :=
  next <- peek ;;
  if isEnd expectedEnd (type next) then ret js
  else
    (* Operator. *)
    tok <- pop ;;
    if isPassThrough (type tok) then loop (js +++ text tok)
    else
      match type tok with
      | TokenType.Indent =>
          if String.eqb (text tok) "AND" then loop (js +++ "&&")
          else if String.eqb (text tok) "OR" then loop (js +++ "||")
          else throw (unexpectedTokenError tok)
      | TokenType.Equal => loop (js +++ "===")
      | TokenType.NotEqual => loop (js +++ "!==")
      | _ => throw (unexpectedTokenError tok)
      end.

Section Bodies.

Variable parseExpression : TokenType.t -> Parser string.
Variable parseList : TokenType.t -> Parser string.
Variable parseFunctionCall : string -> Parser string.

Definition parseExpressionBody (loop : string -> Parser string)
  (expectedEnd : TokenType.t) : Parser string :=
  if negb (validEnd expectedEnd) then throw "invalid expectedEnd"
  else loop "".

Definition parseExpressionIter (continue : string -> Parser string)
  (js : string) (expectedEnd : TokenType.t) : Parser string :=
  (* Expression. *)
  tok <- pop ;;
  match type tok with
  | TokenType.Indent =>
      next <- peek ;;
      if TokenType.eqb (type next) TokenType.LParen then
        call <- parseFunctionCall (text tok) ;;
        afterOperand continue expectedEnd (js +++ call)
      else afterOperand continue expectedEnd (js +++ text tok)
  | TokenType.String | TokenType.Number =>
      afterOperand continue expectedEnd (js +++ text tok)
  | TokenType.Plus | TokenType.Minus =>
      next <- peek ;;
      if TokenType.eqb (type next) TokenType.Plus
         || TokenType.eqb (type next) TokenType.Minus
      then throw (unexpectedTokenError next)
      else continue (js +++ text tok)
  | TokenType.Not => continue (js +++ "!")
  | TokenType.LParen =>
      inner <- parseExpression TokenType.RParen ;;
      consume TokenType.RParen ;;;
      afterOperand continue expectedEnd (js +++ "(" +++ inner +++ ")")
  | _ => throw (unexpectedTokenError tok)
  end.

Definition parseFunctionCallBody (name : string) : Parser string :=
  let js := getProperty name in
  if isNullish js then throw ("Unsupported function: " +++ name)
  else
    consume TokenType.LParen ;;;
    args <- parseList TokenType.Comma ;;
    consume TokenType.RParen ;;;
    ret (toText js +++ "(" +++ args +++ ")").

Definition parseListBody (loop : string -> Parser string)
  (expectedEnd : TokenType.t) : Parser string :=
  if negb (TokenType.eqb expectedEnd TokenType.Comma)
     && negb (TokenType.eqb expectedEnd TokenType.RBracket)
  then throw "invalid expectedEnd"
  else
    next <- peek ;;
    if isClosing (type next) then ret "" (* empty list *)
    else loop "".

Definition parseListIter (continue : string -> Parser string)
  (js : string) (expectedEnd : TokenType.t) : Parser string :=
  item <- parseExpression expectedEnd ;;
  next <- peek ;;
  if isClosing (type next) then ret (js +++ item)
  else
    consume TokenType.Comma ;;;
    continue ((js +++ item) +++ ",").

End Bodies.

Fixpoint parseExpression (fuel : nat) (expectedEnd : TokenType.t) {struct fuel}
  : Parser string :=
  match fuel with
  | 0 => diverge
  | S fuel =>
      parseExpressionBody
        (fun js => parseExpressionLoop fuel js expectedEnd) expectedEnd
  end

with parseExpressionLoop (fuel : nat) (js : string) (expectedEnd : TokenType.t)
  {struct fuel} : Parser string :=
  match fuel with
  | 0 => diverge
  | S fuel =>
      parseExpressionIter (parseExpression fuel) (parseFunctionCall fuel)
        (fun js' => parseExpressionLoop fuel js' expectedEnd) js expectedEnd
  end

with parseFunctionCall (fuel : nat) (name : string) {struct fuel}
  : Parser string :=
  match fuel with
  | 0 => diverge
  | S fuel => parseFunctionCallBody (parseList fuel) name
  end

with parseList (fuel : nat) (expectedEnd : TokenType.t) {struct fuel}
  : Parser string :=
  match fuel with
  | 0 => diverge
  | S fuel =>
      parseListBody (fun js => parseListLoop fuel js expectedEnd) expectedEnd
  end

with parseListLoop (fuel : nat) (js : string) (expectedEnd : TokenType.t)
  {struct fuel} : Parser string :=
  match fuel with
  | 0 => diverge
  | S fuel =>
      parseListIter (parseExpression fuel)
        (fun js' => parseListLoop fuel js' expectedEnd) js expectedEnd
  end.

(** The parsing functions with the fuel of the first dialect. *)

Definition runExpression (expectedEnd : TokenType.t) : Parser string :=
  fun revToks =>
    parseExpression (4 * List.length revToks + 2) expectedEnd revToks.

Definition runFunctionCall (name : string) : Parser string :=
  fun revToks => parseFunctionCall (4 * List.length revToks + 4) name revToks.

Definition runList (expectedEnd : TokenType.t) : Parser string :=
  fun revToks => parseList (4 * List.length revToks + 4) expectedEnd revToks.

Definition indicatorToJs (formula : string) : Completion string :=
  match tokenize formula with
  | Return toks =>
      match runExpression TokenType.END (stackOf (reverse toks)) with
      | Return (js, _) => Return js
      | Throw msg => Throw msg
      | TypeError => TypeError
      | Diverge => Diverge
      end
  | Throw msg => Throw msg
  | TypeError => TypeError
  | Diverge => Diverge
  end.

End Parser.

End Generic.

(** * Facts on strings and on the matcher *)

Module JsFacts.
Import Js.

Lemma append_nil_r s : s +++ "" = s.
Proof. induction s as [|c s IH]; simpl; congruence. Qed.

Lemma append_assoc a b c : (a +++ b) +++ c = a +++ b +++ c.
Proof. induction a as [|x a IH]; simpl; congruence. Qed.

Lemma length_append a b :
  String.length (a +++ b) = String.length a + String.length b.
Proof. induction a as [|x a IH]; simpl; congruence. Qed.

Lemma take_append p r : take (String.length p) (p +++ r) = p.
Proof.
  induction p as [|x p IH]; simpl; [now destruct r|congruence].
Qed.

Lemma slice_append p r : slice (String.length p) (p +++ r) = r.
Proof. induction p as [|x p IH]; simpl; [reflexivity|exact IH]. Qed.

Lemma slice_all s : slice (String.length s) s = "".
Proof. induction s as [|c s IH]; simpl; [reflexivity|exact IH]. Qed.

Lemma append_inv_nil a b : a +++ b = "" -> a = "" /\ b = "".
Proof. destruct a; simpl; [auto|discriminate]. Qed.

(** [t] occurs in [s]. *)
Definition substringOf (t s : string) : Prop :=
  exists before after, s = before +++ t +++ after.

Lemma substringOf_refl s : substringOf s s.
Proof. exists "", "". simpl. now rewrite append_nil_r. Qed.

Lemma substringOf_trans a b c :
  substringOf a b -> substringOf b c -> substringOf a c.
Proof.
  intros (p & q & ->) (p' & q' & ->). exists (p' +++ p), (q +++ q').
  now rewrite !append_assoc.
Qed.

Lemma substringOf_prefix p r : substringOf p (p +++ r).
Proof. now exists "", r. Qed.

Lemma substringOf_suffix p r : substringOf r (p +++ r).
Proof. exists p, "". now rewrite append_nil_r. Qed.

Lemma substringOf_length t s :
  substringOf t s -> String.length t <= String.length s.
Proof. intros (p & q & ->). rewrite !length_append. lia. Qed.

(** ** [charAt] *)

Lemma charAt_0 s :
  (String.length s =? 0) = false -> s = charAt s 0 +++ slice 1 s.
Proof. destruct s; simpl; [discriminate|reflexivity]. Qed.

Lemma charAt_0_length s :
  (String.length s =? 0) = false -> String.length (charAt s 0) = 1.
Proof. destruct s; simpl; [discriminate|reflexivity]. Qed.

Lemma charAt_1 s c d :
  charAt s 0 = c -> String.length c = 1 ->
  (1 <? String.length s) && String.eqb (charAt s 1) d = true ->
  s = (c +++ d) +++ slice 2 s.
Proof.
  intros <- _ H. apply andb_true_iff in H. destruct H as [H1 H2].
  apply String.eqb_eq in H2. subst d.
  destruct s as [|x [|y s]]; simpl in *; try discriminate. reflexivity.
Qed.

(** ** [trim] *)

Lemma trimStart_suffix s : exists p, s = p +++ trimStart s.
Proof.
  induction s as [|c s (p & IH)]; simpl; [now exists ""|].
  destruct (isSpace c); [|now exists ""].
  exists (String c p). simpl. congruence.
Qed.

Lemma trimEnd_prefix s : exists q, s = trimEnd s +++ q.
Proof.
  induction s as [|c s (q & IH)]; simpl; [now exists ""|].
  destruct (trimEnd s) eqn:E.
  - destruct (isSpace c); [now exists (String c s)|].
    exists s. reflexivity.
  - exists q. simpl in *. congruence.
Qed.

Lemma trim_substringOf s : substringOf (trim s) s.
Proof.
  unfold trim. destruct (trimStart_suffix s) as (p & Hp).
  destruct (trimEnd_prefix (trimStart s)) as (q & Hq).
  exists p, q. congruence.
Qed.

Lemma trimStart_head s c s' : trimStart s = String c s' -> isSpace c = false.
Proof.
  induction s as [|x s IH]; simpl; [discriminate|].
  destruct (isSpace x) eqn:E; [exact IH|]. intros [= <- _]. exact E.
Qed.

Lemma trimEnd_head s c s' :
  trimEnd s = String c s' -> exists t, s = String c t.
Proof.
  destruct s as [|x s]; simpl; [discriminate|].
  destruct (trimEnd s); [destruct (isSpace x); [discriminate|]|];
    intros [= <- _]; now exists s.
Qed.

Lemma trim_head s c s' : trim s = String c s' -> isSpace c = false.
Proof.
  unfold trim. intro H. apply trimEnd_head in H. destruct H as (t & H).
  now apply trimStart_head in H.
Qed.

(** ** The matcher *)

(** Whatever [run r s k] gives, [k] gave it on a suffix of [s]. *)
Lemma run_suffix r : forall s k x,
  run r s k = Some x -> exists p s', s = p +++ s' /\ k s' = Some x.
Proof.
  induction r as [|c|cls|r1 IH1 r2 IH2|r1 IH1 r2 IH2|r1 IH1];
    intros s k x; simpl.
  - intro H. now exists "", s.
  - destruct s as [|c' s']; [discriminate|].
    destruct (Ascii.eqb c c'); [|discriminate]. intro H.
    now exists (String c' ""), s'.
  - destruct s as [|c' s']; [discriminate|].
    destruct (cls c'); [|discriminate]. intro H.
    now exists (String c' ""), s'.
  - intro H. apply IH1 in H. destruct H as (p1 & s1 & -> & H).
    apply IH2 in H. destruct H as (p2 & s2 & -> & H).
    exists (p1 +++ p2), s2. now rewrite append_assoc.
  - destruct (run r1 s k) eqn:E.
    + intros [= <-]. now apply IH1 in E.
    + apply IH2.
  - generalize (String.length s) as n. intro n. revert s.
    induction n as [|n IHn]; intros s.
    + intro H. now exists "", s.
    + destruct (run r1 s _) eqn:E.
      * intros [= <-]. apply IH1 in E. destruct E as (p1 & s1 & -> & E).
        destruct (String.length s1 <? _); [|discriminate].
        apply IHn in E. destruct E as (p2 & s2 & -> & E).
        exists (p1 +++ p2), s2. now rewrite append_assoc.
      * intro H. now exists "", s.
Qed.

(** The patterns that cannot match the empty string. *)
Fixpoint consuming (r : Regex) : bool :=
  match r with
  | Eps | Star _ => false
  | Chr _ | Cls _ => true
  | Seq r1 r2 => consuming r1 || consuming r2
  | Alt r1 r2 => consuming r1 && consuming r2
  end.

Lemma run_consuming r : consuming r = true -> forall s k x,
  run r s k = Some x ->
  exists p s', s = p +++ s' /\ p <> "" /\ k s' = Some x.
Proof.
  induction r as [|c|cls|r1 IH1 r2 IH2|r1 IH1 r2 IH2|r1 IH1];
    simpl; intros Hc s k x; try discriminate Hc.
  - destruct s as [|c' s']; [discriminate|].
    destruct (Ascii.eqb c c'); [|discriminate]. intro H.
    now exists (String c' ""), s'.
  - destruct s as [|c' s']; [discriminate|].
    destruct (cls c'); [|discriminate]. intro H.
    now exists (String c' ""), s'.
  - intro H. destruct (consuming r1).
    + apply (IH1 eq_refl) in H. destruct H as (p1 & s1 & -> & Hp & H).
      apply run_suffix in H. destruct H as (p2 & s2 & -> & H).
      exists (p1 +++ p2), s2. rewrite append_assoc. repeat split; auto.
      intro E. apply append_inv_nil in E. now destruct E.
    + simpl in Hc. apply run_suffix in H. destruct H as (p1 & s1 & -> & H).
      apply (IH2 Hc) in H. destruct H as (p2 & s2 & -> & Hp & H).
      exists (p1 +++ p2), s2. rewrite append_assoc. repeat split; auto.
      intro E. apply append_inv_nil in E. now destruct E.
  - apply andb_true_iff in Hc. destruct Hc as [Hc1 Hc2].
    destruct (run r1 s k) eqn:E.
    + intros [= <-]. now apply (IH1 Hc1) in E.
    + now apply IH2.
Qed.

Lemma regexMatch_prefix r s m :
  regexMatch r s = Some m -> exists rest, s = m +++ rest.
Proof.
  unfold regexMatch. destruct (run r s Some) as [rest|] eqn:E; [|discriminate].
  intros [= <-]. apply run_suffix in E. destruct E as (p & s' & -> & [= ->]).
  exists rest. rewrite length_append, Nat.add_sub. now rewrite take_append.
Qed.

Lemma regexMatch_nonempty r s m :
  consuming r = true -> regexMatch r s = Some m -> m <> "".
Proof.
  unfold regexMatch. intro Hc.
  destruct (run r s Some) as [rest|] eqn:E; [|discriminate].
  intros [= <-]. apply (run_consuming r Hc) in E.
  destruct E as (p & s' & -> & Hp & [= ->]).
  rewrite length_append, Nat.add_sub. now rewrite take_append.
Qed.

(** Continuations that accept every string. *)
Definition total (k : string -> option string) : Prop :=
  forall s, k s <> None.

Lemma run_Star_total r k : total k -> total (fun s => run (Star r) s k).
Proof.
  intros Hk s. simpl. destruct (String.length s); [apply Hk|].
  destruct (run r s _); [discriminate|apply Hk].
Qed.

Lemma run_Opt_total r k : total k -> total (fun s => run (Opt r) s k).
Proof.
  intros Hk s. simpl. destruct (run r s k); [discriminate|apply Hk].
Qed.

Lemma total_Some : total Some.
Proof. intros s; discriminate. Qed.

Lemma digit_char a :
  String.leb "0" (String a "") && String.leb (String a "") "9" = true ->
  isDigit a = true.
Proof.
  destruct a as [[] [] [] [] [] [] [] []]; vm_compute; intro H;
    (reflexivity || discriminate H).
Qed.

Lemma take_all s : take (String.length s) s = s.
Proof. induction s as [|c s IH]; simpl; congruence. Qed.

Lemma word_not_space c : isWord c = true -> isSpace c = false.
Proof.
  destruct c as [[] [] [] [] [] [] [] []]; vm_compute; intro H;
    (reflexivity || discriminate H).
Qed.

Lemma identStart_word c : isIdentStart c = true -> isWord c = true.
Proof.
  destruct c as [[] [] [] [] [] [] [] []]; vm_compute; intro H;
    (reflexivity || discriminate H).
Qed.

Lemma trimEnd_nospace s :
  allChars (fun c => negb (isSpace c)) s = true -> trimEnd s = s.
Proof.
  induction s as [|c s IH]; simpl; [reflexivity|]. intro H.
  apply andb_true_iff in H. destruct H as [Hc Hs]. rewrite (IH Hs).
  destruct s; [|reflexivity]. now destruct (isSpace c).
Qed.

Lemma trim_nospace s :
  allChars (fun c => negb (isSpace c)) s = true -> trim s = s.
Proof.
  intro H. unfold trim. destruct s as [|c s]; [reflexivity|].
  simpl in H. apply andb_true_iff in H. destruct H as [Hc Hs].
  cbn [trimStart]. destruct (isSpace c) eqn:E; [discriminate Hc|].
  apply trimEnd_nospace. simpl. now rewrite E, Hs.
Qed.

Lemma allChars_impl (p q : ascii -> bool) s :
  (forall c, p c = true -> q c = true) ->
  allChars p s = true -> allChars q s = true.
Proof.
  intro Hpq. induction s as [|c s IH]; simpl; [reflexivity|]. intro H.
  apply andb_true_iff in H. destruct H as [Hc Hs].
  now rewrite (Hpq c Hc), (IH Hs).
Qed.

Lemma allChars_append p a b :
  allChars p (a +++ b) = allChars p a && allChars p b.
Proof.
  induction a as [|c a IH]; simpl; [reflexivity|].
  now rewrite IH, andb_assoc.
Qed.

(** [p*] takes a whole string of [p]s when the continuation accepts the
    end of the string. *)
Lemma run_Star_all p s x k :
  allChars p s = true -> k "" = Some x -> run (Star (Cls p)) s k = Some x.
Proof.
  intros Hs Hk. cbn [run]. generalize (Nat.le_refl (String.length s)).
  generalize (String.length s) at 2 3 as n. intro n. revert s Hs.
  induction n as [|n IH]; intros s Hs Hn.
  - destruct s; [exact Hk|simpl in Hn; lia].
  - destruct s as [|c s]; [exact Hk|].
    simpl in Hs. apply andb_true_iff in Hs. destruct Hs as [Hc Hs].
    cbn [run]. rewrite Hc.
    replace (String.length s <? String.length (String c s)) with true
      by (symmetry; apply Nat.ltb_lt; simpl; lia).
    rewrite (IH s Hs); [reflexivity|simpl in Hn; lia].
Qed.

End JsFacts.

(** * Properties of the first dialect *)

Module BespokeFacts.
Import Bespoke.
Import Js JsFacts.

Lemma type_eqb_eq (a b : TokenType.t) : TokenType.eqb a b = true <-> a = b.
Proof.
  unfold TokenType.eqb; split.
  - destruct a, b; simpl; intro H; try reflexivity; discriminate H.
  - intros ->. apply Nat.eqb_refl.
Qed.

Lemma type_eqb_neq (a b : TokenType.t) : TokenType.eqb a b = false <-> a <> b.
Proof.
  rewrite <- type_eqb_eq. destruct (TokenType.eqb a b); split; congruence.
Qed.

Lemma type_eqb_refl (a : TokenType.t) : TokenType.eqb a a = true.
Proof. apply type_eqb_eq; reflexivity. Qed.

(** ** The tokenizer *)

Inductive ErrorKind : Set :=
| Lexical | EndOfStream | UnexpectedToken | UnsupportedFunction.

Definition raised (kind : ErrorKind) (msg : string) : Prop :=
  match kind with
  | Lexical =>
      exists s,
        msg = "invalid field name in: " +++ s
        \/ msg = "unterminated string literal in: " +++ s
        \/ msg = "unrecognized token in: " +++ s
  | EndOfStream => msg = "unexpected end of token stream"
  | UnexpectedToken =>
      exists tok rest,
        type tok <> TokenType.END
        /\ msg = "unexpected token at the start of: " +++ printTokens (tok :: rest)
  | UnsupportedFunction => exists name, msg = "unsupported function: " +++ name
  end.

(** A token that is not the END marker: its text is not empty and the
    string starts with it. *)
Definition properToken (s : string) (t : Token) : Prop :=
  type t <> TokenType.END /\ text t <> "" /\ exists rest, s = text t +++ rest.

Lemma firstToken_Return s t :
  firstToken s = Return t ->
  (s = "" /\ t = mkToken TokenType.END "") \/ properToken s t.
Proof.
  unfold firstToken. destruct (String.length s =? 0) eqn:E0.
  { intros [= <-]. left. split; [|reflexivity].
    destruct s; [reflexivity|discriminate E0]. }
  pose proof (charAt_0 s E0) as Hs. pose proof (charAt_0_length s E0) as Hl.
  cbv zeta. intro H. right.
  repeat match type of H with
    | (if String.eqb ?c ?x then _ else _) = _ =>
        let E := fresh "E" in
        destruct (String.eqb c x) eqn:E;
        [apply String.eqb_eq in E|clear E]
    end;
  try match type of H with
    | (if ?b then _ else _) = _ =>
        let E := fresh "Eq" in destruct b eqn:E
    end;
  try (injection H as <-; simpl; split; [discriminate|split; [discriminate|]]).
  all: try match goal with
           | E : charAt ?s 0 = ?c, F : _ && _ = true |- _ =>
               exists (slice 2 s); exact (charAt_1 s c "=" E eq_refl F)
           end.
  all: try match goal with
           | E : charAt ?s 0 = ?c |- _ => exists (slice 1 s); cbn [text]; congruence
           end.
  - destruct (regexMatch reName s) as [m0|] eqn:Em; [|discriminate H].
    injection H as <-. split; [discriminate|]. split.
    + now apply (regexMatch_nonempty reName s).
    + now apply (regexMatch_prefix reName).
  - destruct (regexMatch reString s) as [m0|] eqn:Em; [|discriminate H].
    injection H as <-. split; [discriminate|]. split.
    + now apply (regexMatch_nonempty reString s).
    + now apply (regexMatch_prefix reString).
  - destruct (regexMatch reNumber s) as [m0|] eqn:Em; [|discriminate H].
    injection H as <-. split; [discriminate|]. split.
    + now apply (regexMatch_nonempty reNumber s).
    + now apply (regexMatch_prefix reNumber).
  - destruct (regexMatch reIdent s) as [m0|] eqn:Em.
    + injection H as <-. split; [discriminate|]. split.
      * now apply (regexMatch_nonempty reIdent s).
      * now apply (regexMatch_prefix reIdent).
    + destruct (regexMatch reSpace s); discriminate H.
Qed.

Lemma firstToken_completes s :
  firstToken s <> TypeError /\ firstToken s <> Diverge.
Proof.
  unfold firstToken.
  repeat match goal with
    | |- context [if ?b then _ else _] => destruct b
    | |- context [match ?x with Some _ => _ | None => _ end] => destruct x
    end; split; discriminate.
Qed.

Lemma reNumber_matches a s : isDigit a = true ->
  regexMatch reNumber (String a s) <> None.
Proof.
  intros Ha. unfold regexMatch.
  assert (H : run reNumber (String a s) Some <> None).
  { unfold reNumber, Many1. cbn [run]. rewrite Ha.
    apply (run_Star_total (Cls isDigit)). intro s1.
    apply (run_Opt_total _ _ (run_Opt_total _ _ total_Some)). }
  destruct (run reNumber (String a s) Some); [discriminate|contradiction].
Qed.

(** On a string without leading whitespace, as [tokenize] gives it,
    [firstToken] only throws lexical errors. *)
Lemma firstToken_Throw s msg :
  firstToken (trim s) = Throw msg -> raised Lexical msg.
Proof.
  unfold firstToken. destruct (String.length (trim s) =? 0) eqn:E0;
    [discriminate|].
  cbv zeta. intro H.
  repeat match type of H with
    | (if String.eqb ?c ?x then _ else _) = _ =>
        destruct (String.eqb c x); [try discriminate H|]
    end;
  try match type of H with
    | (if ?b then _ else _) = _ =>
        let E := fresh "Eq" in destruct b eqn:E; try discriminate H
    end.
  - destruct (regexMatch reName (trim s)); [discriminate H|].
    injection H as <-. exists (trim s). auto.
  - destruct (regexMatch reString (trim s)); [discriminate H|].
    injection H as <-. exists (trim s). auto.
  - exfalso. destruct (trim s) as [|a s'] eqn:Et; [discriminate E0|].
    simpl in Eq. apply digit_char in Eq.
    destruct (regexMatch reNumber (String a s')) eqn:Em; [discriminate H|].
    now apply reNumber_matches in Em.
  - destruct (regexMatch reIdent (trim s)); [discriminate H|].
    destruct (regexMatch reSpace (trim s)) eqn:Es.
    + exfalso. unfold regexMatch, reSpace in Es. simpl in Es.
      destruct (trim s) as [|a s'] eqn:Et; [discriminate Es|].
      apply trim_head in Et. now rewrite Et in Es.
    + injection H as <-. exists (trim s). auto.
Qed.

Lemma tokenizeLoop_S fuel toks s :
  tokenizeLoop (S fuel) toks s =
  match firstToken (trim s) with
  | Return t =>
      if TokenType.eqb (type t) TokenType.END then Return (toks ++ [t])
      else tokenizeLoop fuel (toks ++ [t])
             (slice (String.length (text t)) (trim s))
  | Throw msg => Throw msg
  | TypeError => TypeError
  | Diverge => Diverge
  end.
Proof. reflexivity. Qed.

(** The tokens before the END marker: none of them is an END marker,
    and their texts are not empty and occur in the input. *)
Definition tokensOf (input : string) (body : list Token) : Prop :=
  Forall (fun t => type t <> TokenType.END /\ text t <> ""
                   /\ substringOf (text t) input) body.

Lemma tokenizeLoop_Return input : forall fuel acc s toks,
  substringOf s input ->
  tokenizeLoop fuel acc s = Return toks ->
  exists body,
    toks = acc ++ body ++ [mkToken TokenType.END ""] /\ tokensOf input body.
Proof.
  induction fuel as [|fuel IH]; intros acc s toks Hs; [discriminate|].
  rewrite tokenizeLoop_S.
  destruct (firstToken (trim s)) as [t| | |] eqn:Et; try discriminate.
  pose proof (substringOf_trans _ _ _ (trim_substringOf s) Hs) as Htrim.
  apply firstToken_Return in Et. destruct Et as [[_ ->]|(Hty & Htx & rest & Hrest)].
  - simpl. intros [= <-]. exists []. split; [reflexivity|constructor].
  - apply type_eqb_neq in Hty. rewrite Hty. intro H.
    rewrite Hrest, slice_append in H. apply IH in H.
    + destruct H as (body & -> & Hbody). exists (t :: body). split.
      * now rewrite <- app_assoc.
      * constructor; [|exact Hbody]. split; [now apply type_eqb_neq|].
        split; [exact Htx|].
        apply (substringOf_trans _ (trim s)); [|exact Htrim].
        rewrite Hrest. apply substringOf_prefix.
    + apply (substringOf_trans _ (trim s)); [|exact Htrim].
      rewrite Hrest. apply substringOf_suffix.
Qed.

Lemma tokenizeLoop_Throw : forall fuel acc s msg,
  tokenizeLoop fuel acc s = Throw msg -> raised Lexical msg.
Proof.
  induction fuel as [|fuel IH]; intros acc s msg; [discriminate|].
  rewrite tokenizeLoop_S.
  destruct (firstToken (trim s)) as [t| | |] eqn:Et; try discriminate.
  - destruct (TokenType.eqb (type t) TokenType.END); [discriminate|]. apply IH.
  - intros [= <-]. now apply firstToken_Throw in Et.
Qed.

Lemma tokenizeLoop_completes : forall fuel acc s,
  String.length s < fuel ->
  tokenizeLoop fuel acc s <> TypeError /\ tokenizeLoop fuel acc s <> Diverge.
Proof.
  induction fuel as [|fuel IH]; intros acc s Hlen; [lia|].
  rewrite tokenizeLoop_S.
  destruct (firstToken (trim s)) as [t| | |] eqn:Et;
    try (split; discriminate);
    try (destruct (firstToken_completes (trim s)); contradiction).
  apply firstToken_Return in Et. destruct Et as [[_ ->]|(Hty & Htx & rest & Hrest)].
  - simpl. split; discriminate.
  - apply type_eqb_neq in Hty. rewrite Hty. apply IH.
    pose proof (substringOf_length _ _ (trim_substringOf s)) as Hl.
    rewrite Hrest, slice_append. rewrite Hrest, length_append in Hl.
    destruct (text t); [contradiction|]. simpl in Hl. lia.
Qed.

(** [tokenize] returns or throws a lexical error. *)
Lemma tokenize_completes s :
  (exists toks, tokenize s = Return toks)
  \/ (exists msg, tokenize s = Throw msg /\ raised Lexical msg).
Proof.
  unfold tokenize.
  destruct (tokenizeLoop_completes (S (String.length s)) [] s) as [H1 H2];
    [lia|].
  destruct (tokenizeLoop _ _ _) as [toks|msg| |] eqn:E; try contradiction.
  - left. now exists toks.
  - right. exists msg. split; [reflexivity|]. now apply tokenizeLoop_Throw in E.
Qed.

Lemma tokenize_Return s toks :
  tokenize s = Return toks ->
  exists body, toks = body ++ [mkToken TokenType.END ""] /\ tokensOf s body.
Proof.
  intro H. apply (tokenizeLoop_Return s) in H; [exact H|apply substringOf_refl].
Qed.

(** ** Shapes of token sequences *)

Definition noEND (c : list Token) : Prop :=
  Forall (fun t => type t <> TokenType.END) c.

Definition hasEND (toks : list Token) : Prop :=
  Exists (fun t => type t = TokenType.END) toks.

Inductive Bracket : Set := Round | Square.

(** The brackets left open after [toks], starting with [opened] open;
    [None] when a closing token does not match. *)
Fixpoint nesting (opened : list Bracket) (toks : list Token)
  : option (list Bracket) :=
  match toks with
  | [] => Some opened
  | t :: rest =>
      match type t with
      | TokenType.LParen => nesting (Round :: opened) rest
      | TokenType.LBracket => nesting (Square :: opened) rest
      | TokenType.RParen =>
          match opened with
          | Round :: o => nesting o rest
          | _ => None
          end
      | TokenType.RBracket =>
          match opened with
          | Square :: o => nesting o rest
          | _ => None
          end
      | _ => nesting opened rest
      end
  end.

(** Parentheses and brackets are matched and well nested. *)
Definition balanced (toks : list Token) : bool :=
  match nesting [] toks with
  | Some [] => true
  | _ => false
  end.

(** [c] closes what it opens, whatever was open before. *)
Definition framed (c : list Token) : Prop :=
  forall opened, nesting opened c = Some opened.

(** The types of the tokens an operand can end with. *)
Definition canEndOperand (ty : TokenType.t) : bool :=
  match ty with
  | TokenType.Indent | TokenType.Name | TokenType.String | TokenType.Number
  | TokenType.RParen | TokenType.RBracket => true
  | _ => false
  end.

Definition endsOperand (c : list Token) : Prop :=
  exists pre t, c = pre ++ [t] /\ canEndOperand (type t) = true.

Lemma nesting_app (c1 c2 : list Token) : forall opened,
  nesting opened (c1 ++ c2) =
  match nesting opened c1 with
  | Some o => nesting o c2
  | None => None
  end.
Proof.
  induction c1 as [|t c1 IH]; intro opened; simpl; [reflexivity|].
  destruct (type t); try apply IH; destruct opened as [|[] o]; auto.
Qed.

Lemma framed_nil : framed [].
Proof. intro; reflexivity. Qed.

Lemma framed_app c1 c2 : framed c1 -> framed c2 -> framed (c1 ++ c2).
Proof. intros H1 H2 o. rewrite nesting_app, H1. apply H2. Qed.

Definition neutral (ty : TokenType.t) : bool :=
  match ty with
  | TokenType.LParen | TokenType.RParen
  | TokenType.LBracket | TokenType.RBracket => false
  | _ => true
  end.

Lemma framed_neutral t : neutral (type t) = true -> framed [t].
Proof. intros H o. simpl. destruct (type t); try discriminate; reflexivity. Qed.

Lemma framed_round l c r :
  type l = TokenType.LParen -> type r = TokenType.RParen ->
  framed c -> framed (l :: c ++ [r]).
Proof.
  intros Hl Hr Hc o. simpl. rewrite Hl, nesting_app, Hc. simpl. now rewrite Hr.
Qed.

Lemma framed_square l c r :
  type l = TokenType.LBracket -> type r = TokenType.RBracket ->
  framed c -> framed (l :: c ++ [r]).
Proof.
  intros Hl Hr Hc o. simpl. rewrite Hl, nesting_app, Hc. simpl. now rewrite Hr.
Qed.

Lemma noEND_app c1 c2 : noEND (c1 ++ c2) <-> noEND c1 /\ noEND c2.
Proof. apply Forall_app. Qed.

Lemma noEND_one t : type t <> TokenType.END -> noEND [t].
Proof. intro H. repeat constructor. exact H. Qed.

Lemma noEND_cons t c : type t <> TokenType.END -> noEND c -> noEND (t :: c).
Proof. intros H Hc. constructor; assumption. Qed.

Lemma hasEND_app_noEND c toks : noEND c -> hasEND (c ++ toks) -> hasEND toks.
Proof.
  intros Hc H. apply Exists_app in H. destruct H as [H|H]; [|exact H].
  exfalso. induction H as [t l H|t l H IH].
  - inversion Hc; subst. contradiction.
  - inversion Hc; subst. auto.
Qed.

Lemma noEND_not_hasEND c : noEND c -> ~ hasEND c.
Proof.
  intros Hc H. rewrite <- (app_nil_r c) in H.
  apply hasEND_app_noEND in H; [inversion H|exact Hc].
Qed.

Lemma endsOperand_app c1 c2 : endsOperand c2 -> endsOperand (c1 ++ c2).
Proof.
  intros (pre & t & -> & H). exists (c1 ++ pre), t. now rewrite app_assoc.
Qed.

Lemma endsOperand_one t : canEndOperand (type t) = true -> endsOperand [t].
Proof. intro H. now exists [], t. Qed.

(** ** The errors the parser raises *)

Definition parseError (msg : string) : Prop :=
  raised EndOfStream msg \/ raised UnexpectedToken msg
  \/ raised UnsupportedFunction msg.

(** ** A specification of parsers

    [good D c0 P toks r]: [r] is an acceptable result of a parser run on
    the stack [toks] after the tokens [c0] were taken.  A result comes
    with the tokens [c] that were taken, on which [P] holds; an error has
    one of the messages above; a [TypeError] needs a stack without the END
    token; fuel runs out under [D] only. *)

Section Good.
Context {A : Type}.
Implicit Types (P : A -> list Token -> list Token -> Prop).

Definition good (D : Prop) (c0 : list Token) P (toks : list Token)
  (r : Completion (A * list Token)) : Prop :=
  match r with
  | Return (a, rest) => exists c, toks = c ++ rest /\ P a (c0 ++ c) rest
  | Throw msg => parseError msg
  | TypeError => ~ hasEND (c0 ++ toks)
  | Diverge => D
  end.

Lemma good_ret D c0 P toks a : P a c0 toks -> good D c0 P toks (ret a toks).
Proof. intro H. exists []. now rewrite app_nil_r. Qed.

Lemma good_throw D c0 P toks msg :
  parseError msg -> good D c0 P toks (throw msg toks).
Proof. trivial. Qed.

Lemma good_unexpected D c0 P toks tok :
  good D c0 P toks (throwUnexpected tok toks).
Proof.
  unfold throwUnexpected, good, unexpectedTokenError.
  destruct (TokenType.eqb (type tok) TokenType.END) eqn:E.
  - now left.
  - right; left. exists tok, toks. split; [now apply type_eqb_neq|reflexivity].
Qed.

Lemma good_diverge (D : Prop) c0 P toks : D -> good D c0 P toks (diverge toks).
Proof. trivial. Qed.

End Good.

Section GoodBind.
Context {A B : Type}.
Implicit Types (P : B -> list Token -> list Token -> Prop).

Lemma good_pop D c0 P toks (k : Token -> Parser B) :
  noEND c0 ->
  (forall tok rest, toks = tok :: rest -> good D (c0 ++ [tok]) P rest (k tok rest)) ->
  good D c0 P toks (bind pop k toks).
Proof.
  intros H0 Hk. unfold bind, pop. destruct toks as [|tok rest].
  - simpl. rewrite app_nil_r. now apply noEND_not_hasEND.
  - specialize (Hk tok rest eq_refl). unfold good in *.
    destruct (k tok rest) as [[b rest']| | |]; auto.
    + destruct Hk as (c & -> & HP). exists (tok :: c). split; [reflexivity|].
      now rewrite <- app_assoc in HP.
    + now rewrite <- app_assoc in Hk.
Qed.

Lemma good_peek D c0 P toks (k : Token -> Parser B) :
  noEND c0 ->
  (forall tok rest, toks = tok :: rest -> good D c0 P toks (k tok toks)) ->
  good D c0 P toks (bind peek k toks).
Proof.
  intros H0 Hk. unfold bind, peek. destruct toks as [|tok rest].
  - simpl. rewrite app_nil_r. now apply noEND_not_hasEND.
  - apply (Hk tok rest eq_refl).
Qed.

Lemma good_consume D c0 P toks ty (k : Token -> Parser B) :
  noEND c0 ->
  (forall tok rest, toks = tok :: rest -> type tok = ty ->
     good D (c0 ++ [tok]) P rest (k tok rest)) ->
  good D c0 P toks (bind (consume ty) k toks).
Proof.
  intros H0 Hk. unfold bind, consume, bind, pop. destruct toks as [|tok rest].
  - simpl. rewrite app_nil_r. now apply noEND_not_hasEND.
  - destruct (TokenType.eqb (type tok) ty) eqn:E; simpl.
    + apply type_eqb_eq in E. specialize (Hk tok rest eq_refl E). unfold good in *.
      unfold ret. destruct (k tok rest) as [[b rest']| | |]; auto.
      * destruct Hk as (c & -> & HP). exists (tok :: c). split; [reflexivity|].
        now rewrite <- app_assoc in HP.
      * now rewrite <- app_assoc in Hk.
    + apply (@good_unexpected B D c0 (fun _ _ _ => True) rest tok).
Qed.

Lemma good_call (D1 D : Prop) c0
  (P1 : A -> list Token -> list Token -> Prop) P toks
  (p : Parser A) (k : A -> Parser B) :
  good D1 [] P1 toks (p toks) ->
  (D1 -> D) ->
  noEND c0 ->
  (forall a c rest, toks = c ++ rest -> P1 a c rest ->
     good D (c0 ++ c) P rest (k a rest)) ->
  good D c0 P toks (bind p k toks).
Proof.
  intros Hp HD H0 Hk. unfold bind. unfold good in Hp.
  destruct (p toks) as [[a rest]| | |]; simpl; auto.
  - destruct Hp as (c & -> & HP). specialize (Hk a c rest eq_refl HP).
    unfold good in *. destruct (k a rest) as [[b rest']| | |]; auto.
    + destruct Hk as (c' & -> & HP'). exists (c ++ c'). split.
      * now rewrite app_assoc.
      * now rewrite app_assoc.
    + now rewrite <- app_assoc in Hk.
  - intro H. apply Hp. simpl. eapply hasEND_app_noEND; eauto.
Qed.

End GoodBind.

Lemma good_tail {A} (D1 D : Prop) c0
  (P1 P : A -> list Token -> list Token -> Prop) toks r :
  good D1 [] P1 toks r ->
  (D1 -> D) ->
  noEND c0 ->
  (forall a c rest, toks = c ++ rest -> P1 a c rest -> P a (c0 ++ c) rest) ->
  good D c0 P toks r.
Proof.
  intros Hp HD H0 HP. unfold good in *. destruct r as [[a rest]| | |]; auto.
  - destruct Hp as (c & -> & H). exists c. split; auto.
  - intro H. apply Hp. simpl. eapply hasEND_app_noEND; eauto.
Qed.

(** ** One step of each parsing function *)

Lemma parseExpression_S fuel e :
  parseExpression (S fuel) e =
  parseExpressionBody (fun js => parseExpressionLoop fuel js e) e.
Proof. reflexivity. Qed.

Lemma parseExpressionLoop_S fuel js e :
  parseExpressionLoop (S fuel) js e =
  parseExpressionIter (parseExpression fuel) (parseList fuel)
    (parseFunctionCall fuel) (fun js' => parseExpressionLoop fuel js' e) js e.
Proof. reflexivity. Qed.

Lemma parseList_S fuel e :
  parseList (S fuel) e = parseListBody (fun js => parseListLoop fuel js e) e.
Proof. reflexivity. Qed.

Lemma parseListLoop_S fuel js e :
  parseListLoop (S fuel) js e =
  parseListIter (parseExpression fuel) (fun js' => parseListLoop fuel js' e)
    js e.
Proof. reflexivity. Qed.

Lemma parseFunctionCall_S fuel name :
  parseFunctionCall (S fuel) name =
  parseFunctionCallBody (parseExpression fuel) (parseCountForms fuel) name.
Proof. reflexivity. Qed.

Lemma parseCountForms_S fuel :
  parseCountForms (S fuel) = parseCountFormsBody (parseExpression fuel).
Proof. reflexivity. Qed.

(** ** What the parsing functions guarantee *)

Definition endsAt (ok : TokenType.t -> bool) (rest : list Token) : Prop :=
  exists next rest', rest = next :: rest' /\ ok (type next) = true.

Definition exprPost (e : TokenType.t) (_ : string) (c rest : list Token) : Prop :=
  noEND c /\ framed c /\ endsOperand c /\ endsAt (isEnd e) rest.

Definition listPost (_ : string) (c rest : list Token) : Prop :=
  noEND c /\ framed c /\ endsAt isClosing rest.

Definition callPost (_ : string) (c rest : list Token) : Prop :=
  noEND c /\ framed c /\ endsOperand c.

Definition listEnd (e : TokenType.t) : bool :=
  TokenType.eqb e TokenType.Comma || TokenType.eqb e TokenType.RBracket.

Lemma listEnd_validEnd e : listEnd e = true -> validEnd e = true.
Proof. destruct e; simpl; intro H; try discriminate H; reflexivity. Qed.

Ltac noend :=
  repeat match goal with
    | |- noEND (_ ++ _) => apply noEND_app; split
    | |- noEND [] => constructor
    | |- noEND [_] => apply noEND_one; congruence
    | |- noEND (_ :: _) => apply noEND_cons; [congruence|]
    | |- noEND _ => assumption
    end.

Ltac isframed :=
  repeat match goal with
    | |- framed (_ ++ _) => apply framed_app
    | |- framed [] => apply framed_nil
    | H : type ?t = _ |- framed [?t] => apply framed_neutral; rewrite H; reflexivity
    | |- framed _ => assumption
    end.

Ltac lens := cbn [List.length] in *; rewrite ?length_app in *; cbn [List.length] in *; lia.

Lemma good_afterOperand (D : Prop) c0 loop e js toks :
  noEND c0 -> framed c0 -> endsOperand c0 ->
  (forall js' op rest, toks = op :: rest ->
     type op <> TokenType.END -> neutral (type op) = true ->
     good D (c0 ++ [op]) (exprPost e) rest (loop js' rest)) ->
  good D c0 (exprPost e) toks (afterOperand loop e js toks).
Proof.
  intros H0 Hf Ho Hloop. unfold afterOperand.
  apply good_peek; [exact H0|]. intros next rest ->.
  destruct (isEnd e (type next)) eqn:Eend.
  - apply good_ret. repeat split; auto. now exists next, rest.
  - apply good_pop; [exact H0|]. intros op rest' [= <- <-].
    destruct (isPassThrough (type next)) eqn:Ep.
    + apply Hloop; auto; destruct (type next); try discriminate; reflexivity.
    + destruct (type next) eqn:Ety; try apply good_unexpected;
        try (apply Hloop; auto; rewrite Ety; (discriminate || reflexivity)).
      destruct (String.eqb (text next) "AND");
        [apply Hloop; auto; rewrite Ety; (discriminate || reflexivity)|].
      destruct (String.eqb (text next) "OR");
        [apply Hloop; auto; rewrite Ety; (discriminate || reflexivity)|].
      apply good_unexpected.
Qed.

Definition ParserGood (fuel : nat) : Prop :=
  (forall e toks, validEnd e = true ->
     good (fuel < 4 * List.length toks + 2) [] (exprPost e) toks
       (parseExpression fuel e toks))
  /\ (forall js e toks,
        good (fuel < 4 * List.length toks + 1) [] (exprPost e) toks
          (parseExpressionLoop fuel js e toks))
  /\ (forall e toks, listEnd e = true ->
        good (fuel < 4 * List.length toks + 4) [] listPost toks
          (parseList fuel e toks))
  /\ (forall js e toks, validEnd e = true ->
        good (fuel < 4 * List.length toks + 3) [] listPost toks
          (parseListLoop fuel js e toks))
  /\ (forall name toks,
        good (fuel < 4 * List.length toks + 4) [] callPost toks
          (parseFunctionCall fuel name toks))
  /\ (forall toks,
        good (fuel < 4 * List.length toks + 3) [] callPost toks
          (parseCountForms fuel toks)).

Lemma exprPost_frame e c0 js c rest :
  noEND c0 -> framed c0 -> exprPost e js c rest -> exprPost e js (c0 ++ c) rest.
Proof.
  intros H0 Hf (Hn & Hc & Ho & He). repeat split; auto.
  - noend.
  - isframed.
  - now apply endsOperand_app.
Qed.

Lemma parser_good : forall fuel, ParserGood fuel.
Proof.
  induction fuel as [|fuel (IHe & IHl & IHL & IHLL & IHf & IHc)].
  { repeat split; intros; apply good_diverge; lia. }
  assert (Hloop : forall (D : Prop) e c0 js op rest,
             noEND c0 -> framed c0 ->
             type op <> TokenType.END -> neutral (type op) = true ->
             (fuel < 4 * List.length rest + 1 -> D) ->
             good D (c0 ++ [op]) (exprPost e) rest
               (parseExpressionLoop fuel js e rest)).
  { intros D e c0 js op rest H0 Hf Hop Hneu HD.
    eapply good_tail; [apply (IHl js e rest)|exact HD|noend|].
    intros a c rest' _ HP. apply exprPost_frame; auto.
    - noend.
    - apply framed_app; [assumption|now apply framed_neutral]. }
  repeat split.
  - (* parseExpression *)
    intros e toks Hv. rewrite parseExpression_S. unfold parseExpressionBody. rewrite Hv. simpl negb. cbv iota.
    eapply good_tail; [apply (IHl "" e toks)|lia|noend|].
    intros a c rest _ HP. exact HP.
  - (* parseExpressionLoop *)
    intros js e toks. rewrite parseExpressionLoop_S. unfold parseExpressionIter.
    apply good_pop; [noend|]. intros tok rest ->. simpl app.
    assert (Hafter : forall c0 js' rest',
               noEND c0 -> framed c0 -> endsOperand c0 ->
               List.length rest' < List.length (tok :: rest) ->
               good (S fuel < 4 * List.length (tok :: rest) + 1) c0
                 (exprPost e) rest'
                 (afterOperand (fun js0 => parseExpressionLoop fuel js0 e) e
                    js' rest')).
    { intros c0 js' rest' H0 Hf Ho Hlen.
      apply good_afterOperand; auto.
      intros js0 op rest0 -> Hop Hneu. apply Hloop; auto. intro. lens. }
    destruct (type tok) eqn:Ety; try apply good_unexpected.
    + (* LParen *)
      eapply good_call; [apply (IHe TokenType.RParen rest eq_refl)|lens|noend|].
      intros inner c rest1 -> (Hn & Hf & Ho & He).
      apply good_consume; [noend|]. intros rp rest2 -> Erp. simpl app.
      apply Hafter.
      * noend.
      * now apply framed_round.
      * apply (endsOperand_app (tok :: c) [rp]), endsOperand_one.
        now rewrite Erp.
      * lens.
    + (* LBracket *)
      eapply good_call; [apply (IHL TokenType.RBracket rest eq_refl)|lens|noend|].
      intros inner c rest1 -> (Hn & Hf & He).
      apply good_consume; [noend|]. intros rp rest2 -> Erp. simpl app.
      apply Hafter.
      * noend.
      * now apply framed_square.
      * apply (endsOperand_app (tok :: c) [rp]), endsOperand_one.
        now rewrite Erp.
      * lens.
    + (* Plus *)
      apply good_peek; [noend|]. intros next rest1 ->.
      destruct (_ || _).
      * apply good_pop; [noend|]. intros; apply good_unexpected.
      * apply (Hloop _ e [] (js +++ text tok) tok (next :: rest1)); auto.
        -- constructor.
        -- apply framed_nil.
        -- congruence.
        -- now rewrite Ety.
        -- lens.
    + (* Minus *)
      apply good_peek; [noend|]. intros next rest1 ->.
      destruct (_ || _).
      * apply good_pop; [noend|]. intros; apply good_unexpected.
      * apply (Hloop _ e [] (js +++ text tok) tok (next :: rest1)); auto.
        -- constructor.
        -- apply framed_nil.
        -- congruence.
        -- now rewrite Ety.
        -- lens.
    + (* Not *)
      apply (Hloop _ e [] (js +++ "!") tok rest); auto.
      * constructor.
      * apply framed_nil.
      * congruence.
      * now rewrite Ety.
      * lens.
    + (* String *)
      apply Hafter; [noend|isframed|apply endsOperand_one; now rewrite Ety|lens].
    + (* Number *)
      apply Hafter; [noend|isframed|apply endsOperand_one; now rewrite Ety|lens].
    + (* Indent *)
      apply good_peek; [noend|]. intros next rest1 ->.
      destruct (TokenType.eqb (type next) TokenType.LParen).
      * eapply good_call; [apply (IHf (text tok) (next :: rest1))|lens|noend|].
        intros call c rest2 Hc (Hn & Hf & Ho).
        apply Hafter.
        -- noend.
        -- isframed.
        -- now apply endsOperand_app.
        -- rewrite Hc. lens.
      * apply Hafter; [noend|isframed|apply endsOperand_one; now rewrite Ety|lens].
    + (* Name *)
      apply Hafter; [noend|isframed|apply endsOperand_one; now rewrite Ety|lens].
  - (* parseList *)
    intros e toks He. rewrite parseList_S. unfold parseListBody.
    replace (negb (TokenType.eqb e TokenType.Comma)
             && negb (TokenType.eqb e TokenType.RBracket)) with false
      by (destruct e; try discriminate He; reflexivity).
    apply good_peek; [noend|]. intros next rest ->.
    destruct (isClosing (type next)) eqn:Ec.
    + apply good_ret. split; [|split]; [noend|isframed|now exists next, rest].
    + eapply good_tail;
        [apply (IHLL "" e (next :: rest) (listEnd_validEnd e He))|lia|noend|].
      intros a c rest' _ HP. exact HP.
  - (* parseListLoop *)
    intros js e toks He. rewrite parseListLoop_S. unfold parseListIter.
    eapply good_call; [apply (IHe e toks He)|lia|noend|].
    intros item c rest -> (Hn & Hf & Ho & Hend). simpl app.
    apply good_peek; [noend|]. intros next rest1 ->.
    destruct (isClosing (type next)) eqn:Ec.
    + apply good_ret. split; [|split]; [noend|isframed|now exists next, rest1].
    + apply good_consume; [noend|]. intros comma rest2 [= <- <-] Ecomma.
      eapply good_tail; [apply (IHLL (_ +++ ", ") e rest1 He)|lens|noend|].
      intros a c' rest' _ (Hn' & Hf' & Hend'). split; [|split]; auto.
      * noend.
      * isframed.
  - (* parseFunctionCall *)
    intros name toks. rewrite parseFunctionCall_S. unfold parseFunctionCallBody.
    destruct (String.eqb name "INCLUDES");
      [|destruct (String.eqb name "PERCENT");
        [|destruct (String.eqb name "COUNTFORMS")]].
    + apply good_consume; [noend|]. intros lp rest -> Elp. simpl app.
      eapply good_call; [apply (IHe TokenType.Comma rest eq_refl)|lens|noend|].
      intros a c1 rest1 -> (Hn1 & Hf1 & Ho1 & _).
      apply good_consume; [noend|]. intros comma rest2 -> Ecomma.
      eapply good_call; [apply (IHe TokenType.Comma rest2 eq_refl)|lens|noend|].
      intros b c2 rest3 -> (Hn2 & Hf2 & Ho2 & _).
      apply good_consume; [noend|]. intros rp rest4 -> Erp.
      apply good_ret. split; [|split].
      * noend.
      * match goal with
        | |- framed ?l =>
            replace l with (lp :: (c1 ++ comma :: c2) ++ [rp])
              by (cbn [app]; rewrite <- ?app_assoc; reflexivity)
        end.
        apply framed_round; auto. apply framed_app; auto.
        apply (framed_app [comma]); auto. apply framed_neutral.
        now rewrite Ecomma.
      * apply endsOperand_app, endsOperand_one. now rewrite Erp.
    + apply good_consume; [noend|]. intros lp rest -> Elp. simpl app.
      eapply good_call; [apply (IHe TokenType.Comma rest eq_refl)|lens|noend|].
      intros a c1 rest1 -> (Hn1 & Hf1 & Ho1 & _).
      apply good_consume; [noend|]. intros comma rest2 -> Ecomma.
      eapply good_call; [apply (IHe TokenType.Comma rest2 eq_refl)|lens|noend|].
      intros b c2 rest3 -> (Hn2 & Hf2 & Ho2 & _).
      apply good_consume; [noend|]. intros rp rest4 -> Erp.
      apply good_ret. split; [|split].
      * noend.
      * match goal with
        | |- framed ?l =>
            replace l with (lp :: (c1 ++ comma :: c2) ++ [rp])
              by (cbn [app]; rewrite <- ?app_assoc; reflexivity)
        end.
        apply framed_round; auto. apply framed_app; auto.
        apply (framed_app [comma]); auto. apply framed_neutral.
        now rewrite Ecomma.
      * apply endsOperand_app, endsOperand_one. now rewrite Erp.
    + eapply good_tail; [apply (IHc toks)|lia|noend|].
      intros a c rest _ HP. exact HP.
    + apply good_throw. right; right. now exists name.
  - (* parseCountForms *)
    intros toks. rewrite parseCountForms_S. unfold parseCountFormsBody.
    apply good_consume; [noend|]. intros lp rest -> Elp. simpl app.
    apply good_consume; [noend|]. intros form rest1 -> Eform.
    apply good_pop; [noend|]. intros tok rest2 ->.
    destruct (type tok) eqn:Ety; try apply good_unexpected.
    + apply good_ret. split; [|split].
      * noend.
      * match goal with
        | |- framed ?l =>
            replace l with (lp :: [form] ++ [tok])
              by (cbn [app]; rewrite <- ?app_assoc; reflexivity)
        end.
        apply framed_round; auto. apply framed_neutral. now rewrite Eform.
      * apply endsOperand_app, endsOperand_one. now rewrite Ety.
    + eapply good_call; [apply (IHe TokenType.Comma rest2 eq_refl)|lens|noend|].
      intros b c2 rest3 -> (Hn2 & Hf2 & Ho2 & _).
      apply good_consume; [noend|]. intros rp rest4 -> Erp.
      apply good_ret. split; [|split].
      * noend.
      * match goal with
        | |- framed ?l =>
            replace l with (lp :: (form :: tok :: c2) ++ [rp])
              by (cbn [app]; rewrite <- ?app_assoc; reflexivity)
        end.
        apply framed_round; auto.
        apply (framed_app [form]); [apply framed_neutral; now rewrite Eform|].
        apply (framed_app [tok]); [apply framed_neutral; now rewrite Ety|auto].
      * apply endsOperand_app, endsOperand_one. now rewrite Erp.
Qed.

(** ** More fuel changes nothing *)

Definition le {A} (r r' : Completion A) : Prop := r = Diverge \/ r = r'.

Definition ple {A} (p p' : Parser A) : Prop :=
  forall toks, le (p toks) (p' toks).

Lemma ple_refl {A} (p : Parser A) : ple p p.
Proof. intro; now right. Qed.

Lemma ple_diverge {A} (p : Parser A) : ple diverge p.
Proof. intro; now left. Qed.

Lemma ple_trans {A} (p q r : Parser A) : ple p q -> ple q r -> ple p r.
Proof.
  intros H1 H2 toks. destruct (H1 toks) as [E|E]; [now left|].
  rewrite E. apply H2.
Qed.

Lemma ple_bind {A B} (p p' : Parser A) (k k' : A -> Parser B) :
  ple p p' -> (forall a, ple (k a) (k' a)) -> ple (bind p k) (bind p' k').
Proof.
  intros Hp Hk toks. unfold bind. destruct (Hp toks) as [E|E].
  - rewrite E. now left.
  - rewrite E. destruct (p' toks) as [[a rest]| | |]; try now right.
    apply Hk.
Qed.

Lemma ple_afterOperand loop loop' e js :
  (forall js', ple (loop js') (loop' js')) ->
  ple (afterOperand loop e js) (afterOperand loop' e js).
Proof.
  intro H. unfold afterOperand.
  apply ple_bind; [apply ple_refl|]. intro next.
  destruct (isEnd e (type next)); [apply ple_refl|].
  apply ple_bind; [apply ple_refl|]. intro tok.
  destruct (isPassThrough (type tok)); [apply H|].
  destruct (type tok); try apply ple_refl; try apply H.
  destruct (String.eqb (text tok) "AND"); [apply H|].
  destruct (String.eqb (text tok) "OR"); [apply H|apply ple_refl].
Qed.

Ltac ple_step :=
  first
    [ assumption
    | apply ple_refl
    | apply ple_afterOperand; intro
    | apply ple_bind; [|intro]
    | match goal with
      | H : forall _, ple _ _ |- _ => apply H
      | H : forall _ _, ple _ _ |- _ => apply H
      | |- ple (match ?x with _ => _ end) _ => destruct x
      end ].

Lemma fuel_step : forall fuel,
  (forall e, ple (parseExpression fuel e) (parseExpression (S fuel) e))
  /\ (forall js e, ple (parseExpressionLoop fuel js e)
                     (parseExpressionLoop (S fuel) js e))
  /\ (forall e, ple (parseList fuel e) (parseList (S fuel) e))
  /\ (forall js e, ple (parseListLoop fuel js e) (parseListLoop (S fuel) js e))
  /\ (forall name, ple (parseFunctionCall fuel name)
                     (parseFunctionCall (S fuel) name))
  /\ ple (parseCountForms fuel) (parseCountForms (S fuel)).
Proof.
  induction fuel as [|fuel (IHe & IHl & IHL & IHLL & IHf & IHc)].
  { repeat split; intros; apply ple_diverge. }
  repeat split; intros.
  - rewrite !parseExpression_S. unfold parseExpressionBody. repeat ple_step.
  - rewrite !parseExpressionLoop_S. unfold parseExpressionIter. repeat ple_step.
  - rewrite !parseList_S. unfold parseListBody. repeat ple_step.
  - rewrite !parseListLoop_S. unfold parseListIter. repeat ple_step.
  - rewrite !parseFunctionCall_S. unfold parseFunctionCallBody. repeat ple_step.
  - rewrite !parseCountForms_S. unfold parseCountFormsBody. repeat ple_step.
Qed.

Lemma le_stable {A} (r r' : Completion A) : le r r' -> r <> Diverge -> r' = r.
Proof. intros [E|E] H; congruence. Qed.

Lemma more_fuel {A} (f : nat -> Parser A) :
  (forall n, ple (f n) (f (S n))) ->
  forall fuel fuel' toks,
    fuel <= fuel' -> f fuel toks <> Diverge -> f fuel' toks = f fuel toks.
Proof.
  intros Hf fuel fuel' toks Hle H.
  induction Hle as [|m Hm IH]; [reflexivity|].
  rewrite <- IH in *. apply le_stable; [apply Hf|exact H].
Qed.

Lemma parseExpression_more fuel fuel' e toks :
  fuel <= fuel' -> parseExpression fuel e toks <> Diverge ->
  parseExpression fuel' e toks = parseExpression fuel e toks.
Proof.
  apply (more_fuel (fun n => parseExpression n e)). intro; apply fuel_step.
Qed.

Lemma parseExpressionLoop_more fuel fuel' js e toks :
  fuel <= fuel' -> parseExpressionLoop fuel js e toks <> Diverge ->
  parseExpressionLoop fuel' js e toks = parseExpressionLoop fuel js e toks.
Proof.
  apply (more_fuel (fun n => parseExpressionLoop n js e)).
  intro; apply fuel_step.
Qed.

Lemma parseList_more fuel fuel' e toks :
  fuel <= fuel' -> parseList fuel e toks <> Diverge ->
  parseList fuel' e toks = parseList fuel e toks.
Proof.
  apply (more_fuel (fun n => parseList n e)). intro; apply fuel_step.
Qed.

Lemma parseListLoop_more fuel fuel' js e toks :
  fuel <= fuel' -> parseListLoop fuel js e toks <> Diverge ->
  parseListLoop fuel' js e toks = parseListLoop fuel js e toks.
Proof.
  apply (more_fuel (fun n => parseListLoop n js e)). intro; apply fuel_step.
Qed.

Lemma parseFunctionCall_more fuel fuel' name toks :
  fuel <= fuel' -> parseFunctionCall fuel name toks <> Diverge ->
  parseFunctionCall fuel' name toks = parseFunctionCall fuel name toks.
Proof.
  apply (more_fuel (fun n => parseFunctionCall n name)). intro; apply fuel_step.
Qed.

Lemma parseCountForms_more fuel fuel' toks :
  fuel <= fuel' -> parseCountForms fuel toks <> Diverge ->
  parseCountForms fuel' toks = parseCountForms fuel toks.
Proof.
  apply (more_fuel (fun n => parseCountForms n)). intro; apply fuel_step.
Qed.

(** ** The fuel of the [run] functions is enough *)

Lemma good_terminates {A} (D : Prop) c0 P toks (r : Completion (A * list Token)) :
  good D c0 P toks r -> ~ D -> r <> Diverge.
Proof. intros H HD ->. exact (HD H). Qed.

Lemma runExpression_terminates e toks : runExpression e toks <> Diverge.
Proof.
  unfold runExpression. destruct (validEnd e) eqn:Hv.
  - eapply good_terminates; [now apply parser_good|lia].
  - replace (4 * List.length toks + 2) with (S (4 * List.length toks + 1)) by lia.
    rewrite parseExpression_S. unfold parseExpressionBody. now rewrite Hv.
Qed.

Lemma runExpressionLoop_terminates js e toks :
  runExpressionLoop js e toks <> Diverge.
Proof. eapply good_terminates; [apply parser_good|lia]. Qed.

Lemma runList_terminates e toks : runList e toks <> Diverge.
Proof.
  unfold runList. destruct (listEnd e) eqn:Hv.
  - eapply good_terminates; [now apply parser_good|lia].
  - replace (4 * List.length toks + 4) with (S (4 * List.length toks + 3)) by lia.
    rewrite parseList_S. unfold parseListBody.
    now destruct e; try discriminate Hv.
Qed.

Lemma runListLoop_terminates js e toks : runListLoop js e toks <> Diverge.
Proof.
  unfold runListLoop. destruct (validEnd e) eqn:Hv.
  - eapply good_terminates; [now apply parser_good|lia].
  - replace (4 * List.length toks + 3)
      with (S (S (4 * List.length toks + 1))) by lia.
    rewrite parseListLoop_S. unfold parseListIter.
    rewrite parseExpression_S. unfold parseExpressionBody, bind.
    now rewrite Hv.
Qed.

Lemma runFunctionCall_terminates name toks : runFunctionCall name toks <> Diverge.
Proof. eapply good_terminates; [apply parser_good|lia]. Qed.

Lemma runCountForms_terminates toks : runCountForms toks <> Diverge.
Proof. eapply good_terminates; [apply parser_good|lia]. Qed.

Lemma parseExpression_enough fuel e toks :
  4 * List.length toks + 2 <= fuel ->
  parseExpression fuel e toks = runExpression e toks.
Proof.
  intro H. apply parseExpression_more; [exact H|apply runExpression_terminates].
Qed.

Lemma parseExpressionLoop_enough fuel js e toks :
  4 * List.length toks + 1 <= fuel ->
  parseExpressionLoop fuel js e toks = runExpressionLoop js e toks.
Proof.
  intro H. apply parseExpressionLoop_more;
    [exact H|apply runExpressionLoop_terminates].
Qed.

Lemma parseList_enough fuel e toks :
  4 * List.length toks + 4 <= fuel -> parseList fuel e toks = runList e toks.
Proof. intro H. apply parseList_more; [exact H|apply runList_terminates]. Qed.

Lemma parseListLoop_enough fuel js e toks :
  4 * List.length toks + 3 <= fuel ->
  parseListLoop fuel js e toks = runListLoop js e toks.
Proof.
  intro H. apply parseListLoop_more; [exact H|apply runListLoop_terminates].
Qed.

Lemma parseFunctionCall_enough fuel name toks :
  4 * List.length toks + 4 <= fuel ->
  parseFunctionCall fuel name toks = runFunctionCall name toks.
Proof.
  intro H. apply parseFunctionCall_more;
    [exact H|apply runFunctionCall_terminates].
Qed.

Lemma parseCountForms_enough fuel toks :
  4 * List.length toks + 3 <= fuel ->
  parseCountForms fuel toks = runCountForms toks.
Proof.
  intro H. apply parseCountForms_more; [exact H|apply runCountForms_terminates].
Qed.

(** ** The equations of the [run] functions *)

(** A parser that never makes the stack longer. *)
Definition shrinks {A} (p : Parser A) : Prop :=
  forall toks a rest, p toks = Return (a, rest) ->
    List.length rest <= List.length toks.

(** Two parsers that do the same on the stacks of at most [n] tokens. *)
Definition agree {A} (n : nat) (p p' : Parser A) : Prop :=
  forall toks, List.length toks <= n -> p toks = p' toks.

Lemma agree_refl {A} n (p : Parser A) : agree n p p.
Proof. intros toks _; reflexivity. Qed.

Lemma shrinks_pop : shrinks pop.
Proof. intros [|t toks] a rest [= <- <-]. simpl; lia. Qed.

Lemma shrinks_peek : shrinks peek.
Proof. intros [|t toks] a rest [= <- <-]. simpl; lia. Qed.

Lemma shrinks_consume ty : shrinks (consume ty).
Proof.
  intros [|t toks] a rest; unfold consume, bind, pop; [discriminate|].
  destruct (negb _); [discriminate|]. intros [= <- <-]. simpl; lia.
Qed.

Lemma shrinks_good {A} D P toks (r : Completion (A * list Token)) a rest :
  good D [] P toks r -> r = Return (a, rest) ->
  List.length rest <= List.length toks.
Proof.
  intros H ->. destruct H as (c & -> & _). rewrite length_app. lia.
Qed.

Lemma shrinks_runExpression e : shrinks (runExpression e).
Proof.
  intros toks a rest H. destruct (validEnd e) eqn:Hv.
  - eapply shrinks_good; [|exact H]. now apply parser_good.
  - unfold runExpression in H.
    replace (4 * List.length toks + 2) with (S (4 * List.length toks + 1)) in H
      by lia.
    rewrite parseExpression_S in H. unfold parseExpressionBody in H.
    rewrite Hv in H. discriminate H.
Qed.

Lemma shrinks_runList e : shrinks (runList e).
Proof.
  intros toks a rest H. destruct (listEnd e) eqn:Hv.
  - eapply shrinks_good; [|exact H]. now apply parser_good.
  - unfold runList in H.
    replace (4 * List.length toks + 4) with (S (4 * List.length toks + 3)) in H
      by lia.
    rewrite parseList_S in H. unfold parseListBody in H.
    destruct e; try discriminate Hv; discriminate H.
Qed.

Lemma shrinks_runFunctionCall name : shrinks (runFunctionCall name).
Proof. intros toks a rest H. eapply shrinks_good; [|exact H]. apply parser_good. Qed.

Lemma agree_bind {A B} n (p p' : Parser A) (k k' : A -> Parser B) :
  shrinks p' -> agree n p p' -> (forall a, agree n (k a) (k' a)) ->
  agree n (bind p k) (bind p' k').
Proof.
  intros Hs Hp Hk toks Hn. unfold bind. rewrite (Hp toks Hn).
  destruct (p' toks) as [[a rest]| | |] eqn:E; try reflexivity.
  apply Hk. apply Hs in E. lia.
Qed.

Lemma agree_afterOperand n loop loop' e js :
  (forall js', agree n (loop js') (loop' js')) ->
  agree n (afterOperand loop e js) (afterOperand loop' e js).
Proof.
  intro H. unfold afterOperand.
  apply agree_bind; [apply shrinks_peek|apply agree_refl|]. intro next.
  destruct (isEnd e (type next)); [apply agree_refl|].
  apply agree_bind; [apply shrinks_pop|apply agree_refl|]. intro tok.
  destruct (isPassThrough (type tok)); [apply H|].
  destruct (type tok); try apply agree_refl; try apply H.
  destruct (String.eqb (text tok) "AND"); [apply H|].
  destruct (String.eqb (text tok) "OR"); [apply H|apply agree_refl].
Qed.

Ltac agree_step :=
  first
    [ assumption
    | apply agree_refl
    | apply agree_afterOperand; intro
    | apply agree_bind;
      [first [ apply shrinks_pop | apply shrinks_peek | apply shrinks_consume
             | apply shrinks_runExpression | apply shrinks_runList
             | apply shrinks_runFunctionCall ]| |intro]
    | match goal with
      | H : forall _, agree _ _ _ |- _ => apply H
      | H : forall _ _, agree _ _ _ |- _ => apply H
      | |- agree _ (match ?x with _ => _ end) _ => destruct x
      end ].

Section RunEquations.

Variable toks : list Token.

Let n := List.length toks.
Let fuel := 4 * n + 4.

Local Lemma agree_expression e :
  agree n (parseExpression fuel e) (runExpression e).
Proof. intros t Ht. apply parseExpression_enough. subst fuel; lia. Qed.

Local Lemma agree_expressionLoop js e :
  agree n (parseExpressionLoop fuel js e) (runExpressionLoop js e).
Proof. intros t Ht. apply parseExpressionLoop_enough. subst fuel; lia. Qed.

Local Lemma agree_list e : agree n (parseList fuel e) (runList e).
Proof. intros t Ht. apply parseList_enough. subst fuel; lia. Qed.

Local Lemma agree_listLoop js e :
  agree n (parseListLoop fuel js e) (runListLoop js e).
Proof. intros t Ht. apply parseListLoop_enough. subst fuel; lia. Qed.

Local Lemma agree_functionCall name :
  agree n (parseFunctionCall fuel name) (runFunctionCall name).
Proof. intros t Ht. apply parseFunctionCall_enough. subst fuel; lia. Qed.

Local Lemma agree_countForms : agree n (parseCountForms fuel) runCountForms.
Proof. intros t Ht. apply parseCountForms_enough. subst fuel; lia. Qed.

Lemma runExpression_eq e :
  runExpression e toks =
  parseExpressionBody (fun js => runExpressionLoop js e) e toks.
Proof.
  rewrite <- (parseExpression_enough (S fuel)) by (subst fuel n; lia).
  rewrite parseExpression_S.
  pose proof agree_expressionLoop as Hl.
  assert (G : agree n (parseExpressionBody (fun js => parseExpressionLoop fuel js e) e)
                (parseExpressionBody (fun js => runExpressionLoop js e) e)).
  { unfold parseExpressionBody. repeat agree_step. }
  apply G. subst n; lia.
Qed.

Lemma runExpressionLoop_eq js e :
  runExpressionLoop js e toks =
  parseExpressionIter runExpression runList runFunctionCall
    (fun js' => runExpressionLoop js' e) js e toks.
Proof.
  rewrite <- (parseExpressionLoop_enough (S fuel)) by (subst fuel n; lia).
  rewrite parseExpressionLoop_S.
  pose proof agree_expressionLoop as Hl. pose proof agree_expression as He.
  pose proof agree_list as HL. pose proof agree_functionCall as Hf.
  assert (G : agree n
                (parseExpressionIter (parseExpression fuel) (parseList fuel)
                   (parseFunctionCall fuel)
                   (fun js' => parseExpressionLoop fuel js' e) js e)
                (parseExpressionIter runExpression runList runFunctionCall
                   (fun js' => runExpressionLoop js' e) js e)).
  { unfold parseExpressionIter. repeat agree_step. }
  apply G. subst n; lia.
Qed.

Lemma runList_eq e :
  runList e toks = parseListBody (fun js => runListLoop js e) e toks.
Proof.
  rewrite <- (parseList_enough (S fuel)) by (subst fuel n; lia).
  rewrite parseList_S.
  pose proof agree_listLoop as Hl.
  assert (G : agree n (parseListBody (fun js => parseListLoop fuel js e) e)
                (parseListBody (fun js => runListLoop js e) e)).
  { unfold parseListBody. repeat agree_step. }
  apply G. subst n; lia.
Qed.

Lemma runListLoop_eq js e :
  runListLoop js e toks =
  parseListIter runExpression (fun js' => runListLoop js' e) js e toks.
Proof.
  rewrite <- (parseListLoop_enough (S fuel)) by (subst fuel n; lia).
  rewrite parseListLoop_S.
  pose proof agree_listLoop as Hl. pose proof agree_expression as He.
  assert (G : agree n
                (parseListIter (parseExpression fuel)
                   (fun js' => parseListLoop fuel js' e) js e)
                (parseListIter runExpression (fun js' => runListLoop js' e) js e)).
  { unfold parseListIter. repeat agree_step. }
  apply G. subst n; lia.
Qed.

Lemma runFunctionCall_eq name :
  runFunctionCall name toks =
  parseFunctionCallBody runExpression runCountForms name toks.
Proof.
  rewrite <- (parseFunctionCall_enough (S fuel)) by (subst fuel n; lia).
  rewrite parseFunctionCall_S.
  pose proof agree_countForms as Hc. pose proof agree_expression as He.
  assert (G : agree n
                (parseFunctionCallBody (parseExpression fuel)
                   (parseCountForms fuel) name)
                (parseFunctionCallBody runExpression runCountForms name)).
  { unfold parseFunctionCallBody. repeat agree_step. }
  apply G. subst n; lia.
Qed.

Lemma runCountForms_eq :
  runCountForms toks = parseCountFormsBody runExpression toks.
Proof.
  rewrite <- (parseCountForms_enough (S fuel)) by (subst fuel n; lia).
  rewrite parseCountForms_S.
  pose proof agree_expression as He.
  assert (G : agree n (parseCountFormsBody (parseExpression fuel))
                (parseCountFormsBody runExpression)).
  { unfold parseCountFormsBody. repeat agree_step. }
  apply G. subst n; lia.
Qed.

End RunEquations.

(** ** The loop of [parseExpression], token by token *)

Section Operands.

Variables (js : string) (e : TokenType.t) (tok : Token) (rest : list Token).

Let continue := fun js' => runExpressionLoop js' e.

Lemma runExpressionLoop_cons :
  runExpressionLoop js e (tok :: rest) =
  match type tok with
  | TokenType.Indent =>
      (next <- peek ;;
       if TokenType.eqb (type next) TokenType.LParen then
         call <- runFunctionCall (text tok) ;;
         afterOperand continue e (js +++ call)
       else afterOperand continue e (js +++ text tok)) rest
  | TokenType.Name =>
      afterOperand continue e (js +++ "**" +++ Js.slice 1 (text tok) +++ "**")
        rest
  | TokenType.String | TokenType.Number =>
      afterOperand continue e (js +++ text tok) rest
  | TokenType.Plus | TokenType.Minus =>
      (next <- peek ;;
       if TokenType.eqb (type next) TokenType.Plus
          || TokenType.eqb (type next) TokenType.Minus
       then (bad <- pop ;; throwUnexpected bad)
       else continue (js +++ text tok)) rest
  | TokenType.Not => continue (js +++ "!") rest
  | TokenType.LParen =>
      (inner <- runExpression TokenType.RParen ;;
       consume TokenType.RParen ;;;
       afterOperand continue e (js +++ "(" +++ inner +++ ")")) rest
  | TokenType.LBracket =>
      (inner <- runList TokenType.RBracket ;;
       consume TokenType.RBracket ;;;
       afterOperand continue e (js +++ "[" +++ inner +++ "]")) rest
  | _ => Throw (unexpectedTokenError tok rest)
  end.
Proof.
  rewrite runExpressionLoop_eq. unfold parseExpressionIter.
  unfold bind at 1. unfold pop. cbv beta iota.
  destruct (type tok); reflexivity.
Qed.

End Operands.

(** [parseExpression] with a valid [expectedEnd] is its loop. *)
Lemma runExpression_loop e toks :
  validEnd e = true -> runExpression e toks = runExpressionLoop "" e toks.
Proof.
  intro H. rewrite runExpression_eq. unfold parseExpressionBody. now rewrite H.
Qed.

(** ** Tokenizing, token by token *)

Lemma tokenizeLoop_END fuel acc :
  tokenizeLoop (S fuel) acc "" = Return (acc ++ [mkToken TokenType.END ""]).
Proof. reflexivity. Qed.

Lemma tokenizeLoop_cons fuel acc s t :
  allChars (fun c => negb (isSpace c)) s = true ->
  firstToken s = Return t -> type t <> TokenType.END ->
  tokenizeLoop (S fuel) acc s =
  tokenizeLoop fuel (acc ++ [t]) (slice (String.length (text t)) s).
Proof.
  intros Hs Ht Hty. rewrite tokenizeLoop_S, (trim_nospace s Hs), Ht.
  apply type_eqb_neq in Hty. now rewrite Hty.
Qed.

Definition finish (r : Completion (string * list Token)) : Completion string :=
  match r with
  | Return (js, _) => Return js
  | Throw msg => Throw msg
  | TypeError => TypeError
  | Diverge => Diverge
  end.

Lemma indicatorToJs_tokens formula toks :
  tokenize formula = Return toks ->
  indicatorToJs formula = finish (runExpression TokenType.END toks).
Proof.
  intro H. unfold indicatorToJs. rewrite H. unfold stackOf, reverse.
  rewrite rev_involutive. reflexivity.
Qed.

(** ** Logical negations *)

Fixpoint bangs (n : nat) : string :=
  match n with
  | 0 => ""
  | S n' => String "!" (bangs n')
  end.

Lemma firstToken_bang c s :
  Ascii.eqb c "=" = false ->
  firstToken (String "!" (String c s)) = Return (mkToken TokenType.Not "!").
Proof.
  intro H. unfold firstToken. cbn [String.length Nat.eqb charAt].
  cbn. now rewrite H.
Qed.

Lemma tokenize_bangs : forall n fuel acc,
  n + 2 <= fuel ->
  tokenizeLoop fuel acc (bangs n +++ "x") =
  Return (acc ++ repeat (mkToken TokenType.Not "!") n
            ++ [mkToken TokenType.Indent "x"; mkToken TokenType.END ""]).
Proof.
  induction n as [|n IH]; intros fuel acc Hf.
  - destruct fuel as [|[|fuel]]; try lia. simpl app.
    rewrite (tokenizeLoop_cons _ _ "x" (mkToken TokenType.Indent "x"));
      [|reflexivity|reflexivity|discriminate].
    cbn [text String.length slice]. rewrite tokenizeLoop_END.
    now rewrite <- app_assoc.
  - destruct fuel as [|fuel]; [lia|]. cbn [bangs append].
    rewrite (tokenizeLoop_cons _ _ _ (mkToken TokenType.Not "!")).
    + cbn [text String.length slice]. rewrite IH by lia.
      rewrite <- app_assoc. reflexivity.
    + clear. change (allChars (fun c => negb (isSpace c)) (bangs (S n) +++ "x") = true).
      induction (S n) as [|m IHm]; [reflexivity|]. simpl. exact IHm.
    + destruct n; apply firstToken_bang; reflexivity.
    + discriminate.
Qed.

Lemma runExpressionLoop_bangs e rest : forall n js,
  runExpressionLoop js e (repeat (mkToken TokenType.Not "!") n ++ rest) =
  runExpressionLoop (js +++ bangs n) e rest.
Proof.
  induction n as [|n IH]; intro js; cbn [repeat app bangs].
  - now rewrite append_nil_r.
  - rewrite runExpressionLoop_cons. cbn [type]. rewrite IH.
    now rewrite append_assoc.
Qed.

(** C10: any number of consecutive logical negations is accepted at an
    operand position.  A [!] token adds ["!"] to the output and the loop
    goes on to the next token, whatever it is; so [!!x], and [x] after any
    number of [!], translates to itself. *)
Theorem negations_accepted :
  (forall js e tok rest, type tok = TokenType.Not ->
     runExpressionLoop js e (tok :: rest) = runExpressionLoop (js +++ "!") e rest)
  /\ (forall n, indicatorToJs (bangs n +++ "x") = Return (bangs n +++ "x")).
Proof.
  split.
  - intros js e tok rest H. rewrite runExpressionLoop_cons. now rewrite H.
  - intro n.
    assert (Ht : tokenize (bangs n +++ "x") =
                 Return (repeat (mkToken TokenType.Not "!") n
                           ++ [mkToken TokenType.Indent "x";
                               mkToken TokenType.END ""])).
    { apply (tokenize_bangs n _ []). rewrite length_append.
      assert (String.length (bangs n) = n) as ->
        by (clear; induction n; simpl; congruence).
      simpl. lia. }
    rewrite (indicatorToJs_tokens _ _ Ht). rewrite runExpression_loop by reflexivity.
    rewrite runExpressionLoop_bangs, runExpressionLoop_cons. reflexivity.
Qed.

Lemma negations_accepted_witness :
  runExpressionLoop "" TokenType.END
    [mkToken TokenType.Not "!"; mkToken TokenType.Not "!";
     mkToken TokenType.Indent "x"; mkToken TokenType.END ""]
  = runExpressionLoop "!" TokenType.END
      [mkToken TokenType.Not "!"; mkToken TokenType.Indent "x";
       mkToken TokenType.END ""]
  /\ indicatorToJs "!!x" = Return "!!x".
Proof.
  split.
  - apply (proj1 negations_accepted). reflexivity.
  - apply (proj2 negations_accepted 2).
Defined.



(** ** Unary signs *)

Definition isSign (ty : TokenType.t) : bool :=
  TokenType.eqb ty TokenType.Plus || TokenType.eqb ty TokenType.Minus.

(** C8: two consecutive sign tokens at an operand position are a syntax
    error, the unexpected-token error on the second sign; a single sign
    followed by another token goes to the output as it is and the loop
    goes on.  So [--1] and [+-x] are errors and [-1] and [+x] translate
    to themselves. *)
Theorem consecutive_signs_rejected :
  (forall js e tok next rest,
     isSign (type tok) = true -> isSign (type next) = true ->
     runExpressionLoop js e (tok :: next :: rest)
     = Throw ("unexpected token at the start of: " +++ printTokens (next :: rest)))
  /\ (forall js e tok next rest,
        isSign (type tok) = true -> isSign (type next) = false ->
        runExpressionLoop js e (tok :: next :: rest)
        = runExpressionLoop (js +++ text tok) e (next :: rest))
  /\ indicatorToJs "--1" = Throw "unexpected token at the start of:  - 1"
  /\ indicatorToJs "+-x" = Throw "unexpected token at the start of:  - x"
  /\ indicatorToJs "-1" = Return "-1"
  /\ indicatorToJs "+x" = Return "+x".
Proof.
  split; [|split; [|repeat split; reflexivity]].
  - intros js e tok next rest Htok Hnext. rewrite runExpressionLoop_cons.
    unfold isSign in *.
    assert (E : unexpectedTokenError next rest =
                "unexpected token at the start of: " +++ printTokens (next :: rest)).
    { unfold unexpectedTokenError.
      destruct (type next); try discriminate Hnext; reflexivity. }
    rewrite <- E.
    destruct (type tok); try discriminate Htok;
      unfold bind, peek, pop, throwUnexpected; now rewrite Hnext.
  - intros js e tok next rest Htok Hnext. rewrite runExpressionLoop_cons.
    unfold isSign in *.
    destruct (type tok); try discriminate Htok;
      unfold bind, peek; now rewrite Hnext.
Qed.

Lemma consecutive_signs_rejected_witness :
  runExpressionLoop "" TokenType.END
    [mkToken TokenType.Minus "-"; mkToken TokenType.Plus "+";
     mkToken TokenType.Number "1"; mkToken TokenType.END ""]
  = Throw "unexpected token at the start of:  + 1"
  /\ runExpressionLoop "" TokenType.END
       [mkToken TokenType.Minus "-"; mkToken TokenType.Number "1";
        mkToken TokenType.END ""]
     = runExpressionLoop "-" TokenType.END
         [mkToken TokenType.Number "1"; mkToken TokenType.END ""].
Proof.
  split.
  - apply (proj1 consecutive_signs_rejected
             "" TokenType.END (mkToken TokenType.Minus "-")
             (mkToken TokenType.Plus "+")); reflexivity.
  - apply (proj1 (proj2 consecutive_signs_rejected)
             "" TokenType.END (mkToken TokenType.Minus "-")
             (mkToken TokenType.Number "1")); reflexivity.
Defined.



(** ** Binary operators *)

(** What the formula language says a binary operator becomes: the
    arithmetic and relational operators keep their text, [AND], [OR], [=]
    and [!=] become the operators of JavaScript; all of them are set
    between two spaces.  [None] for a token that is no binary operator. *)
Definition expectedOperator (tok : Token) : option string :=
  match type tok with
  | TokenType.Plus | TokenType.Minus | TokenType.Mul | TokenType.Div
  | TokenType.Less | TokenType.LessOrEq
  | TokenType.Greater | TokenType.GreaterOrEq => Some (" " +++ text tok +++ " ")
  | TokenType.Equal => Some " === "
  | TokenType.NotEqual => Some " !== "
  | TokenType.Indent =>
      if String.eqb (text tok) "AND" then Some " && "
      else if String.eqb (text tok) "OR" then Some " || "
      else None
  | _ => None
  end.

Definition notLParen (rest : list Token) : Prop :=
  match rest with
  | t :: _ => type t <> TokenType.LParen
  | [] => True
  end.

(** The tokens [c] are an operand that translates to [out], whatever
    comes before and after it (a parenthesis after an identifier
    apart). *)
Definition operandAt (c : list Token) (out : string) : Prop :=
  forall js e rest, notLParen rest ->
    runExpressionLoop js e (c ++ rest)
    = afterOperand (fun js' => runExpressionLoop js' e) e (js +++ out) rest.

(** Operands after the first one, each with the operator before it. *)
Definition Chain : Type := list (Token * list Token * string).

Fixpoint chainTokens (chain : Chain) : list Token :=
  match chain with
  | [] => []
  | (op, c, _) :: chain' => op :: c ++ chainTokens chain'
  end.

Fixpoint chainJs (chain : Chain) : string :=
  match chain with
  | [] => ""
  | (op, _, out) :: chain' =>
      match expectedOperator op with
      | Some o => o +++ out +++ chainJs chain'
      | None => ""
      end
  end.

Definition chainOk (chain : Chain) : Prop :=
  Forall (fun '(op, c, out) => expectedOperator op <> None /\ operandAt c out)
    chain.

Lemma afterOperand_end loop e js next rest :
  isEnd e (type next) = true ->
  afterOperand loop e js (next :: rest) = Return (js, next :: rest).
Proof. intro H. unfold afterOperand, bind, peek. now rewrite H. Qed.

Lemma afterOperand_operator loop e js op rest :
  isEnd e (type op) = false ->
  afterOperand loop e js (op :: rest) =
  match expectedOperator op with
  | Some o => loop (js +++ o) rest
  | None => Throw (unexpectedTokenError op rest)
  end.
Proof.
  intro H. unfold afterOperand, bind, peek, pop, expectedOperator.
  rewrite H. destruct (type op); try reflexivity.
  cbn. destruct (String.eqb (text op) "AND"); [reflexivity|].
  destruct (String.eqb (text op) "OR"); reflexivity.
Qed.

Lemma expectedOperator_not_end e op :
  validEnd e = true -> expectedOperator op <> None ->
  isEnd e (type op) = false.
Proof.
  unfold expectedOperator. intros He H.
  destruct e; try discriminate He;
    destruct (type op); try reflexivity; contradiction.
Qed.

Lemma runExpressionLoop_chain e next rest :
  validEnd e = true -> isEnd e (type next) = true ->
  forall chain js c0 out0,
    operandAt c0 out0 -> chainOk chain ->
    runExpressionLoop js e (c0 ++ chainTokens chain ++ next :: rest)
    = Return (js +++ out0 +++ chainJs chain, next :: rest).
Proof.
  intros He Hnext. assert (Hnl : type next <> TokenType.LParen).
  { intro E. rewrite E in Hnext. now destruct e. }
  induction chain as [|[[op c] out] chain IH]; intros js c0 out0 H0 Hc.
  - cbn [chainTokens chainJs app]. rewrite H0 by exact Hnl.
    rewrite afterOperand_end by exact Hnext. now rewrite append_nil_r.
  - inversion Hc as [|x l Hx Hc2]; subst. destruct Hx as [Hop Hc1].
    cbn [chainTokens chainJs app].
    assert (Hne : isEnd e (type op) = false)
      by now apply expectedOperator_not_end.
    rewrite (H0 js e).
    + rewrite afterOperand_operator by exact Hne.
      destruct (expectedOperator op) as [o|]; [|contradiction].
      rewrite <- app_assoc. rewrite (IH _ c out Hc1 Hc2).
      now rewrite !append_assoc.
    + simpl. intro E. unfold expectedOperator in Hop. now rewrite E in Hop.
Qed.

Lemma operand_literal t :
  type t = TokenType.String \/ type t = TokenType.Number ->
  operandAt [t] (text t).
Proof.
  intros H js e rest _. cbn [app]. rewrite runExpressionLoop_cons.
  now destruct H as [-> | ->].
Qed.

Lemma operand_identifier t : type t = TokenType.Indent -> operandAt [t] (text t).
Proof.
  intros H js e rest Hr. cbn [app]. rewrite runExpressionLoop_cons, H.
  unfold bind, peek. destruct rest as [|next rest].
  - reflexivity.
  - simpl in Hr. apply type_eqb_neq in Hr. now rewrite Hr.
Qed.

Lemma operand_name t :
  type t = TokenType.Name ->
  operandAt [t] ("**" +++ slice 1 (text t) +++ "**").
Proof.
  intros H js e rest _. cbn [app]. now rewrite runExpressionLoop_cons, H.
Qed.

(** A chain between parentheses is an operand again. *)
Lemma operand_parens l r c0 out0 chain :
  type l = TokenType.LParen -> type r = TokenType.RParen ->
  operandAt c0 out0 -> chainOk chain ->
  operandAt (l :: c0 ++ chainTokens chain ++ [r])
    ("(" +++ (out0 +++ chainJs chain) +++ ")").
Proof.
  intros Hl Hr H0 Hc js e rest _. cbn [app].
  rewrite runExpressionLoop_cons, Hl. unfold bind at 1.
  rewrite runExpression_loop by reflexivity.
  rewrite <- !app_assoc. cbn [app].
  rewrite (runExpressionLoop_chain TokenType.RParen r rest eq_refl
             ltac:(now rewrite Hr) chain "" c0 out0 H0 Hc).
  unfold bind, consume, bind, pop. rewrite Hr. reflexivity.
Qed.

(** Chains of atoms: literals, identifiers and field names. *)

Definition isAtom (ty : TokenType.t) : bool :=
  match ty with
  | TokenType.String | TokenType.Number | TokenType.Indent | TokenType.Name =>
      true
  | _ => false
  end.

Definition atomJs (t : Token) : string :=
  match type t with
  | TokenType.Name => "**" +++ slice 1 (text t) +++ "**"
  | _ => text t
  end.

Definition isOperator (op : Token) : bool :=
  match expectedOperator op with
  | Some _ => true
  | None => false
  end.

Fixpoint flatTokens (ops : list (Token * Token)) : list Token :=
  match ops with
  | [] => []
  | (op, a) :: ops' => op :: a :: flatTokens ops'
  end.

Fixpoint flatJs (ops : list (Token * Token)) : string :=
  match ops with
  | [] => ""
  | (op, a) :: ops' =>
      match expectedOperator op with
      | Some o => o +++ atomJs a +++ flatJs ops'
      | None => ""
      end
  end.

Definition flatOk (ops : list (Token * Token)) : bool :=
  forallb (fun '(op, a) => isOperator op && isAtom (type a)) ops.

Lemma operand_atom t : isAtom (type t) = true -> operandAt [t] (atomJs t).
Proof.
  unfold atomJs. destruct (type t) eqn:E; try discriminate; intros _.
  - apply operand_literal; auto.
  - apply operand_literal; auto.
  - now apply operand_identifier.
  - now apply operand_name.
Qed.

Definition chainOf (ops : list (Token * Token)) : Chain :=
  map (fun '(op, a) => (op, [a], atomJs a)) ops.

Lemma chainOf_tokens ops : chainTokens (chainOf ops) = flatTokens ops.
Proof. induction ops as [|[op a] ops IH]; simpl; congruence. Qed.

Lemma chainOf_js ops : chainJs (chainOf ops) = flatJs ops.
Proof.
  induction ops as [|[op a] ops IH]; simpl; [reflexivity|].
  now rewrite IH.
Qed.

Lemma chainOf_ok ops : flatOk ops = true -> chainOk (chainOf ops).
Proof.
  induction ops as [|[op a] ops IH]; simpl; intro H; [constructor|].
  apply andb_true_iff in H. destruct H as [H Hops].
  apply andb_true_iff in H. destruct H as [Hop Ha].
  constructor; [|now apply IH]. split.
  - unfold isOperator in Hop. now destruct (expectedOperator op).
  - now apply operand_atom.
Qed.

(** C1: at an operator position, that is after an operand that the next
    token does not end, the arithmetic and relational operators go to the
    output with their own text, [AND], [OR], [=] and [!=] become [&&],
    [||], [===] and [!==], and any other token is the unexpected-token
    error; the loop goes on after the operator.  So a chain of atoms and
    operators translates to the translated atoms and operators in the
    order of the formula. *)
Theorem operators_in_order :
  (forall loop e js op rest,
     isEnd e (type op) = false ->
     afterOperand loop e js (op :: rest) =
     match expectedOperator op with
     | Some o => loop (js +++ o) rest
     | None => Throw (unexpectedTokenError op rest)
     end)
  /\ (forall e next rest a0 ops,
        validEnd e = true -> isEnd e (type next) = true ->
        isAtom (type a0) = true -> flatOk ops = true ->
        runExpression e (a0 :: flatTokens ops ++ next :: rest)
        = Return (atomJs a0 +++ flatJs ops, next :: rest))
  /\ indicatorToJs "1 + 2 - 3 * 4 / 5 < 6 <= 7 > 8 >= 9"
     = Return "1 + 2 - 3 * 4 / 5 < 6 <= 7 > 8 >= 9"
  /\ indicatorToJs "a = b" = Return "a === b"
  /\ indicatorToJs "a != b" = Return "a !== b"
  /\ indicatorToJs "a AND b" = Return "a && b"
  /\ indicatorToJs "a OR b" = Return "a || b".
Proof.
  split; [|split; [|repeat split; reflexivity]].
  - intros. now apply afterOperand_operator.
  - intros e next rest a0 ops He Hnext H0 Hops.
    rewrite runExpression_loop by exact He.
    rewrite <- chainOf_tokens, <- chainOf_js.
    change (a0 :: chainTokens (chainOf ops) ++ next :: rest)
      with ([a0] ++ chainTokens (chainOf ops) ++ next :: rest).
    now rewrite (runExpressionLoop_chain e next rest He Hnext (chainOf ops) ""
                   [a0] (atomJs a0) (operand_atom a0 H0) (chainOf_ok ops Hops)).
Qed.

Lemma operators_in_order_witness :
  afterOperand (fun js => ret js) TokenType.END "1"
    [mkToken TokenType.Less "<"; mkToken TokenType.Number "2"]
  = Return ("1 < ", [mkToken TokenType.Number "2"])
  /\ runExpression TokenType.END
       [mkToken TokenType.Number "1"; mkToken TokenType.Plus "+";
        mkToken TokenType.Name "$a"; mkToken TokenType.Indent "AND";
        mkToken TokenType.Indent "b"; mkToken TokenType.END ""]
     = Return ("1 + **a** && b", [mkToken TokenType.END ""]).
Proof.
  split.
  - apply (proj1 operators_in_order (fun js => ret js) TokenType.END "1"
             (mkToken TokenType.Less "<") [mkToken TokenType.Number "2"]).
    reflexivity.
  - apply (proj1 (proj2 operators_in_order) TokenType.END
             (mkToken TokenType.END "") [] (mkToken TokenType.Number "1")
             [(mkToken TokenType.Plus "+", mkToken TokenType.Name "$a");
              (mkToken TokenType.Indent "AND", mkToken TokenType.Indent "b")]);
      reflexivity.
Defined.



(** ** Field references *)

Lemma firstToken_field name :
  isIdentifier name = true ->
  firstToken ("$" +++ name) = Return (mkToken TokenType.Name ("$" +++ name)).
Proof.
  intro H. destruct name as [|c r]; [discriminate H|].
  simpl in H. apply andb_true_iff in H. destruct H as [Hc Hr].
  unfold firstToken. cbn [append String.length Nat.eqb charAt].
  cbn [String.eqb Ascii.eqb Bool.eqb ascii_of_byte].
  assert (Hm : regexMatch reName (String "$" (String c r))
               = Some (String "$" (String c r))).
  { unfold regexMatch, reName.
    change (run (Seq (Chr "$") (Seq (Cls isIdentStart) (Star (Cls isWord))))
              (String "$" (String c r)) Some)
      with (if isIdentStart c then run (Star (Cls isWord)) r Some else None).
    rewrite Hc, (run_Star_all isWord r "" Some Hr eq_refl).
    cbn [String.length]. rewrite Nat.sub_0_r.
    apply f_equal. exact (take_all (String "$" (String c r))). }
  cbn. cbn in Hm. now rewrite Hm.
Qed.

Lemma tokenize_field name :
  isIdentifier name = true ->
  tokenize ("$" +++ name)
  = Return [mkToken TokenType.Name ("$" +++ name); mkToken TokenType.END ""].
Proof.
  intro H. unfold tokenize. cbn [append String.length].
  rewrite (tokenizeLoop_cons _ _ _ (mkToken TokenType.Name ("$" +++ name))).
  - cbn [text]. change ("$" +++ name) with (String "$" name).
    now rewrite slice_all.
  - destruct name as [|c r]; [discriminate H|].
    simpl in H. apply andb_true_iff in H. destruct H as [Hc Hr].
    cbn [allChars]. rewrite (word_not_space c (identStart_word c Hc)).
    apply (allChars_impl isWord); [|exact Hr].
    intros a Ha. now rewrite (word_not_space a Ha).
  - now apply firstToken_field.
  - discriminate.
Qed.

(** C2: a field name at an operand position goes to the output without
    its [$] and between [**] and [**]; so, for every identifier [name],
    the formula [$name] translates to [**name**]. *)
Theorem field_reference_placeholder :
  (forall js e tok rest, type tok = TokenType.Name ->
     runExpressionLoop js e (tok :: rest)
     = afterOperand (fun js' => runExpressionLoop js' e) e
         (js +++ "**" +++ slice 1 (text tok) +++ "**") rest)
  /\ (forall name, isIdentifier name = true ->
        indicatorToJs ("$" +++ name) = Return ("**" +++ name +++ "**")).
Proof.
  split.
  - intros js e tok rest H. now rewrite runExpressionLoop_cons, H.
  - intros name H. rewrite (indicatorToJs_tokens _ _ (tokenize_field name H)).
    rewrite runExpression_loop by reflexivity.
    rewrite runExpressionLoop_cons. reflexivity.
Qed.

Lemma field_reference_placeholder_witness :
  runExpressionLoop "" TokenType.END
    [mkToken TokenType.Name "$age"; mkToken TokenType.END ""]
  = afterOperand (fun js' => runExpressionLoop js' TokenType.END) TokenType.END
      "**age**" [mkToken TokenType.END ""]
  /\ indicatorToJs "$age" = Return "**age**".
Proof.
  split.
  - apply (proj1 field_reference_placeholder "" TokenType.END
             (mkToken TokenType.Name "$age")). reflexivity.
  - apply (proj2 field_reference_placeholder "age"). reflexivity.
Defined.

(** ** Function calls *)

Lemma consume_cons ty tok rest :
  consume ty (tok :: rest) =
  if TokenType.eqb (type tok) ty then Return (tok, rest)
  else Throw (unexpectedTokenError tok rest).
Proof.
  unfold consume, bind, pop, throwUnexpected, ret.
  now destruct (TokenType.eqb (type tok) ty).
Qed.

Lemma consume_Return ty toks tok rest :
  consume ty toks = Return (tok, rest) -> toks = tok :: rest /\ type tok = ty.
Proof.
  destruct toks as [|t toks]; [discriminate|]. rewrite consume_cons.
  destruct (TokenType.eqb (type t) ty) eqn:E; [|discriminate].
  intros [= <- <-]. split; [reflexivity|now apply type_eqb_eq].
Qed.

Lemma bind_Return {A B} (p : Parser A) (k : A -> Parser B) toks b rest :
  bind p k toks = Return (b, rest) ->
  exists a mid, p toks = Return (a, mid) /\ k a mid = Return (b, rest).
Proof.
  unfold bind. destruct (p toks) as [[a mid]| | |]; try discriminate.
  intro H. now exists a, mid.
Qed.

(** C3: [COUNTFORMS(Form)] translates to [countOccurrences(Form, [])] and
    [COUNTFORMS(Form, cond)] to [countConditionalOccurrences(Form, [], `c`)]
    where [c], between backquotes, is the translation of [cond]. *)
Theorem countforms_translation :
  (forall lp form rp rest,
     type lp = TokenType.LParen -> type form = TokenType.Indent ->
     type rp = TokenType.RParen ->
     runFunctionCall "COUNTFORMS" (lp :: form :: rp :: rest)
     = Return ("countOccurrences(" +++ text form +++ ", [])", rest))
  /\ (forall lp form comma cond condJs rp rest,
        type lp = TokenType.LParen -> type form = TokenType.Indent ->
        type comma = TokenType.Comma -> type rp = TokenType.RParen ->
        runExpression TokenType.Comma cond = Return (condJs, rp :: rest) ->
        runFunctionCall "COUNTFORMS" (lp :: form :: comma :: cond)
        = Return ("countConditionalOccurrences(" +++ text form +++ ", [], `"
                  +++ condJs +++ "`)", rest))
  /\ indicatorToJs "COUNTFORMS(Visit)" = Return "countOccurrences(Visit, [])"
  /\ indicatorToJs "COUNTFORMS(Visit, $age >= 18)"
     = Return "countConditionalOccurrences(Visit, [], `**age** >= 18`)".
Proof.
  split; [|split; [|split; reflexivity]].
  - intros lp form rp rest Hlp Hform Hrp.
    rewrite runFunctionCall_eq. unfold parseFunctionCallBody.
    cbn [String.eqb Ascii.eqb Bool.eqb]. cbv iota.
    rewrite runCountForms_eq. unfold parseCountFormsBody.
    unfold bind at 1. rewrite consume_cons, Hlp. cbn [TokenType.eqb TokenType.code Nat.eqb].
    unfold bind at 1. rewrite consume_cons, Hform. cbn [TokenType.eqb TokenType.code Nat.eqb].
    unfold bind, pop. now rewrite Hrp.
  - intros lp form comma cond condJs rp rest Hlp Hform Hcomma Hrp Hcond.
    rewrite runFunctionCall_eq. unfold parseFunctionCallBody.
    cbn [String.eqb Ascii.eqb Bool.eqb]. cbv iota.
    rewrite runCountForms_eq. unfold parseCountFormsBody.
    unfold bind at 1. rewrite consume_cons, Hlp. cbn [TokenType.eqb TokenType.code Nat.eqb].
    unfold bind at 1. rewrite consume_cons, Hform. cbn [TokenType.eqb TokenType.code Nat.eqb].
    unfold bind at 1. unfold pop. rewrite Hcomma.
    unfold bind at 1. rewrite Hcond.
    unfold bind. rewrite consume_cons, Hrp. reflexivity.
Qed.

Lemma countforms_translation_witness :
  runFunctionCall "COUNTFORMS"
    [mkToken TokenType.LParen "("; mkToken TokenType.Indent "Visit";
     mkToken TokenType.RParen ")"; mkToken TokenType.END ""]
  = Return ("countOccurrences(Visit, [])", [mkToken TokenType.END ""])
  /\ runFunctionCall "COUNTFORMS"
       [mkToken TokenType.LParen "("; mkToken TokenType.Indent "Visit";
        mkToken TokenType.Comma ","; mkToken TokenType.Name "$ok";
        mkToken TokenType.RParen ")"; mkToken TokenType.END ""]
     = Return ("countConditionalOccurrences(Visit, [], `**ok**`)",
               [mkToken TokenType.END ""]).
Proof.
  split.
  - apply (proj1 countforms_translation (mkToken TokenType.LParen "(")
             (mkToken TokenType.Indent "Visit") (mkToken TokenType.RParen ")"));
      reflexivity.
  - apply (proj1 (proj2 countforms_translation) (mkToken TokenType.LParen "(")
             (mkToken TokenType.Indent "Visit") (mkToken TokenType.Comma ",")
             [mkToken TokenType.Name "$ok"; mkToken TokenType.RParen ")";
              mkToken TokenType.END ""]
             "**ok**" (mkToken TokenType.RParen ")"));
      reflexivity.
Defined.



(** C4: [INCLUDES(list, item)] translates to [(L).includes(I)] with [L]
    and [I] the translations of the two arguments, and a call of
    [INCLUDES] translates only when it has this form: a parenthesis, an
    expression, a comma, an expression and the closing parenthesis. *)
Theorem includes_translation :
  (forall toks js rest,
     runFunctionCall "INCLUDES" toks = Return (js, rest) <->
     exists lp listToks listJs comma itemToks itemJs rp,
       toks = lp :: listToks /\ type lp = TokenType.LParen
       /\ runExpression TokenType.Comma listToks
          = Return (listJs, comma :: itemToks)
       /\ type comma = TokenType.Comma
       /\ runExpression TokenType.Comma itemToks = Return (itemJs, rp :: rest)
       /\ type rp = TokenType.RParen
       /\ js = "(" +++ listJs +++ ").includes(" +++ itemJs +++ ")")
  /\ indicatorToJs "INCLUDES([1, 2], $x + 1)"
     = Return "([1, 2]).includes(**x** + 1)"
  /\ indicatorToJs "INCLUDES(a)" = Throw "unexpected token at the start of: )"
  /\ indicatorToJs "INCLUDES(a, b, c)"
     = Throw "unexpected token at the start of: , c)"
  /\ indicatorToJs "INCLUDES a, b"
     = Throw "unexpected token at the start of: a, b".
Proof.
  split; [|repeat split; reflexivity].
  intros toks js rest. rewrite runFunctionCall_eq. unfold parseFunctionCallBody.
  cbn [String.eqb Ascii.eqb Bool.eqb]. cbv iota. split.
  - intro H.
    apply bind_Return in H. destruct H as (lp & t1 & H1 & H).
    apply consume_Return in H1. destruct H1 as [-> Hlp].
    apply bind_Return in H. destruct H as (listJs & t2 & H2 & H).
    apply bind_Return in H. destruct H as (comma & t3 & H3 & H).
    apply consume_Return in H3. destruct H3 as [-> Hcomma].
    apply bind_Return in H. destruct H as (itemJs & t4 & H4 & H).
    apply bind_Return in H. destruct H as (rp & t5 & H5 & H).
    apply consume_Return in H5. destruct H5 as [-> Hrp].
    injection H as <- <-.
    exists lp, t1, listJs, comma, t3, itemJs, rp.
    repeat split; auto. now rewrite !append_assoc.
  - intros (lp & t1 & listJs & comma & t3 & itemJs & rp
            & -> & Hlp & H2 & Hcomma & H4 & Hrp & ->).
    unfold bind at 1. rewrite consume_cons, Hlp. cbn [TokenType.eqb TokenType.code Nat.eqb].
    unfold bind at 1. rewrite H2.
    unfold bind at 1. rewrite consume_cons, Hcomma. cbn [TokenType.eqb TokenType.code Nat.eqb].
    unfold bind at 1. rewrite H4.
    unfold bind. rewrite consume_cons, Hrp. cbn [TokenType.eqb TokenType.code Nat.eqb].
    unfold ret. now rewrite !append_assoc.
Qed.

Lemma includes_translation_witness :
  runFunctionCall "INCLUDES"
    [mkToken TokenType.LParen "("; mkToken TokenType.Indent "xs";
     mkToken TokenType.Comma ","; mkToken TokenType.Number "3";
     mkToken TokenType.RParen ")"; mkToken TokenType.END ""]
  = Return ("(xs).includes(3)", [mkToken TokenType.END ""]).
Proof.
  apply (proj1 includes_translation).
  exists (mkToken TokenType.LParen "("),
    [mkToken TokenType.Indent "xs"; mkToken TokenType.Comma ",";
     mkToken TokenType.Number "3"; mkToken TokenType.RParen ")";
     mkToken TokenType.END ""],
    "xs", (mkToken TokenType.Comma ","),
    [mkToken TokenType.Number "3"; mkToken TokenType.RParen ")";
     mkToken TokenType.END ""],
    "3", (mkToken TokenType.RParen ")").
  repeat split; reflexivity.
Defined.

(** ** Functions that are not supported *)

Definition supported (name : string) : bool :=
  String.eqb name "INCLUDES" || String.eqb name "PERCENT"
  || String.eqb name "COUNTFORMS".

(** The [switch] of [parseFunctionCall] throws on every other name, and so
    does the translation of a formula in which an identifier at an operand
    position is followed by a parenthesis. *)
Lemma unsupported_function_throws :
  (forall name toks, supported name = false ->
     runFunctionCall name toks = Throw ("unsupported function: " +++ name))
  /\ (forall js e tok next rest,
        type tok = TokenType.Indent -> type next = TokenType.LParen ->
        supported (text tok) = false ->
        runExpressionLoop js e (tok :: next :: rest)
        = Throw ("unsupported function: " +++ text tok))
  /\ (forall formula tok next rest,
        tokenize formula = Return (tok :: next :: rest) ->
        type tok = TokenType.Indent -> type next = TokenType.LParen ->
        supported (text tok) = false ->
        indicatorToJs formula = Throw ("unsupported function: " +++ text tok)).
Proof.
  assert (H1 : forall name toks, supported name = false ->
            runFunctionCall name toks = Throw ("unsupported function: " +++ name)).
  { intros name toks H. unfold supported in H.
    apply orb_false_iff in H. destruct H as [H H3].
    apply orb_false_iff in H. destruct H as [H1 H2].
    rewrite runFunctionCall_eq. unfold parseFunctionCallBody.
    now rewrite H1, H2, H3. }
  assert (H2 : forall js e tok next rest,
            type tok = TokenType.Indent -> type next = TokenType.LParen ->
            supported (text tok) = false ->
            runExpressionLoop js e (tok :: next :: rest)
            = Throw ("unsupported function: " +++ text tok)).
  { intros js e tok next rest Htok Hnext Hs.
    rewrite runExpressionLoop_cons, Htok. unfold bind, peek.
    rewrite Hnext. cbn [TokenType.eqb TokenType.code Nat.eqb].
    now rewrite H1. }
  repeat split; auto.
  intros formula tok next rest Ht Htok Hnext Hs.
  rewrite (indicatorToJs_tokens _ _ Ht).
  rewrite runExpression_loop by reflexivity. now rewrite H2.
Qed.



(** ** The tokens of a formula *)

(** C9: when [tokenize] returns, what it returns is a sequence of tokens
    followed by one END marker; none of the tokens before the marker is
    an END marker, and the text of each is not empty and occurs in the
    input.  ([tokenize] returns or throws a lexical error: its loop
    ends.) *)
Theorem tokenize_ends_with_END : forall s,
  ((exists toks, tokenize s = Return toks)
   \/ (exists msg, tokenize s = Throw msg /\ raised Lexical msg))
  /\ (forall toks, tokenize s = Return toks ->
        exists body,
          toks = body ++ [mkToken TokenType.END ""] /\ tokensOf s body).
Proof.
  intro s. split; [apply tokenize_completes|apply tokenize_Return].
Qed.

Lemma tokenize_ends_with_END_witness :
  exists body,
    [mkToken TokenType.LParen "("; mkToken TokenType.Name "$a";
     mkToken TokenType.LessOrEq "<="; mkToken TokenType.Number "1.5e3";
     mkToken TokenType.RParen ")"; mkToken TokenType.END ""]
    = body ++ [mkToken TokenType.END ""]
    /\ tokensOf " ( $a<= 1.5e3) " body.
Proof.
  apply (proj2 (tokenize_ends_with_END " ( $a<= 1.5e3) ")). reflexivity.
Defined.

(** ** What a translation comes to *)

Lemma first_END c : forall body next rest e,
  noEND c -> noEND body -> type next = TokenType.END -> type e = TokenType.END ->
  c ++ next :: rest = body ++ [e] -> c = body /\ rest = [].
Proof.
  induction c as [|x c IH]; intros body next rest e Hc Hb Hn He H.
  - destruct body as [|y body]; simpl in H.
    + injection H as _ <-. auto.
    + injection H as <- _. inversion Hb; subst. contradiction.
  - inversion Hc; subst. destruct body as [|y body]; simpl in H.
    + injection H as -> _. contradiction.
    + injection H as <- H. inversion Hb; subst.
      destruct (IH body next rest e) as [-> ->]; auto.
Qed.

Lemma tokensOf_noEND s body : tokensOf s body -> noEND body.
Proof. apply Forall_impl. intros t H. apply H. Qed.

Lemma hasEND_last body e : type e = TokenType.END -> hasEND (body ++ [e]).
Proof. intro H. apply Exists_app. right. now constructor. Qed.

Definition describes (msg : string) : Prop :=
  raised EndOfStream msg \/ raised UnexpectedToken msg
  \/ raised Lexical msg \/ raised UnsupportedFunction msg.

(** The translation returns or throws one of the errors above, and what
    it returns is the translation of all the tokens of a formula that is
    balanced. *)
Lemma indicatorToJs_completes formula :
  (exists msg, indicatorToJs formula = Throw msg /\ describes msg)
  \/ (exists js body,
        tokenize formula = Return (body ++ [mkToken TokenType.END ""])
        /\ runExpression TokenType.END (body ++ [mkToken TokenType.END ""])
           = Return (js, [mkToken TokenType.END ""])
        /\ indicatorToJs formula = Return js
        /\ balanced (body ++ [mkToken TokenType.END ""]) = true).
Proof.
  destruct (tokenize_completes formula) as [(toks & Ht)|(msg & Ht & Hmsg)].
  2:{ left. exists msg. unfold indicatorToJs. rewrite Ht.
      split; [reflexivity|]. right; right; now left. }
  destruct (tokenize_Return _ _ Ht) as (body & -> & Hbody).
  pose proof (tokensOf_noEND _ _ Hbody) as Hne.
  rewrite (indicatorToJs_tokens _ _ Ht).
  pose proof (proj1 (parser_good (4 * List.length (body ++ [mkToken TokenType.END ""]) + 2))
                TokenType.END (body ++ [mkToken TokenType.END ""]) eq_refl) as G.
  fold (runExpression TokenType.END (body ++ [mkToken TokenType.END ""])) in G.
  destruct (runExpression TokenType.END _) as [[js rest]|msg| |] eqn:Er;
    simpl in G.
  - right. destruct G as (c & Hc & Hn & Hf & Ho & next & rest' & -> & Hend).
    assert (Hnext : type next = TokenType.END).
    { destruct (type next); try discriminate Hend; reflexivity. }
    symmetry in Hc.
    destruct (first_END c body next rest' (mkToken TokenType.END "")
                Hn Hne Hnext eq_refl Hc) as [-> ->].
    apply app_inv_head in Hc. injection Hc as ->.
    exists js, body. repeat split; auto.
    unfold balanced. rewrite nesting_app, (Hf []). reflexivity.
  - left. exists msg. split; [reflexivity|].
    destruct G as [G|[G|G]]; unfold describes; auto.
  - exfalso. apply G. now apply hasEND_last.
  - exfalso. lia.
Qed.

(** Where the parser needs a token and finds the END marker, it throws
    the end-of-stream error. *)
Lemma runExpressionLoop_END js e tok rest :
  type tok = TokenType.END ->
  runExpressionLoop js e (tok :: rest) = Throw "unexpected end of token stream".
Proof.
  intro H. rewrite runExpressionLoop_cons, H.
  unfold unexpectedTokenError. now rewrite H.
Qed.

Lemma afterOperand_END loop e js tok rest :
  type tok = TokenType.END -> e <> TokenType.END ->
  afterOperand loop e js (tok :: rest) = Throw "unexpected end of token stream".
Proof.
  intros H He. unfold afterOperand, bind, peek, pop. rewrite H.
  replace (isEnd e TokenType.END) with false
    by (destruct e; try reflexivity; contradiction).
  unfold throwUnexpected, unexpectedTokenError. now rewrite H.
Qed.

(** ** Empty lists *)

Lemma runList_empty e tok rest :
  listEnd e = true -> isClosing (type tok) = true ->
  runList e (tok :: rest) = Return ("", tok :: rest).
Proof.
  intros He Hc. rewrite runList_eq. unfold parseListBody.
  replace (negb (TokenType.eqb e TokenType.Comma)
           && negb (TokenType.eqb e TokenType.RBracket)) with false
    by (destruct e; try discriminate He; reflexivity).
  unfold bind, peek. now rewrite Hc.
Qed.

Lemma runExpressionLoop_empty_array js e lb rb rest :
  type lb = TokenType.LBracket -> type rb = TokenType.RBracket ->
  runExpressionLoop js e (lb :: rb :: rest)
  = afterOperand (fun js' => runExpressionLoop js' e) e
      (js +++ "[" +++ "" +++ "]") rest.
Proof.
  intros Hlb Hrb. rewrite runExpressionLoop_cons, Hlb.
  unfold bind at 1. rewrite runList_empty; [|reflexivity|now rewrite Hrb].
  unfold bind. now rewrite consume_cons, Hrb.
Qed.

End BespokeFacts.

(** * Properties of the second dialect *)

Module GenericFacts.
Import Generic.

Section WithEngine.

Variable inheritedText : string -> string.

Lemma generic_parseFunctionCall_S fuel name :
  parseFunctionCall inheritedText (S fuel) name =
  parseFunctionCallBody inheritedText (parseList inheritedText fuel) name.
Proof. reflexivity. Qed.

Lemma generic_parseList_S fuel e :
  parseList inheritedText (S fuel) e =
  parseListBody (fun js => parseListLoop inheritedText fuel js e) e.
Proof. reflexivity. Qed.

Definition listEnd (e : TokenType.t) : bool :=
  TokenType.eqb e TokenType.Comma || TokenType.eqb e TokenType.RBracket.

Lemma generic_parseList_empty fuel e tok rest :
  listEnd e = true -> isClosing (type tok) = true ->
  parseList inheritedText (S fuel) e (tok :: rest) = Return ("", tok :: rest).
Proof.
  intros He Hc. rewrite generic_parseList_S. unfold parseListBody.
  replace (negb (TokenType.eqb e TokenType.Comma)
           && negb (TokenType.eqb e TokenType.RBracket)) with false
    by (destruct e; try discriminate He; reflexivity).
  unfold bind, peek. now rewrite Hc.
Qed.

(** A call without arguments of a function that is in the table or
    inherited. *)
Lemma generic_call_empty fuel name lp rp rest :
  isNullish (getProperty name) = false ->
  type lp = TokenType.LParen -> type rp = TokenType.RParen ->
  parseFunctionCall inheritedText (S (S fuel)) name (lp :: rp :: rest)
  = Return (toText inheritedText (getProperty name) +++ "(" +++ "" +++ ")",
            rest).
Proof.
  intros Hn Hlp Hrp. rewrite generic_parseFunctionCall_S. unfold parseFunctionCallBody.
  rewrite Hn. unfold bind at 1. unfold consume at 1. unfold bind, pop.
  rewrite Hlp. cbn [TokenType.eqb TokenType.code Nat.eqb negb ret].
  rewrite generic_parseList_empty; [|reflexivity|].
  - unfold peek, consume, bind, pop. rewrite Hrp. reflexivity.
  - unfold isClosing. now rewrite Hrp.
Qed.

Lemma runFunctionCall_fuel name lp rp rest :
  runFunctionCall inheritedText name (lp :: rp :: rest)
  = parseFunctionCall inheritedText
      (S (S (4 * List.length rest + 10))) name (lp :: rp :: rest).
Proof.
  unfold runFunctionCall. f_equal. cbn [List.length]. lia.
Qed.

(** A name that the table does not have and [Object.prototype] neither
    is an unsupported function. *)
Lemma generic_unsupported_function fuel name toks :
  ownProperty func2jsfunc name = None ->
  existsb (String.eqb name) objectPrototype = false ->
  parseFunctionCall inheritedText (S fuel) name toks
  = Throw ("Unsupported function: " +++ name).
Proof.
  intros H1 H2. rewrite generic_parseFunctionCall_S.
  unfold parseFunctionCallBody, getProperty. now rewrite H1, H2.
Qed.

(** C5 in the second dialect: [toString] is not in the table of
    functions, and the call [toString(1)] translates all the same, to the
    text of the function that every object inherits followed by the
    arguments; no error is raised.  (In the first dialect every name but
    the three of the [switch] is an error, see
    [unsupported_function_throws].) *)
Theorem inherited_function_accepted :
  ownProperty func2jsfunc "toString" = None
  /\ indicatorToJs inheritedText "toString(1)"
     = Return (inheritedText "toString" +++ "(1)")
  /\ indicatorToJs inheritedText "FOO(1)" = Throw "Unsupported function: FOO".
Proof. repeat split; reflexivity. Qed.

End WithEngine.

End GenericFacts.

(** * Both dialects *)

Module Dialects.

(** C6: [parseList] returns the empty string, and takes no token, when
    the next token closes a list; so the empty array literal translates
    to [[]] (first dialect) and the call without arguments of a function
    of the table translates to the name the table gives followed by [()]
    (second dialect). *)
Theorem empty_list_translation :
  (forall e tok rest,
     BespokeFacts.listEnd e = true ->
     Bespoke.isClosing (Bespoke.type tok) = true ->
     Bespoke.runList e (tok :: rest) = Return ("", tok :: rest))
  /\ (forall inheritedText e tok rest,
        GenericFacts.listEnd e = true ->
        Generic.isClosing (Generic.type tok) = true ->
        Generic.runList inheritedText e (tok :: rest)
        = Return ("", tok :: rest))
  /\ (forall js e lb rb rest,
        Bespoke.type lb = Bespoke.TokenType.LBracket ->
        Bespoke.type rb = Bespoke.TokenType.RBracket ->
        Bespoke.runExpressionLoop js e (lb :: rb :: rest)
        = Bespoke.afterOperand (fun js' => Bespoke.runExpressionLoop js' e) e
            (js +++ "[" +++ "" +++ "]") rest)
  /\ (forall inheritedText F target lp rp rest,
        Generic.ownProperty Generic.func2jsfunc F = Some target ->
        Generic.type lp = Generic.TokenType.LParen ->
        Generic.type rp = Generic.TokenType.RParen ->
        Generic.runFunctionCall inheritedText F (lp :: rp :: rest)
        = Return (target +++ "(" +++ "" +++ ")", rest))
  /\ Bespoke.indicatorToJs "[]" = Return "[]"
  /\ (forall inheritedText,
        Generic.indicatorToJs inheritedText "SUM()"
        = Return "sumConditionalOccurrences()").
Proof.
  split; [|split; [|split; [|split; [|split]]]].
  - apply BespokeFacts.runList_empty.
  - intros it e tok rest He Hc. unfold Generic.runList.
    replace (4 * List.length (tok :: rest) + 4)
      with (S (4 * List.length (tok :: rest) + 3)) by lia.
    now apply GenericFacts.generic_parseList_empty.
  - apply BespokeFacts.runExpressionLoop_empty_array.
  - intros it F target lp rp rest HF Hlp Hrp.
    rewrite GenericFacts.runFunctionCall_fuel.
    rewrite GenericFacts.generic_call_empty; auto;
      unfold Generic.getProperty; rewrite HF; reflexivity.
  - reflexivity.
  - reflexivity.
Qed.

Lemma empty_list_translation_witness :
  Bespoke.runList Bespoke.TokenType.RBracket
    [Bespoke.mkToken Bespoke.TokenType.RBracket "]";
     Bespoke.mkToken Bespoke.TokenType.END ""]
  = Return ("", [Bespoke.mkToken Bespoke.TokenType.RBracket "]";
                 Bespoke.mkToken Bespoke.TokenType.END ""])
  /\ Generic.runFunctionCall (fun key => key) "SUM"
       [Generic.mkToken Generic.TokenType.LParen "(";
        Generic.mkToken Generic.TokenType.RParen ")";
        Generic.mkToken Generic.TokenType.END ""]
     = Return ("sumConditionalOccurrences()",
               [Generic.mkToken Generic.TokenType.END ""]).
Proof.
  split.
  - apply (proj1 empty_list_translation); reflexivity.
  - apply (proj1 (proj2 (proj2 (proj2 empty_list_translation)))
             (fun key => key) "SUM" "sumConditionalOccurrences");
      reflexivity.
Defined.

End Dialects.

(** * More on strings and on the matcher *)

Module JsMore.
Import Js JsFacts.

(** ** What a pattern matches *)

(** [matches r w]: the whole of [w] is in the language of [r]. *)
Inductive matches : Regex -> string -> Prop :=
| matches_Eps : matches Eps ""
| matches_Chr c : matches (Chr c) (String c "")
| matches_Cls (p : ascii -> bool) c : p c = true -> matches (Cls p) (String c "")
| matches_Seq r1 r2 a b :
    matches r1 a -> matches r2 b -> matches (Seq r1 r2) (a +++ b)
| matches_Alt_l r1 r2 a : matches r1 a -> matches (Alt r1 r2) a
| matches_Alt_r r1 r2 a : matches r2 a -> matches (Alt r1 r2) a
| matches_Star_nil r : matches (Star r) ""
| matches_Star_cons r a b :
    matches r a -> matches (Star r) b -> matches (Star r) (a +++ b).

(** What the matcher takes from the subject string is in the language of
    the pattern. *)
Lemma run_sound r : forall s k x,
  run r s k = Some x ->
  exists p s', s = p +++ s' /\ matches r p /\ k s' = Some x.
Proof.
  induction r as [|c|cls|r1 IH1 r2 IH2|r1 IH1 r2 IH2|r1 IH1];
    intros s k x; simpl.
  - intro H. exists "", s. repeat split; [constructor|exact H].
  - destruct s as [|c' s']; [discriminate|].
    destruct (Ascii.eqb_spec c c') as [<-|]; [|discriminate]. intro H.
    exists (String c ""), s'. repeat split; [constructor|exact H].
  - destruct s as [|c' s']; [discriminate|].
    destruct (cls c') eqn:E; [|discriminate]. intro H.
    exists (String c' ""), s'. repeat split; [now constructor|exact H].
  - intro H. apply IH1 in H. destruct H as (p1 & s1 & -> & M1 & H).
    apply IH2 in H. destruct H as (p2 & s2 & -> & M2 & H).
    exists (p1 +++ p2), s2. rewrite append_assoc.
    repeat split; [now constructor|exact H].
  - destruct (run r1 s k) eqn:E.
    + intros [= <-]. apply IH1 in E. destruct E as (p & s' & -> & M & H).
      exists p, s'. repeat split; [now apply matches_Alt_l|exact H].
    + intro H. apply IH2 in H. destruct H as (p & s' & -> & M & H).
      exists p, s'. repeat split; [now apply matches_Alt_r|exact H].
  - generalize (String.length s) as n. intro n. revert s.
    induction n as [|n IHn]; intros s.
    + intro H. exists "", s. repeat split; [constructor|exact H].
    + destruct (run r1 s _) eqn:E.
      * intros [= <-]. apply IH1 in E. destruct E as (p1 & s1 & -> & M1 & E).
        destruct (String.length s1 <? _); [|discriminate].
        apply IHn in E. destruct E as (p2 & s2 & -> & M2 & E).
        exists (p1 +++ p2), s2. rewrite append_assoc.
        repeat split; [now constructor|exact E].
      * intro H. exists "", s. repeat split; [constructor|exact H].
Qed.

Lemma regexMatch_sound r s m :
  regexMatch r s = Some m -> matches r m /\ exists rest, s = m +++ rest.
Proof.
  unfold regexMatch. destruct (run r s Some) as [rest|] eqn:E; [|discriminate].
  intros [= <-]. apply run_sound in E.
  destruct E as (p & s' & -> & M & [= ->]).
  rewrite length_append, Nat.add_sub, take_append. split; [exact M|].
  now exists rest.
Qed.

Lemma matches_Star_Cls p w : matches (Star (Cls p)) w -> allChars p w = true.
Proof.
  intro H. remember (Star (Cls p)) as r eqn:Er.
  induction H as [| | | | | | |r a b Ha _ Hb IHb]; try discriminate Er.
  - reflexivity.
  - injection Er as ->. inversion Ha; subst. simpl.
    rewrite (IHb eq_refl). now rewrite andb_true_r.
Qed.

Lemma matches_reIdent w : matches reIdent w -> isIdentifier w = true.
Proof.
  unfold reIdent. intro H. inversion H as [| | |r1 r2 a b Ha Hb| | | |]; subst.
  inversion Ha; subst. apply matches_Star_Cls in Hb. simpl.
  now rewrite Hb, andb_true_r.
Qed.

Lemma matches_reName w :
  matches reName w -> exists name, w = "$" +++ name /\ isIdentifier name = true.
Proof.
  unfold reName. intro H. inversion H as [| | |r1 r2 a b Ha Hb| | | |]; subst.
  inversion Ha; subst. exists b. split; [reflexivity|].
  now apply matches_reIdent.
Qed.

(** ** Greedy repetition *)

(** The string does not begin with a code unit of the class [p]. *)
Definition stopsAt (p : ascii -> bool) (s : string) : bool :=
  match s with
  | EmptyString => true
  | String c _ => negb (p c)
  end.

(** [p*] takes a whole run of [p]s when the continuation accepts what
    follows. *)
Lemma run_Star_run p a s x k :
  allChars p a = true -> stopsAt p s = true -> k s = Some x ->
  run (Star (Cls p)) (a +++ s) k = Some x.
Proof.
  intros Ha Hs Hk. cbn [run].
  generalize (Nat.le_refl (String.length (a +++ s))).
  generalize (String.length (a +++ s)) at 2 3 as n. intro n. revert a Ha.
  induction n as [|n IH]; intros a Ha Hn.
  - destruct a; [exact Hk|simpl in Hn; lia].
  - destruct a as [|c a].
    + cbn [append]. destruct s as [|c s]; [exact Hk|].
      cbn [run]. simpl in Hs. apply negb_true_iff in Hs. now rewrite Hs.
    + simpl in Ha. apply andb_true_iff in Ha. destruct Ha as [Hc Ha].
      cbn [append run]. rewrite Hc.
      replace (String.length (a +++ s) <? String.length (String c (a +++ s)))
        with true by (symmetry; apply Nat.ltb_lt; simpl; lia).
      rewrite (IH a Ha); [reflexivity|simpl in Hn; lia].
Qed.

(** ** [trim] *)

Lemma trimStart_spaces ws s :
  allChars isSpace ws = true -> trimStart (ws +++ s) = trimStart s.
Proof.
  induction ws as [|c ws IH]; simpl; [reflexivity|]. intro H.
  apply andb_true_iff in H. destruct H as [Hc H]. rewrite Hc. now apply IH.
Qed.

Lemma trimEnd_spaces ws : allChars isSpace ws = true -> trimEnd ws = "".
Proof.
  induction ws as [|c ws IH]; simpl; [reflexivity|]. intro H.
  apply andb_true_iff in H. destruct H as [Hc H]. now rewrite (IH H), Hc.
Qed.

Lemma trimEnd_append_spaces s ws :
  allChars isSpace ws = true -> trimEnd (s +++ ws) = trimEnd s.
Proof.
  intro H. induction s as [|c s IH]; simpl; [now apply trimEnd_spaces|].
  now rewrite IH.
Qed.

Lemma trimStart_all_spaces s : trimStart s = "" -> allChars isSpace s = true.
Proof.
  induction s as [|c s IH]; simpl; [reflexivity|].
  destruct (isSpace c); [exact IH|discriminate].
Qed.

Lemma trimStart_append s t :
  trimStart s <> "" -> trimStart (s +++ t) = trimStart s +++ t.
Proof.
  induction s as [|c s IH]; simpl; [contradiction|].
  destruct (isSpace c); [exact IH|reflexivity].
Qed.

(** Whitespace around a string does not change what [trim] gives. *)
Lemma trim_spaces ws1 s ws2 :
  allChars isSpace ws1 = true -> allChars isSpace ws2 = true ->
  trim (ws1 +++ s +++ ws2) = trim s.
Proof.
  intros H1 H2. unfold trim. rewrite (trimStart_spaces ws1 _ H1).
  destruct (trimStart s) eqn:E.
  - apply trimStart_all_spaces in E.
    assert (H : allChars isSpace (s +++ ws2) = true)
      by now rewrite allChars_append, E, H2.
    clear E. induction (s +++ ws2) as [|c u IH]; simpl; [reflexivity|].
    simpl in H. apply andb_true_iff in H. destruct H as [Hc H].
    rewrite Hc. now apply IH.
  - rewrite trimStart_append by (rewrite E; discriminate).
    rewrite E. now apply trimEnd_append_spaces.
Qed.





End JsMore.

(** * More on the first dialect *)

Module BespokeMore.
Import Bespoke.
Import Js JsFacts JsMore.
Import BespokeFacts.

(** ** The tokenizer and whitespace *)

Lemma tokenizeLoop_more : forall fuel acc s fuel',
  String.length s < fuel -> fuel <= fuel' ->
  tokenizeLoop fuel' acc s = tokenizeLoop fuel acc s.
Proof.
  induction fuel as [|fuel IH]; intros acc s fuel' Hs Hf; [lia|].
  destruct fuel' as [|fuel']; [lia|]. rewrite !tokenizeLoop_S.
  destruct (firstToken (trim s)) as [t| | |] eqn:Et; try reflexivity.
  apply firstToken_Return in Et.
  destruct Et as [[_ ->]|(Hty & Htx & rest & Hrest)]; [reflexivity|].
  apply type_eqb_neq in Hty. rewrite Hty. apply IH; [|lia].
  pose proof (substringOf_length _ _ (trim_substringOf s)) as Hl.
  rewrite Hrest, slice_append. rewrite Hrest, length_append in Hl.
  destruct (text t); [contradiction|]. simpl in Hl. lia.
Qed.

Lemma tokenizeLoop_trim fuel acc s s' :
  trim s = trim s' -> tokenizeLoop (S fuel) acc s = tokenizeLoop (S fuel) acc s'.
Proof. intro H. rewrite !tokenizeLoop_S. now rewrite H. Qed.

(** X1: Whitespace before and after a formula changes neither its tokens nor
    its translation. *)
Theorem surrounding_whitespace_ignored ws1 s ws2 :
  allChars isSpace ws1 = true -> allChars isSpace ws2 = true ->
  tokenize (ws1 +++ s +++ ws2) = tokenize s
  /\ indicatorToJs (ws1 +++ s +++ ws2) = indicatorToJs s.
Proof.
  intros H1 H2.
  assert (Ht : tokenize (ws1 +++ s +++ ws2) = tokenize s).
  { unfold tokenize.
    rewrite (tokenizeLoop_trim _ _ _ s (trim_spaces ws1 s ws2 H1 H2)).
    apply tokenizeLoop_more; [lia|].
    rewrite !length_append. lia. }
  split; [exact Ht|]. unfold indicatorToJs. now rewrite Ht.
Qed.

Lemma surrounding_whitespace_ignored_witness :
  tokenize ("  " +++ "$a+ 1" +++ " ") = tokenize "$a+ 1"
  /\ indicatorToJs ("  " +++ "$a+ 1" +++ " ") = indicatorToJs "$a+ 1".
Proof.
  apply (surrounding_whitespace_ignored "  " "$a+ 1" " "); reflexivity.
Defined.

(** ** Lexical errors *)








(** ** The tokens and their texts *)

(** The text a token of each type has. *)
Definition wellFormed (t : Token) : Prop :=
  match type t with
  | TokenType.END => text t = ""
  | TokenType.LParen => text t = "("
  | TokenType.RParen => text t = ")"
  | TokenType.LBracket => text t = "["
  | TokenType.RBracket => text t = "]"
  | TokenType.Comma => text t = ","
  | TokenType.Plus => text t = "+"
  | TokenType.Minus => text t = "-"
  | TokenType.Mul => text t = "*"
  | TokenType.Div => text t = "/"
  | TokenType.Less => text t = "<"
  | TokenType.LessOrEq => text t = "<="
  | TokenType.Greater => text t = ">"
  | TokenType.GreaterOrEq => text t = ">="
  | TokenType.Equal => text t = "="
  | TokenType.NotEqual => text t = "!="
  | TokenType.Not => text t = "!"
  | TokenType.String => matches reString (text t)
  | TokenType.Number => matches reNumber (text t)
  | TokenType.Indent => isIdentifier (text t) = true
  | TokenType.Name =>
      exists name, text t = "$" +++ name /\ isIdentifier name = true
  end.

Lemma firstToken_wellFormed s t : firstToken s = Return t -> wellFormed t.
Proof.
  unfold firstToken. destruct (String.length s =? 0);
    [intros [= <-]; reflexivity|].
  cbv zeta. intro H.
  repeat match type of H with
    | (if String.eqb ?c ?x then _ else _) = _ => destruct (String.eqb c x)
    end;
  try match type of H with
    | (if ?b then _ else _) = _ => destruct b
    end;
  try (injection H as <-; reflexivity).
  - destruct (regexMatch reName s) as [m0|] eqn:Em; [|discriminate H].
    injection H as <-. apply regexMatch_sound in Em.
    apply matches_reName, Em.
  - destruct (regexMatch reString s) as [m0|] eqn:Em; [|discriminate H].
    injection H as <-. apply regexMatch_sound in Em. apply Em.
  - destruct (regexMatch reNumber s) as [m0|] eqn:Em; [|discriminate H].
    injection H as <-. apply regexMatch_sound in Em. apply Em.
  - destruct (regexMatch reIdent s) as [m0|] eqn:Em.
    + injection H as <-. apply regexMatch_sound in Em.
      apply matches_reIdent, Em.
    + destruct (regexMatch reSpace s); discriminate H.
Qed.

Lemma tokenizeLoop_Forall (P : Token -> Prop) :
  (forall s t, firstToken s = Return t -> P t) ->
  forall fuel acc s toks,
    Forall P acc -> tokenizeLoop fuel acc s = Return toks -> Forall P toks.
Proof.
  intro HP. induction fuel as [|fuel IH]; intros acc s toks Hacc;
    [discriminate|].
  rewrite tokenizeLoop_S.
  destruct (firstToken (trim s)) as [t| | |] eqn:Et; try discriminate.
  apply HP in Et.
  assert (Hacc' : Forall P (acc ++ [t]))
    by (apply Forall_app; split; [exact Hacc|now constructor]).
  destruct (TokenType.eqb (type t) TokenType.END).
  - now intros [= <-].
  - now apply IH.
Qed.

(** X3: Every token [tokenize] returns has the text of its type: the one
    text of a punctuation mark or operator, a [$] and an identifier for a
    field name, an identifier, or a text that the pattern of numbers or of
    strings matches as a whole. *)
Theorem tokens_well_formed s toks :
  tokenize s = Return toks -> Forall wellFormed toks.
Proof.
  apply (tokenizeLoop_Forall wellFormed firstToken_wellFormed); constructor.
Qed.

Lemma tokens_well_formed_witness :
  Forall wellFormed
    [mkToken TokenType.Name "$a_1"; mkToken TokenType.GreaterOrEq ">=";
     mkToken TokenType.Number "2.5"; mkToken TokenType.END ""].
Proof. apply (tokens_well_formed "$a_1>=2.5"). reflexivity. Defined.



(** ** Literals *)

Lemma tokenize_single s t :
  s <> "" -> trim s = s ->
  firstToken s = Return t -> type t <> TokenType.END -> text t = s ->
  tokenize s = Return [t; mkToken TokenType.END ""].
Proof.
  intros Hne Hs Ht Hty Htx. unfold tokenize.
  rewrite tokenizeLoop_S, Hs, Ht. apply type_eqb_neq in Hty.
  rewrite Hty, Htx, slice_all.
  destruct s; [contradiction|]. reflexivity.
Qed.

Lemma indicatorToJs_literal s t :
  tokenize s = Return [t; mkToken TokenType.END ""] ->
  type t = TokenType.String \/ type t = TokenType.Number ->
  indicatorToJs s = Return (text t).
Proof.
  intros Ht Hty. rewrite (indicatorToJs_tokens _ _ Ht).
  rewrite runExpression_loop by reflexivity. rewrite runExpressionLoop_cons.
  now destruct Hty as [-> | ->].
Qed.

(** *** Numbers *)

(** One digit or more. *)
Definition isDigits (s : string) : bool :=
  match s with
  | EmptyString => false
  | String _ _ => allChars isDigit s
  end.

(** Nothing, or a point and digits. *)
Definition isFraction (s : string) : bool :=
  match s with
  | EmptyString => true
  | String c d => Ascii.eqb c "." && isDigits d
  end.

(** Nothing, or [e] or [E], a sign or none, and digits. *)
Definition isExponent (s : string) : bool :=
  match s with
  | EmptyString => true
  | String c r =>
      (Ascii.eqb c "e" || Ascii.eqb c "E")
      && match r with
         | EmptyString => false
         | String sign d =>
             if Ascii.eqb sign "+" || Ascii.eqb sign "-" then isDigits d
             else isDigits r
         end
  end.

Lemma firstToken_digit c s :
  isDigit c = true ->
  firstToken (String c s) =
  match regexMatch reNumber (String c s) with
  | None => Throw "impossible"
  | Some m0 => Return (mkToken TokenType.Number m0)
  end.
Proof.
  destruct c as [[] [] [] [] [] [] [] []]; intro H;
    try (vm_compute in H; discriminate H); reflexivity.
Qed.

Lemma digit_facts c :
  isDigit c = true ->
  isSpace c = false /\ Ascii.eqb c "." = false
  /\ (Ascii.eqb c "e" || Ascii.eqb c "E") = false
  /\ (Ascii.eqb c "+" || Ascii.eqb c "-") = false.
Proof.
  destruct c as [[] [] [] [] [] [] [] []]; intro H;
    try (vm_compute in H; discriminate H); repeat split; reflexivity.
Qed.

Lemma digits_nospace d :
  allChars isDigit d = true -> allChars (fun c => negb (isSpace c)) d = true.
Proof.
  apply allChars_impl. intros c H. now rewrite (proj1 (digit_facts c H)).
Qed.

Lemma isDigits_all d : isDigits d = true -> allChars isDigit d = true.
Proof. destruct d; [discriminate|auto]. Qed.

Lemma run_digits d s x k :
  isDigits d = true -> stopsAt isDigit s = true -> k s = Some x ->
  run (Many1 (Cls isDigit)) (d +++ s) k = Some x.
Proof.
  intros Hd Hs Hk. destruct d as [|c d]; [discriminate|].
  simpl in Hd. apply andb_true_iff in Hd. destruct Hd as [Hc Hd].
  unfold Many1.
  change (run (Seq (Cls isDigit) (Star (Cls isDigit))) (String c d +++ s) k)
    with (if isDigit c then run (Star (Cls isDigit)) (d +++ s) k else None).
  rewrite Hc. now apply run_Star_run.
Qed.

(** The pattern of exponents and what comes after the digits in the
    pattern of numbers. *)
Definition reExponent : Regex :=
  Seq (Cls (fun c => Ascii.eqb c "e" || Ascii.eqb c "E"))
    (Seq (Opt (Cls (fun c => Ascii.eqb c "+" || Ascii.eqb c "-")))
       (Many1 (Cls isDigit))).

Definition reFraction : Regex := Seq (Chr ".") (Many1 (Cls isDigit)).

Lemma run_exponent exp :
  isExponent exp = true -> run (Opt reExponent) exp Some = Some "".
Proof.
  destruct exp as [|c r]; [reflexivity|]. simpl. intro H.
  apply andb_true_iff in H. destruct H as [Hc Hr].
  rewrite Hc. destruct r as [|sg d]; [discriminate Hr|].
  destruct (Ascii.eqb sg "+" || Ascii.eqb sg "-") eqn:Esg.
  - pose proof (run_digits d "" "" Some Hr eq_refl eq_refl) as Hd.
    rewrite append_nil_r in Hd. unfold Many1 in Hd. cbn [run] in Hd.
    now rewrite Hd.
  - pose proof (run_digits (String sg d) "" "" Some Hr eq_refl eq_refl) as Hd.
    rewrite append_nil_r in Hd. unfold Many1 in Hd. cbn [run] in Hd.
    now rewrite Hd.
Qed.

Lemma exponent_stops exp : isExponent exp = true -> stopsAt isDigit exp = true.
Proof.
  destruct exp as [|c r]; [reflexivity|]. simpl. intro H.
  apply andb_true_iff in H. destruct H as [Hc _].
  destruct (isDigit c) eqn:E; [|reflexivity].
  apply digit_facts in E. destruct E as (_ & _ & E & _). congruence.
Qed.

Lemma exponent_not_point exp c r :
  isExponent exp = true -> exp = String c r -> Ascii.eqb "." c = false.
Proof.
  intros H ->. simpl in H. apply andb_true_iff in H. destruct H as [Hc _].
  destruct (Ascii.eqb_spec "." c) as [<-|]; [discriminate Hc|reflexivity].
Qed.

Lemma run_fraction frac exp :
  isFraction frac = true -> isExponent exp = true ->
  run (Opt reFraction) (frac +++ exp) (fun s => run (Opt reExponent) s Some)
  = Some "".
Proof.
  intros Hf He. destruct frac as [|c d].
  - cbn [append]. destruct exp as [|c r] eqn:E; [reflexivity|].
    change (run (Opt reFraction) (String c r)
              (fun s => run (Opt reExponent) s Some))
      with (match (if Ascii.eqb "." c
                   then run (Many1 (Cls isDigit)) r
                          (fun s => run (Opt reExponent) s Some)
                   else None) with
            | Some x => Some x
            | None => run (Opt reExponent) (String c r) Some
            end).
    rewrite (exponent_not_point _ c r He eq_refl). now apply run_exponent.
  - simpl in Hf. apply andb_true_iff in Hf. destruct Hf as [Hc Hd].
    apply Ascii.eqb_eq in Hc. subst c.
    change (run (Opt reFraction) (String "." d +++ exp)
              (fun s => run (Opt reExponent) s Some))
      with (match run (Many1 (Cls isDigit)) (d +++ exp)
                    (fun s => run (Opt reExponent) s Some) with
            | Some x => Some x
            | None => run (Opt reExponent) (String "." d +++ exp) Some
            end).
    rewrite (run_digits d exp "" _ Hd (exponent_stops exp He)
               (run_exponent exp He)).
    reflexivity.
Qed.

Lemma fraction_stops frac exp :
  isFraction frac = true -> isExponent exp = true ->
  stopsAt isDigit (frac +++ exp) = true.
Proof.
  intros Hf He. destruct frac as [|c d]; [now apply exponent_stops|].
  simpl in *. apply andb_true_iff in Hf. destruct Hf as [Hc _].
  destruct (isDigit c) eqn:E; [|reflexivity].
  apply digit_facts in E. destruct E as (_ & E & _). congruence.
Qed.

Lemma regexMatch_number int frac exp :
  isDigits int = true -> isFraction frac = true -> isExponent exp = true ->
  regexMatch reNumber (int +++ frac +++ exp) = Some (int +++ frac +++ exp).
Proof.
  intros Hi Hf He. unfold regexMatch.
  assert (H : run reNumber (int +++ frac +++ exp) Some = Some "").
  { change (run reNumber (int +++ frac +++ exp) Some)
      with (run (Many1 (Cls isDigit)) (int +++ frac +++ exp)
              (fun s1 => run (Opt reFraction) s1
                 (fun s2 => run (Opt reExponent) s2 Some))).
    apply run_digits; [exact Hi|now apply fraction_stops|].
    now apply run_fraction. }
  rewrite H. cbn [String.length]. rewrite Nat.sub_0_r. now rewrite take_all.
Qed.

Lemma number_nospace int frac exp :
  isDigits int = true -> isFraction frac = true -> isExponent exp = true ->
  allChars (fun c => negb (isSpace c)) (int +++ frac +++ exp) = true.
Proof.
  intros Hi Hf He. rewrite !allChars_append.
  rewrite (digits_nospace int (isDigits_all int Hi)). cbn [andb].
  apply andb_true_iff. split.
  - destruct frac as [|c d]; [reflexivity|]. simpl in Hf.
    apply andb_true_iff in Hf. destruct Hf as [Hc Hd].
    apply Ascii.eqb_eq in Hc. subst c. cbn [allChars].
    now rewrite (digits_nospace d (isDigits_all d Hd)).
  - destruct exp as [|c r]; [reflexivity|]. simpl in He.
    apply andb_true_iff in He. destruct He as [Hc Hr]. cbn [allChars].
    assert (Ec : isSpace c = false).
    { apply orb_true_iff in Hc.
      destruct Hc as [Hc|Hc]; apply Ascii.eqb_eq in Hc; now subst c. }
    rewrite Ec. cbn [negb andb].
    destruct r as [|sg d]; [discriminate Hr|].
    destruct (Ascii.eqb sg "+" || Ascii.eqb sg "-") eqn:Esg.
    + cbn [allChars]. rewrite (digits_nospace d (isDigits_all d Hr)).
      apply orb_true_iff in Esg.
      destruct Esg as [E|E]; apply Ascii.eqb_eq in E; now subst sg.
    + now apply digits_nospace, isDigits_all.
Qed.

(** X4: A number (digits, then a point and digits or not, then an exponent
    or not) is one token and translates to itself; digits and a point
    with no digit after it are a lexical error on the point. *)
Theorem number_literal_verbatim :
  (forall int frac exp,
     isDigits int = true -> isFraction frac = true -> isExponent exp = true ->
     tokenize (int +++ frac +++ exp)
     = Return [mkToken TokenType.Number (int +++ frac +++ exp);
               mkToken TokenType.END ""]
     /\ indicatorToJs (int +++ frac +++ exp) = Return (int +++ frac +++ exp))
  /\ (forall int, isDigits int = true ->
        indicatorToJs (int +++ ".") = Throw "unrecognized token in: .").
Proof.
  split.
  - intros int frac exp Hi Hf He.
    assert (Ht : tokenize (int +++ frac +++ exp)
                 = Return [mkToken TokenType.Number (int +++ frac +++ exp);
                           mkToken TokenType.END ""]).
    { apply tokenize_single.
      - destruct int; [discriminate Hi|discriminate].
      - now apply trim_nospace, number_nospace.
      - destruct int as [|c int'] eqn:E; [discriminate Hi|].
        cbn [append]. rewrite firstToken_digit.
        + change (String c (int' +++ frac +++ exp))
            with (String c int' +++ frac +++ exp).
          rewrite <- E in *. now rewrite regexMatch_number.
        + simpl in Hi. apply andb_true_iff in Hi. apply Hi.
      - discriminate.
      - reflexivity. }
    split; [exact Ht|].
    rewrite (indicatorToJs_literal _ _ Ht); [reflexivity|now right].
  - intros int Hi.
    assert (Hm : regexMatch reNumber (int +++ ".") = Some int).
    { unfold regexMatch.
      assert (H : run reNumber (int +++ ".") Some = Some ".").
      { change (run reNumber (int +++ ".") Some)
          with (run (Many1 (Cls isDigit)) (int +++ ".")
                  (fun s1 => run (Opt reFraction) s1
                     (fun s2 => run (Opt reExponent) s2 Some))).
        apply run_digits; [exact Hi|reflexivity|reflexivity]. }
      rewrite H, length_append. cbn [String.length].
      rewrite Nat.add_sub. now rewrite take_append. }
    unfold indicatorToJs, tokenize.
    rewrite (tokenizeLoop_cons _ _ _ (mkToken TokenType.Number int)).
    + cbn [text]. rewrite slice_append.
      destruct int; [discriminate Hi|]. reflexivity.
    + rewrite allChars_append.
      now rewrite (digits_nospace int (isDigits_all int Hi)).
    + destruct int as [|c int'] eqn:E; [discriminate Hi|].
      cbn [append]. rewrite firstToken_digit.
      * change (String c (int' +++ ".")) with (String c int' +++ ".").
        rewrite <- E in *. now rewrite Hm.
      * simpl in Hi. apply andb_true_iff in Hi. apply Hi.
    + discriminate.
Qed.

Lemma number_literal_verbatim_witness :
  (tokenize ("12" +++ ".5" +++ "e-3")
   = Return [mkToken TokenType.Number ("12" +++ ".5" +++ "e-3");
             mkToken TokenType.END ""]
   /\ indicatorToJs ("12" +++ ".5" +++ "e-3")
      = Return ("12" +++ ".5" +++ "e-3"))
  /\ indicatorToJs ("7" +++ ".") = Throw "unrecognized token in: .".
Proof.
  split.
  - apply (proj1 number_literal_verbatim "12" ".5" "e-3"); reflexivity.
  - apply (proj2 number_literal_verbatim "7"). reflexivity.
Defined.



(** *** Strings *)

Definition notQuote (c : ascii) : bool := negb (Ascii.eqb c dquote).

(** What the pattern of strings has between the quotes. *)
Definition reStringItem : Regex :=
  Alt (Seq (Chr "\") (Chr "\")) (Alt (Seq (Chr "\") (Chr dquote)) (Cls notQuote)).

Definition closing (s : string) : option string :=
  run (Chr dquote) s Some.

Lemma run_string_body_some body :
  allChars notQuote body = true ->
  run (Star reStringItem) (body +++ String dquote "") closing <> None.
Proof.
  intro Hb. cbn [run].
  generalize (Nat.le_refl (String.length (body +++ String dquote ""))).
  generalize (String.length (body +++ String dquote "")) at 2 3 as n.
  intro n. revert body Hb.
  induction n as [|n IH]; intros body Hb Hn.
  - destruct body; simpl in Hn; lia.
  - destruct body as [|c body].
    + cbn. intro X; discriminate X.
    + simpl in Hb. apply andb_true_iff in Hb. destruct Hb as [Hc Hb].
      cbn [append].
      match goal with
      | |- match ?r with Some _ => _ | None => _ end <> None =>
          destruct r eqn:E; [intro X; discriminate X|]
      end.
      exfalso. unfold reStringItem in E. cbn [run] in E.
      repeat match type of E with
        | match ?x with Some _ => _ | None => _ end = None =>
            destruct x; [discriminate E|]
        end.
      rewrite Hc in E.
      replace (String.length (body +++ String dquote "")
               <? String.length (String c (body +++ String dquote "")))
        with true in E by (symmetry; apply Nat.ltb_lt; simpl; lia).
      apply (IH body Hb); [simpl in Hn; lia|exact E].
Qed.

Lemma quote_is_last body : forall p rest,
  allChars notQuote body = true ->
  body +++ String dquote "" = p +++ String dquote rest -> rest = "".
Proof.
  induction body as [|c body IH]; intros p rest Hb H.
  - destruct p as [|d p]; simpl in H.
    + now injection H as <-.
    + injection H as _ H. destruct p; discriminate H.
  - simpl in Hb. apply andb_true_iff in Hb. destruct Hb as [Hc Hb].
    destruct p as [|d p]; simpl in H.
    + injection H as -> _. unfold notQuote in Hc.
      now rewrite Ascii.eqb_refl in Hc.
    + injection H as _ H. now apply (IH p).
Qed.

Lemma regexMatch_string body :
  allChars notQuote body = true ->
  regexMatch reString (String dquote (body +++ String dquote ""))
  = Some (String dquote (body +++ String dquote "")).
Proof.
  intro Hb. unfold regexMatch.
  assert (H : run reString (String dquote (body +++ String dquote "")) Some
              = Some "").
  { change (run reString (String dquote (body +++ String dquote "")) Some)
      with (if Ascii.eqb dquote dquote
            then run (Star reStringItem) (body +++ String dquote "") closing
            else None).
    rewrite Ascii.eqb_refl.
    destruct (run (Star reStringItem) (body +++ String dquote "") closing)
      as [rest|] eqn:E; [|now apply run_string_body_some in E].
    apply run_suffix in E. destruct E as (p & s' & Hs & Hc).
    unfold closing in Hc. cbn [run] in Hc.
    destruct s' as [|c s'']; [discriminate Hc|].
    destruct (Ascii.eqb_spec dquote c) as [<-|]; [|discriminate Hc].
    injection Hc as ->. apply quote_is_last in Hs; [now subst|exact Hb]. }
  rewrite H. cbn [String.length]. rewrite Nat.sub_0_r.
  apply f_equal. exact (take_all (String dquote (body +++ String dquote ""))).
Qed.

Lemma trimEnd_last m d :
  isSpace d = false -> trimEnd (m +++ String d "") = m +++ String d "".
Proof.
  intro Hd. induction m as [|c m IH]; simpl; [now rewrite Hd|].
  rewrite IH. destruct m; reflexivity.
Qed.

(** X5: A string literal without a quote between its quotes (whitespace and
    backslashes are allowed, a backslash also as the last code unit) is
    one token and translates to itself. *)
Theorem string_literal_verbatim body :
  allChars notQuote body = true ->
  tokenize (String dquote (body +++ String dquote ""))
  = Return [mkToken TokenType.String (String dquote (body +++ String dquote ""));
            mkToken TokenType.END ""]
  /\ indicatorToJs (String dquote (body +++ String dquote ""))
     = Return (String dquote (body +++ String dquote "")).
Proof.
  intro Hq.
  assert (Ht : tokenize (String dquote (body +++ String dquote ""))
               = Return [mkToken TokenType.String
                           (String dquote (body +++ String dquote ""));
                         mkToken TokenType.END ""]).
  { apply tokenize_single.
    - discriminate.
    - unfold trim. cbn [trimStart].
      replace (isSpace dquote) with false by reflexivity. cbv iota.
      change (String dquote (body +++ String dquote ""))
        with (String dquote body +++ String dquote "").
      now apply trimEnd_last.
    - pose proof (regexMatch_string body Hq) as Hm.
      unfold firstToken. cbn [String.length Nat.eqb charAt].
      cbn. cbn in Hm. now rewrite Hm.
    - discriminate.
    - reflexivity. }
  split; [exact Ht|].
  rewrite (indicatorToJs_literal _ _ Ht); [reflexivity|now left].
Qed.

Lemma string_literal_verbatim_witness :
  tokenize (String dquote ("a b\" +++ String dquote ""))
  = Return [mkToken TokenType.String
              (String dquote ("a b\" +++ String dquote ""));
            mkToken TokenType.END ""]
  /\ indicatorToJs (String dquote ("a b\" +++ String dquote ""))
     = Return (String dquote ("a b\" +++ String dquote "")).
Proof. apply (string_literal_verbatim "a b\"). reflexivity. Defined.



(** ** The formulas that translate

    A grammar of formulas, as trees, with the tokens and the translation
    of each tree; the parser translates the tokens of every tree of the
    grammar to the translation of the tree. *)

Inductive Operand : Type :=
| Atom (t : Token)
| Prefix (op : Token) (o : Operand)
| Paren (e : Expr)
| EmptyArray
| Array (es : Elems)
| Includes (list item : Expr)
| Percent (a b : Expr)
| CountForms (form : Token)
| CountFormsIf (form : Token) (cond : Expr)

with Expr : Type :=
| Single (o : Operand)
| Binary (o : Operand) (op : Token) (e : Expr)

with Elems : Type :=
| Last (e : Expr)
| More (e : Expr) (es : Elems).

Scheme Operand_mut := Induction for Operand Sort Prop
  with Expr_mut := Induction for Expr Sort Prop
  with Elems_mut := Induction for Elems Sort Prop.

Combined Scheme grammar_ind from Operand_mut, Expr_mut, Elems_mut.

Definition tLParen := mkToken TokenType.LParen "(".
Definition tRParen := mkToken TokenType.RParen ")".
Definition tLBracket := mkToken TokenType.LBracket "[".
Definition tRBracket := mkToken TokenType.RBracket "]".
Definition tComma := mkToken TokenType.Comma ",".
Definition tName (name : string) := mkToken TokenType.Indent name.

Fixpoint operandTokens (o : Operand) : list Token :=
  match o with
  | Atom t => [t]
  | Prefix op o' => op :: operandTokens o'
  | Paren e => tLParen :: exprTokens e ++ [tRParen]
  | EmptyArray => [tLBracket; tRBracket]
  | Array es => tLBracket :: elemsTokens es ++ [tRBracket]
  | Includes l i =>
      tName "INCLUDES" :: tLParen :: exprTokens l
        ++ tComma :: exprTokens i ++ [tRParen]
  | Percent a b =>
      tName "PERCENT" :: tLParen :: exprTokens a
        ++ tComma :: exprTokens b ++ [tRParen]
  | CountForms form => [tName "COUNTFORMS"; tLParen; form; tRParen]
  | CountFormsIf form cond =>
      tName "COUNTFORMS" :: tLParen :: form :: tComma
        :: exprTokens cond ++ [tRParen]
  end

with exprTokens (e : Expr) : list Token :=
  match e with
  | Single o => operandTokens o
  | Binary o op e' => operandTokens o ++ op :: exprTokens e'
  end

with elemsTokens (es : Elems) : list Token :=
  match es with
  | Last e => exprTokens e
  | More e es' => exprTokens e ++ tComma :: elemsTokens es'
  end.

Definition prefixJs (op : Token) : string :=
  match type op with
  | TokenType.Not => "!"
  | _ => text op
  end.

Definition operatorJs (op : Token) : string :=
  match expectedOperator op with
  | Some o => o
  | None => ""
  end.

Fixpoint operandJs (o : Operand) : string :=
  match o with
  | Atom t => atomJs t
  | Prefix op o' => prefixJs op +++ operandJs o'
  | Paren e => "(" +++ exprJs e +++ ")"
  | EmptyArray => "[]"
  | Array es => "[" +++ elemsJs es +++ "]"
  | Includes l i => "(" +++ exprJs l +++ ").includes(" +++ exprJs i +++ ")"
  | Percent a b => "getTrend(" +++ exprJs a +++ ", " +++ exprJs b +++ ")"
  | CountForms form => "countOccurrences(" +++ text form +++ ", [])"
  | CountFormsIf form cond =>
      "countConditionalOccurrences(" +++ text form +++ ", [], `"
      +++ exprJs cond +++ "`)"
  end

with exprJs (e : Expr) : string :=
  match e with
  | Single o => operandJs o
  | Binary o op e' => operandJs o +++ operatorJs op +++ exprJs e'
  end

with elemsJs (es : Elems) : string :=
  match es with
  | Last e => exprJs e
  | More e es' => exprJs e +++ ", " +++ elemsJs es'
  end.

Definition startsWithSign (toks : list Token) : bool :=
  match toks with
  | t :: _ => isSign (type t)
  | [] => false
  end.

(** The trees of the grammar: the atoms are literals, identifiers and
    field names, a prefix is [!] or a sign that no sign follows, the
    binary operators are those of [expectedOperator], a form name is an
    identifier. *)
Fixpoint operandOk (o : Operand) : bool :=
  match o with
  | Atom t => isAtom (type t)
  | Prefix op o' =>
      (TokenType.eqb (type op) TokenType.Not
       || (isSign (type op) && negb (startsWithSign (operandTokens o'))))
      && operandOk o'
  | Paren e => exprOk e
  | EmptyArray => true
  | Array es => elemsOk es
  | Includes l i => exprOk l && exprOk i
  | Percent a b => exprOk a && exprOk b
  | CountForms form => TokenType.eqb (type form) TokenType.Indent
  | CountFormsIf form cond =>
      TokenType.eqb (type form) TokenType.Indent && exprOk cond
  end

with exprOk (e : Expr) : bool :=
  match e with
  | Single o => operandOk o
  | Binary o op e' => operandOk o && isOperator op && exprOk e'
  end

with elemsOk (es : Elems) : bool :=
  match es with
  | Last e => exprOk e
  | More e es' => exprOk e && elemsOk es'
  end.

(** The first token of an operand closes nothing. *)
Definition opens (toks : list Token) : Prop :=
  exists t rest, toks = t :: rest /\ isClosing (type t) = false.

Lemma grammar_opens :
  (forall o, operandOk o = true -> opens (operandTokens o))
  /\ (forall e, exprOk e = true -> opens (exprTokens e))
  /\ (forall es, elemsOk es = true -> opens (elemsTokens es)).
Proof.
  apply grammar_ind; simpl; intros;
    try (eexists; eexists; split; [reflexivity|reflexivity]).
  - exists t, []. split; [reflexivity|]. now destruct (type t).
  - apply andb_true_iff in H0. destruct H0 as [Hop _].
    exists op, (operandTokens o). split; [reflexivity|].
    unfold isSign in Hop. now destruct (type op).
  - auto.
  - apply andb_true_iff in H1. destruct H1 as [H1 _].
    apply andb_true_iff in H1. destruct H1 as [Ho _].
    destruct (H Ho) as (t & rest & -> & Ht). now exists t, (rest ++ op :: exprTokens e).
  - auto.
  - apply andb_true_iff in H1. destruct H1 as [He _].
    destruct (H He) as (t & rest & -> & Ht).
    now exists t, (rest ++ tComma :: elemsTokens es).
Qed.

Definition OperandSpec (o : Operand) : Prop :=
  operandOk o = true -> operandAt (operandTokens o) (operandJs o).

Definition ExprSpec (e : Expr) : Prop :=
  exprOk e = true ->
  forall js0 endType next rest,
    validEnd endType = true -> isEnd endType (type next) = true ->
    runExpressionLoop js0 endType (exprTokens e ++ next :: rest)
    = Return (js0 +++ exprJs e, next :: rest).

Definition ElemsSpec (es : Elems) : Prop :=
  elemsOk es = true ->
  forall js0 rest,
    runListLoop js0 TokenType.RBracket (elemsTokens es ++ tRBracket :: rest)
    = Return (js0 +++ elemsJs es, tRBracket :: rest).

Lemma expr_runExpression e endType next rest :
  ExprSpec e -> exprOk e = true ->
  validEnd endType = true -> isEnd endType (type next) = true ->
  runExpression endType (exprTokens e ++ next :: rest)
  = Return (exprJs e, next :: rest).
Proof.
  intros H He Hv Hn. rewrite runExpression_loop by exact Hv.
  now rewrite (H He "" endType next rest Hv Hn).
Qed.

Lemma isEnd_notLParen endType next rest :
  validEnd endType = true -> isEnd endType (type next) = true ->
  notLParen (next :: rest).
Proof.
  intros Hv Hn. simpl. intro E. rewrite E in Hn. now destruct endType.
Qed.

Lemma grammar_translates :
  (forall o, OperandSpec o) /\ (forall e, ExprSpec e) /\ (forall es, ElemsSpec es).
Proof.
  apply grammar_ind.
  - (* Atom *)
    intros t H. now apply operand_atom.
  - (* Prefix *)
    intros op o IH H js e rest Hr. simpl in H.
    apply andb_true_iff in H. destruct H as [Hop Ho].
    specialize (IH Ho). cbn [operandTokens operandJs app].
    rewrite runExpressionLoop_cons.
    apply orb_true_iff in Hop. destruct Hop as [Hop|Hop].
    + apply type_eqb_eq in Hop. rewrite Hop. unfold prefixJs. rewrite Hop.
      rewrite (IH _ e rest Hr). now rewrite append_assoc.
    + apply andb_true_iff in Hop. destruct Hop as [Hsign Hnext].
      destruct (proj1 grammar_opens o Ho) as (t & ts & Et & _).
      rewrite Et in Hnext. simpl in Hnext. apply negb_true_iff in Hnext.
      assert (E : (next <- peek ;;
                   if TokenType.eqb (type next) TokenType.Plus
                      || TokenType.eqb (type next) TokenType.Minus
                   then (bad <- pop ;; throwUnexpected bad)
                   else runExpressionLoop (js +++ text op) e)
                    (operandTokens o ++ rest)
                  = runExpressionLoop (js +++ text op) e
                      (operandTokens o ++ rest)).
      { rewrite Et. unfold bind, peek. cbn [app]. unfold isSign in Hnext.
        now rewrite Hnext. }
      unfold isSign in Hsign. unfold prefixJs.
      destruct (type op); try discriminate Hsign;
        rewrite E, (IH _ e rest Hr); now rewrite append_assoc.
  - (* Paren *)
    intros e IH H js endType rest Hr. simpl in H.
    cbn [operandTokens operandJs app]. rewrite runExpressionLoop_cons.
    cbn [type tLParen]. unfold bind at 1. rewrite <- app_assoc. cbn [app].
    rewrite (expr_runExpression e TokenType.RParen tRParen rest IH H eq_refl eq_refl). cbv beta iota.
    unfold bind. rewrite consume_cons. reflexivity.
  - (* EmptyArray *)
    intros _ js e rest Hr. cbn [operandTokens operandJs app].
    now rewrite runExpressionLoop_empty_array.
  - (* Array *)
    intros es IH H js e rest Hr. simpl in H.
    cbn [operandTokens operandJs app]. rewrite runExpressionLoop_cons.
    cbn [type tLBracket]. unfold bind at 1. rewrite <- app_assoc. cbn [app].
    rewrite runList_eq. unfold parseListBody. cbn [TokenType.eqb TokenType.code Nat.eqb negb andb].
    destruct (proj2 (proj2 grammar_opens) es H) as (t & ts & Et & Ht).
    assert (E : (next <- peek ;;
                 if isClosing (type next) then ret ""
                 else runListLoop "" TokenType.RBracket)
                  (elemsTokens es ++ tRBracket :: rest)
                = runListLoop "" TokenType.RBracket
                    (elemsTokens es ++ tRBracket :: rest)).
    { rewrite Et. unfold bind, peek. cbn [app]. now rewrite Ht. }
    rewrite E, (IH H "" rest). unfold bind. rewrite consume_cons. reflexivity.
  - (* Includes *)
    intros l IHl i IHi H js e rest Hr. simpl in H.
    apply andb_true_iff in H. destruct H as [Hl Hi].
    cbn [operandTokens operandJs app]. rewrite <- ?app_assoc; cbn [app].
    rewrite <- ?app_assoc; cbn [app]. rewrite runExpressionLoop_cons.
    cbn [type text tName]. unfold bind at 1. unfold peek. cbn [type tLParen].
    cbn [TokenType.eqb TokenType.code Nat.eqb]. unfold bind at 1.
    rewrite runFunctionCall_eq. unfold parseFunctionCallBody.
    cbn [String.eqb Ascii.eqb Bool.eqb]. cbv beta iota.
    unfold bind at 1. rewrite consume_cons. cbn [type tLParen TokenType.eqb TokenType.code Nat.eqb].
    unfold bind at 1.
    rewrite (expr_runExpression l TokenType.Comma tComma _ IHl Hl eq_refl eq_refl). cbv beta iota.
    unfold bind at 1. rewrite consume_cons. cbn [type tComma TokenType.eqb TokenType.code Nat.eqb].
    unfold bind at 1.
    rewrite (expr_runExpression i TokenType.Comma tRParen _ IHi Hi eq_refl eq_refl). cbv beta iota.
    unfold bind at 1. rewrite consume_cons. cbn [type tRParen TokenType.eqb TokenType.code Nat.eqb].
    unfold ret. now rewrite !append_assoc.
  - (* Percent *)
    intros a IHa b IHb H js e rest Hr. simpl in H.
    apply andb_true_iff in H. destruct H as [Ha Hb].
    cbn [operandTokens operandJs app]. rewrite <- ?app_assoc; cbn [app].
    rewrite <- ?app_assoc; cbn [app]. rewrite runExpressionLoop_cons.
    cbn [type text tName]. unfold bind at 1. unfold peek. cbn [type tLParen].
    cbn [TokenType.eqb TokenType.code Nat.eqb]. unfold bind at 1.
    rewrite runFunctionCall_eq. unfold parseFunctionCallBody.
    cbn [String.eqb Ascii.eqb Bool.eqb]. cbv beta iota.
    unfold bind at 1. rewrite consume_cons. cbn [type tLParen TokenType.eqb TokenType.code Nat.eqb].
    unfold bind at 1.
    rewrite (expr_runExpression a TokenType.Comma tComma _ IHa Ha eq_refl eq_refl). cbv beta iota.
    unfold bind at 1. rewrite consume_cons. cbn [type tComma TokenType.eqb TokenType.code Nat.eqb].
    unfold bind at 1.
    rewrite (expr_runExpression b TokenType.Comma tRParen _ IHb Hb eq_refl eq_refl). cbv beta iota.
    unfold bind at 1. rewrite consume_cons. cbn [type tRParen TokenType.eqb TokenType.code Nat.eqb].
    unfold ret. now rewrite !append_assoc.
  - (* CountForms *)
    intros form H js e rest Hr. simpl in H. apply type_eqb_eq in H.
    cbn [operandTokens operandJs app]. rewrite <- ?app_assoc; cbn [app].
    rewrite <- ?app_assoc; cbn [app]. rewrite runExpressionLoop_cons.
    cbn [type text tName]. unfold bind at 1. unfold peek. cbn [type tLParen].
    cbn [TokenType.eqb TokenType.code Nat.eqb]. unfold bind at 1.
    rewrite runFunctionCall_eq. unfold parseFunctionCallBody.
    cbn [String.eqb Ascii.eqb Bool.eqb]. cbv beta iota.
    rewrite runCountForms_eq. unfold parseCountFormsBody.
    unfold bind at 1. rewrite consume_cons. cbn [type tLParen TokenType.eqb TokenType.code Nat.eqb].
    unfold bind at 1. rewrite consume_cons, H. cbn [TokenType.eqb TokenType.code Nat.eqb].
    unfold bind, pop. reflexivity.
  - (* CountFormsIf *)
    intros form cond IH H js e rest Hr. simpl in H.
    apply andb_true_iff in H. destruct H as [H Hc]. apply type_eqb_eq in H.
    cbn [operandTokens operandJs app]. rewrite <- ?app_assoc; cbn [app].
    rewrite <- ?app_assoc; cbn [app]. rewrite runExpressionLoop_cons.
    cbn [type text tName]. unfold bind at 1. unfold peek. cbn [type tLParen].
    cbn [TokenType.eqb TokenType.code Nat.eqb]. unfold bind at 1.
    rewrite runFunctionCall_eq. unfold parseFunctionCallBody.
    cbn [String.eqb Ascii.eqb Bool.eqb]. cbv beta iota.
    rewrite runCountForms_eq. unfold parseCountFormsBody.
    unfold bind at 1. rewrite consume_cons. cbn [type tLParen TokenType.eqb TokenType.code Nat.eqb].
    unfold bind at 1. rewrite consume_cons, H. cbn [TokenType.eqb TokenType.code Nat.eqb].
    unfold bind at 1. unfold pop. cbn [type tComma]. unfold bind at 1.
    rewrite (expr_runExpression cond TokenType.Comma tRParen _ IH Hc eq_refl eq_refl). cbv beta iota.
    unfold bind. rewrite consume_cons. reflexivity.
  - (* Single *)
    intros o IH H js0 endType next rest Hv Hn. simpl in H.
    cbn [exprTokens exprJs].
    rewrite (IH H js0 endType (next :: rest) (isEnd_notLParen _ _ _ Hv Hn)).
    now apply afterOperand_end.
  - (* Binary *)
    intros o IHo op e IHe H js0 endType next rest Hv Hn. simpl in H.
    apply andb_true_iff in H. destruct H as [H He].
    apply andb_true_iff in H. destruct H as [Ho Hop].
    assert (Hop' : expectedOperator op <> None).
    { unfold isOperator in Hop. now destruct (expectedOperator op). }
    cbn [exprTokens exprJs]. rewrite <- app_assoc. cbn [app].
    rewrite (IHo Ho js0 endType).
    + rewrite afterOperand_operator
        by now apply expectedOperator_not_end.
      unfold operatorJs. destruct (expectedOperator op) as [o'|];
        [|contradiction].
      rewrite (IHe He _ endType next rest Hv Hn). now rewrite !append_assoc.
    + simpl. intro E. unfold expectedOperator in Hop'. now rewrite E in Hop'.
  - (* Last *)
    intros e IH H js0 rest. simpl in H. cbn [elemsTokens elemsJs].
    rewrite runListLoop_eq. unfold parseListIter. unfold bind at 1.
    rewrite (expr_runExpression e TokenType.RBracket tRBracket rest IH H eq_refl eq_refl). cbv beta iota.
    reflexivity.
  - (* More *)
    intros e IHe es IHes H js0 rest. simpl in H.
    apply andb_true_iff in H. destruct H as [He Hes].
    cbn [elemsTokens elemsJs]. rewrite <- app_assoc. cbn [app].
    rewrite runListLoop_eq. unfold parseListIter. unfold bind at 1.
    rewrite (expr_runExpression e TokenType.RBracket tComma _ IHe He eq_refl eq_refl). cbv beta iota.
    unfold bind at 1. unfold peek. cbn [type tComma isClosing TokenType.eqb TokenType.code Nat.eqb orb].
    unfold bind at 1. rewrite consume_cons. cbn [type tComma TokenType.eqb TokenType.code Nat.eqb].
    rewrite (IHes Hes). now rewrite !append_assoc.
Qed.



(** X6: The parser translates the tokens of every tree of the grammar to the
    translation of the tree, up to the token that ends the expression;
    so a formula whose tokens are those of a tree translates to the
    translation of the tree.  Operators come out in the order of the
    formula: no one binds more than another. *)
Theorem grammar_translation :
  (forall e endType next rest,
     exprOk e = true ->
     validEnd endType = true -> isEnd endType (type next) = true ->
     runExpression endType (exprTokens e ++ next :: rest)
     = Return (exprJs e, next :: rest))
  /\ (forall formula e,
        exprOk e = true ->
        tokenize formula = Return (exprTokens e ++ [mkToken TokenType.END ""]) ->
        indicatorToJs formula = Return (exprJs e)).
Proof.
  split.
  - intros e endType next rest He Hv Hn.
    now apply expr_runExpression; [apply grammar_translates|..].
  - intros formula e He Ht. rewrite (indicatorToJs_tokens _ _ Ht).
    rewrite (expr_runExpression e TokenType.END (mkToken TokenType.END "") []);
      auto. apply grammar_translates.
Qed.

Definition sample : Expr :=
  Binary
    (Prefix (mkToken TokenType.Minus "-")
       (Paren (Binary (Atom (mkToken TokenType.Number "1"))
                 (mkToken TokenType.Plus "+")
                 (Single (Atom (mkToken TokenType.Name "$a"))))))
    (mkToken TokenType.Indent "AND")
    (Single
       (Includes
          (Single (Array (More (Single (Atom (mkToken TokenType.Number "2")))
                            (Last (Single (Atom (mkToken TokenType.Indent "b")))))))
          (Single (CountForms (mkToken TokenType.Indent "Visit"))))).

Lemma grammar_translation_witness :
  runExpression TokenType.END
    (exprTokens sample ++ mkToken TokenType.END "" :: [])
  = Return ("-(1 + **a**) && ([2, b]).includes(countOccurrences(Visit, []))",
            [mkToken TokenType.END ""])
  /\ indicatorToJs "-(1+$a) AND INCLUDES([2,b], COUNTFORMS(Visit))"
     = Return "-(1 + **a**) && ([2, b]).includes(countOccurrences(Visit, []))".
Proof.
  split.
  - apply (proj1 grammar_translation sample TokenType.END); reflexivity.
  - apply (proj2 grammar_translation
             "-(1+$a) AND INCLUDES([2,b], COUNTFORMS(Visit))" sample);
      reflexivity.
Defined.

(** ** [PERCENT] *)

(** X7: [PERCENT(a, b)] translates to [getTrend(A, B)] with [A] and [B] the
    translations of the arguments, and a call of [PERCENT] translates only
    when it has two arguments between parentheses. *)
Theorem percent_translation toks js rest :
  runFunctionCall "PERCENT" toks = Return (js, rest) <->
  exists lp aToks aJs comma bToks bJs rp,
    toks = lp :: aToks /\ type lp = TokenType.LParen
    /\ runExpression TokenType.Comma aToks = Return (aJs, comma :: bToks)
    /\ type comma = TokenType.Comma
    /\ runExpression TokenType.Comma bToks = Return (bJs, rp :: rest)
    /\ type rp = TokenType.RParen
    /\ js = "getTrend(" +++ aJs +++ ", " +++ bJs +++ ")".
Proof.
  rewrite runFunctionCall_eq. unfold parseFunctionCallBody.
  cbn [String.eqb Ascii.eqb Bool.eqb]. cbv iota. split.
  - intro H.
    apply bind_Return in H. destruct H as (lp & t1 & H1 & H).
    apply consume_Return in H1. destruct H1 as [-> Hlp].
    apply bind_Return in H. destruct H as (aJs & t2 & H2 & H).
    apply bind_Return in H. destruct H as (comma & t3 & H3 & H).
    apply consume_Return in H3. destruct H3 as [-> Hcomma].
    apply bind_Return in H. destruct H as (bJs & t4 & H4 & H).
    apply bind_Return in H. destruct H as (rp & t5 & H5 & H).
    apply consume_Return in H5. destruct H5 as [-> Hrp].
    injection H as <- <-.
    exists lp, t1, aJs, comma, t3, bJs, rp.
    repeat split; auto. now rewrite !append_assoc.
  - intros (lp & t1 & aJs & comma & t3 & bJs & rp
            & -> & Hlp & H2 & Hcomma & H4 & Hrp & ->).
    unfold bind at 1. rewrite consume_cons, Hlp.
    cbn [TokenType.eqb TokenType.code Nat.eqb].
    unfold bind at 1. rewrite H2.
    unfold bind at 1. rewrite consume_cons, Hcomma.
    cbn [TokenType.eqb TokenType.code Nat.eqb].
    unfold bind at 1. rewrite H4.
    unfold bind. rewrite consume_cons, Hrp.
    cbn [TokenType.eqb TokenType.code Nat.eqb].
    unfold ret. now rewrite !append_assoc.
Qed.

Lemma percent_translation_witness :
  runFunctionCall "PERCENT"
    [mkToken TokenType.LParen "("; mkToken TokenType.Name "$now";
     mkToken TokenType.Comma ","; mkToken TokenType.Name "$before";
     mkToken TokenType.RParen ")"; mkToken TokenType.END ""]
  = Return ("getTrend(**now**, **before**)", [mkToken TokenType.END ""]).
Proof.
  apply percent_translation.
  exists (mkToken TokenType.LParen "("),
    [mkToken TokenType.Name "$now"; mkToken TokenType.Comma ",";
     mkToken TokenType.Name "$before"; mkToken TokenType.RParen ")";
     mkToken TokenType.END ""],
    "**now**", (mkToken TokenType.Comma ","),
    [mkToken TokenType.Name "$before"; mkToken TokenType.RParen ")";
     mkToken TokenType.END ""],
    "**before**", (mkToken TokenType.RParen ")").
  repeat split; reflexivity.
Defined.

(** ** Names of functions *)

(** X8: The names of functions are a closed list: a call of a function with
    another name throws, whatever its arguments. *)
Theorem unknown_function_rejected name :
  name <> "INCLUDES" -> name <> "PERCENT" -> name <> "COUNTFORMS" ->
  (forall toks,
     runFunctionCall name toks = Throw ("unsupported function: " +++ name))
  /\ (forall formula lp rest,
        tokenize formula = Return (mkToken TokenType.Indent name :: lp :: rest) ->
        type lp = TokenType.LParen ->
        indicatorToJs formula = Throw ("unsupported function: " +++ name)).
Proof.
  intros H1 H2 H3.
  assert (Hs : supported name = false).
  { unfold supported. apply String.eqb_neq in H1, H2, H3.
    now rewrite H1, H2, H3. }
  split.
  - intro toks. now apply (proj1 unsupported_function_throws).
  - intros formula lp rest Ht Hlp.
    now apply (proj2 (proj2 unsupported_function_throws) formula
                 (mkToken TokenType.Indent name) lp rest).
Qed.

Lemma unknown_function_rejected_witness :
  runFunctionCall "includes" [mkToken TokenType.LParen "("]
  = Throw ("unsupported function: " +++ "includes")
  /\ indicatorToJs "MAX(1, 2)" = Throw ("unsupported function: " +++ "MAX").
Proof.
  split.
  - apply (proj1 (unknown_function_rejected "includes"
                    ltac:(discriminate) ltac:(discriminate) ltac:(discriminate))).
  - apply (proj2 (unknown_function_rejected "MAX"
                    ltac:(discriminate) ltac:(discriminate) ltac:(discriminate))
             "MAX(1, 2)" (mkToken TokenType.LParen "(")
             [mkToken TokenType.Number "1"; mkToken TokenType.Comma ",";
              mkToken TokenType.Number "2"; mkToken TokenType.RParen ")";
              mkToken TokenType.END ""]);
      reflexivity.
Defined.

(** ** Where the parser stops

    An error of the parser on an unexpected token prints the tokens of
    the formula from that token on. *)

Definition suffixOf (s all : list Token) : Prop := exists pre, all = pre ++ s.

Lemma suffixOf_refl s : suffixOf s s.
Proof. now exists []. Qed.

Lemma suffixOf_cons t s all : suffixOf (t :: s) all -> suffixOf s all.
Proof.
  intros (pre & ->). exists (pre ++ [t]). now rewrite <- app_assoc.
Qed.

Lemma suffixOf_trans a b c : suffixOf a b -> suffixOf b c -> suffixOf a c.
Proof.
  intros (p & ->) (q & ->). exists (q ++ p). now rewrite app_assoc.
Qed.

Definition errorAt (all : list Token) (msg : string) : Prop :=
  msg = "unexpected end of token stream"
  \/ (exists name,
        supported name = false /\ msg = "unsupported function: " +++ name)
  \/ (exists pre tok rest,
        all = pre ++ tok :: rest /\ type tok <> TokenType.END
        /\ msg = "unexpected token at the start of: "
                 +++ printTokens (tok :: rest)).

(** [located all toks r]: the parser was run on [toks], a suffix of
    [all]; what it leaves is a suffix of [toks] and what it throws is an
    error at a token of [all]. *)
Definition located {A} (all toks : list Token)
  (r : Completion (A * list Token)) : Prop :=
  match r with
  | Return (_, rest) => suffixOf rest toks
  | Throw msg => errorAt all msg
  | _ => True
  end.

Lemma located_ret {A} all toks (a : A) : located all toks (ret a toks).
Proof. apply suffixOf_refl. Qed.

Lemma located_unexpected {A} all toks tok rest :
  suffixOf (tok :: rest) all ->
  located all toks (throwUnexpected (A := A) tok rest).
Proof.
  intros (pre & ->). unfold throwUnexpected, located, unexpectedTokenError.
  destruct (TokenType.eqb (type tok) TokenType.END) eqn:E.
  - now left.
  - right; right. exists pre, tok, rest.
    split; [reflexivity|]. split; [now apply type_eqb_neq|reflexivity].
Qed.

Lemma located_weaken {A} all toks toks' (r : Completion (A * list Token)) :
  suffixOf toks toks' -> located all toks r -> located all toks' r.
Proof.
  intros Hs. unfold located. destruct r as [[a rest]| | |]; auto.
  intro H. now apply (suffixOf_trans _ toks).
Qed.

Lemma located_pop {A} all toks (k : Token -> Parser A) :
  (forall tok rest, toks = tok :: rest -> located all rest (k tok rest)) ->
  located all toks (bind pop k toks).
Proof.
  intros Hk. unfold bind, pop. destruct toks as [|tok rest]; [exact I|].
  apply (located_weaken all rest); [|now apply Hk].
  now exists [tok].
Qed.

Lemma located_peek {A} all toks (k : Token -> Parser A) :
  (forall tok rest, toks = tok :: rest -> located all toks (k tok toks)) ->
  located all toks (bind peek k toks).
Proof.
  intros Hk. unfold bind, peek. destruct toks as [|tok rest]; [exact I|].
  now apply (Hk tok rest).
Qed.

Lemma consume_cons_any ty toks :
  consume ty toks =
  match toks with
  | [] => TypeError
  | tok :: rest =>
      if TokenType.eqb (type tok) ty then Return (tok, rest)
      else throwUnexpected tok rest
  end.
Proof.
  unfold consume, bind, pop. destruct toks as [|tok rest]; [reflexivity|].
  now destruct (TokenType.eqb (type tok) ty).
Qed.

Lemma located_consume {A} all toks ty (k : Token -> Parser A) :
  suffixOf toks all ->
  (forall tok rest, toks = tok :: rest -> type tok = ty ->
     located all rest (k tok rest)) ->
  located all toks (bind (consume ty) k toks).
Proof.
  intros Hs Hk. unfold bind. rewrite consume_cons_any.
  destruct toks as [|tok rest]; [exact I|].
  destruct (TokenType.eqb (type tok) ty) eqn:E.
  - apply (located_weaken all rest); [now exists [tok]|].
    apply Hk; [reflexivity|now apply type_eqb_eq].
  - apply (@located_unexpected A all (tok :: rest) tok rest Hs).
Qed.

Lemma located_call {A B} all toks (p : Parser A) (k : A -> Parser B) :
  located all toks (p toks) ->
  (forall a rest, suffixOf rest toks -> located all rest (k a rest)) ->
  located all toks (bind p k toks).
Proof.
  intros Hp Hk. unfold bind. unfold located in Hp.
  destruct (p toks) as [[a rest]| | |]; auto.
  apply (located_weaken all rest); [exact Hp|]. now apply Hk.
Qed.

Lemma located_afterOperand all loop e js toks :
  suffixOf toks all ->
  (forall js' rest, suffixOf rest toks -> located all rest (loop js' rest)) ->
  located all toks (afterOperand loop e js toks).
Proof.
  intros Hs Hloop. unfold afterOperand.
  apply located_peek. intros next rest ->.
  destruct (isEnd e (type next)); [apply located_ret|].
  apply located_pop. intros tok rest' [= <- <-].
  assert (Hr : suffixOf rest (next :: rest)) by now exists [next].
  destruct (isPassThrough (type next)); [now apply Hloop|].
  destruct (type next); try (now apply located_unexpected);
    try (now apply Hloop).
  destruct (String.eqb (text next) "AND"); [now apply Hloop|].
  destruct (String.eqb (text next) "OR"); [now apply Hloop|].
  now apply located_unexpected.
Qed.

Definition Located (fuel : nat) : Prop :=
  forall all,
    (forall e toks, validEnd e = true -> suffixOf toks all ->
       located all toks (parseExpression fuel e toks))
    /\ (forall js e toks, suffixOf toks all ->
          located all toks (parseExpressionLoop fuel js e toks))
    /\ (forall e toks, listEnd e = true -> suffixOf toks all ->
          located all toks (parseList fuel e toks))
    /\ (forall js e toks, validEnd e = true -> suffixOf toks all ->
          located all toks (parseListLoop fuel js e toks))
    /\ (forall name toks, suffixOf toks all ->
          located all toks (parseFunctionCall fuel name toks))
    /\ (forall toks, suffixOf toks all ->
          located all toks (parseCountForms fuel toks)).

Ltac suffix :=
  match goal with
  | H : suffixOf ?a ?b, H' : suffixOf ?b ?c |- suffixOf ?a ?c =>
      exact (suffixOf_trans a b c H H')
  | H : suffixOf (?t :: ?a) ?c |- suffixOf ?a ?c =>
      exact (suffixOf_cons t a c H)
  | |- suffixOf _ _ => assumption
  end.

Lemma parser_located : forall fuel, Located fuel.
Proof.
  induction fuel as [|fuel IH]; intro all.
  { repeat split; intros; exact I. }
  destruct (IH all) as (IHe & IHl & IHL & IHLL & IHf & IHc).
  repeat split.
  - (* parseExpression *)
    intros e toks Hv Hs. rewrite parseExpression_S. unfold parseExpressionBody.
    rewrite Hv. simpl negb. cbv iota. now apply IHl.
  - (* parseExpressionLoop *)
    intros js e toks Hs. rewrite parseExpressionLoop_S.
    unfold parseExpressionIter.
    apply located_pop. intros tok rest ->.
    assert (Hr : suffixOf rest all) by suffix.
    assert (Hafter : forall js' rest',
               suffixOf rest' all ->
               located all rest'
                 (afterOperand (fun js0 => parseExpressionLoop fuel js0 e) e
                    js' rest')).
    { intros js' rest' Hs'. apply located_afterOperand; [exact Hs'|].
      intros js0 rest0 H0. apply IHl. suffix. }
    destruct (type tok) eqn:Ety; try (now apply located_unexpected);
      try (now apply Hafter).
    + (* LParen *)
      apply located_call; [now apply IHe|].
      intros inner rest1 H1. assert (suffixOf rest1 all) by suffix.
      apply located_consume; [assumption|]. intros rp rest2 -> _.
      apply Hafter. suffix.
    + (* LBracket *)
      apply located_call; [now apply IHL|].
      intros inner rest1 H1. assert (suffixOf rest1 all) by suffix.
      apply located_consume; [assumption|]. intros rp rest2 -> _.
      apply Hafter. suffix.
    + (* Plus *)
      apply located_peek. intros next rest1 ->.
      destruct (_ || _); [|now apply IHl].
      apply located_pop. intros bad rest2 [= <- <-].
      now apply located_unexpected.
    + (* Minus *)
      apply located_peek. intros next rest1 ->.
      destruct (_ || _); [|now apply IHl].
      apply located_pop. intros bad rest2 [= <- <-].
      now apply located_unexpected.
    + (* Not *)
      now apply IHl.
    + (* Indent *)
      apply located_peek. intros next rest1 ->.
      destruct (TokenType.eqb (type next) TokenType.LParen);
        [|now apply Hafter].
      apply located_call; [now apply IHf|].
      intros call rest2 H2. apply Hafter. suffix.
  - (* parseList *)
    intros e toks He Hs. rewrite parseList_S. unfold parseListBody.
    replace (negb (TokenType.eqb e TokenType.Comma)
             && negb (TokenType.eqb e TokenType.RBracket)) with false
      by (destruct e; try discriminate He; reflexivity).
    apply located_peek. intros next rest ->.
    destruct (isClosing (type next)); [apply located_ret|].
    apply IHLL; [now apply listEnd_validEnd|exact Hs].
  - (* parseListLoop *)
    intros js e toks He Hs. rewrite parseListLoop_S. unfold parseListIter.
    apply located_call; [now apply IHe|].
    intros item rest H1. assert (suffixOf rest all) by suffix.
    apply located_peek. intros next rest1 ->.
    destruct (isClosing (type next)); [apply located_ret|].
    apply located_consume; [assumption|]. intros comma rest2 [= <- <-] _.
    apply IHLL; [exact He|suffix].
  - (* parseFunctionCall *)
    intros name toks Hs. rewrite parseFunctionCall_S.
    unfold parseFunctionCallBody.
    destruct (String.eqb name "INCLUDES") eqn:E1;
      [|destruct (String.eqb name "PERCENT") eqn:E2;
        [|destruct (String.eqb name "COUNTFORMS") eqn:E3]].
    + apply located_consume; [exact Hs|]. intros lp rest -> _.
      assert (suffixOf rest all) by suffix.
      apply located_call; [now apply IHe|].
      intros a rest1 H1. assert (suffixOf rest1 all) by suffix.
      apply located_consume; [assumption|]. intros comma rest2 -> _.
      assert (suffixOf rest2 all) by suffix.
      apply located_call; [now apply IHe|].
      intros b rest3 H3. assert (suffixOf rest3 all) by suffix.
      apply located_consume; [assumption|]. intros rp rest4 -> _.
      apply located_ret.
    + apply located_consume; [exact Hs|]. intros lp rest -> _.
      assert (suffixOf rest all) by suffix.
      apply located_call; [now apply IHe|].
      intros a rest1 H1. assert (suffixOf rest1 all) by suffix.
      apply located_consume; [assumption|]. intros comma rest2 -> _.
      assert (suffixOf rest2 all) by suffix.
      apply located_call; [now apply IHe|].
      intros b rest3 H3. assert (suffixOf rest3 all) by suffix.
      apply located_consume; [assumption|]. intros rp rest4 -> _.
      apply located_ret.
    + now apply IHc.
    + right; left. exists name. split; [|reflexivity].
      unfold supported. now rewrite E1, E2, E3.
  - (* parseCountForms *)
    intros toks Hs. rewrite parseCountForms_S. unfold parseCountFormsBody.
    apply located_consume; [exact Hs|]. intros lp rest -> _.
    assert (suffixOf rest all) by suffix.
    apply located_consume; [assumption|]. intros form rest1 -> _.
    assert (suffixOf rest1 all) by suffix.
    apply located_pop. intros tok rest2 ->.
    assert (suffixOf rest2 all) by suffix.
    destruct (type tok); try (now apply located_unexpected).
    + apply located_ret.
    + apply located_call; [now apply IHe|].
      intros b rest3 H3. assert (suffixOf rest3 all) by suffix.
      apply located_consume; [assumption|]. intros rp rest4 -> _.
      apply located_ret.
Qed.

(** X9: When the parser throws on a formula, the error is the end of the
    stream, a function that is not supported, or an unexpected token: the
    message then prints the tokens of the formula from that token on. *)
Theorem unexpected_token_located formula toks msg :
  tokenize formula = Return toks ->
  indicatorToJs formula = Throw msg ->
  msg = "unexpected end of token stream"
  \/ (exists name,
        supported name = false /\ msg = "unsupported function: " +++ name)
  \/ (exists pre tok rest,
        toks = pre ++ tok :: rest /\ type tok <> TokenType.END
        /\ msg = "unexpected token at the start of: "
                 +++ printTokens (tok :: rest)).
Proof.
  intros Ht H. rewrite (indicatorToJs_tokens _ _ Ht) in H.
  pose proof (proj1 (parser_located (4 * List.length toks + 2) toks)
                TokenType.END toks eq_refl (suffixOf_refl toks)) as L.
  fold (runExpression TokenType.END toks) in L.
  destruct (runExpression TokenType.END toks) as [[js rest]|m| |];
    try discriminate H.
  injection H as ->. exact L.
Qed.

Lemma unexpected_token_located_witness :
  "unexpected token at the start of:  * 2"
  = "unexpected end of token stream"
  \/ (exists name,
        supported name = false
        /\ "unexpected token at the start of:  * 2"
           = "unsupported function: " +++ name)
  \/ (exists pre tok rest,
        [mkToken TokenType.Number "1"; mkToken TokenType.Plus "+";
         mkToken TokenType.Mul "*"; mkToken TokenType.Number "2";
         mkToken TokenType.END ""] = pre ++ tok :: rest
        /\ type tok <> TokenType.END
        /\ "unexpected token at the start of:  * 2"
           = "unexpected token at the start of: "
             +++ printTokens (tok :: rest)).
Proof.
  apply (unexpected_token_located "1 + * 2"); reflexivity.
Defined.


(** ** Nothing but whitespace is lost *)

Lemma trimStart_split s :
  exists ws, allChars isSpace ws = true /\ s = ws +++ trimStart s.
Proof.
  induction s as [|c s (ws & Hws & IH)]; [now exists ""|].
  simpl. destruct (isSpace c) eqn:E.
  - exists (String c ws). simpl. rewrite E, Hws. split; [reflexivity|].
    now rewrite <- IH.
  - now exists "".
Qed.

Lemma trimEnd_split s :
  exists ws, allChars isSpace ws = true /\ s = trimEnd s +++ ws.
Proof.
  induction s as [|c s (ws & Hws & IH)]; [now exists ""|].
  simpl. destruct (trimEnd s) as [|d t] eqn:E.
  - simpl in IH. subst ws. destruct (isSpace c) eqn:Ec.
    + exists (String c s). simpl. now rewrite Ec, Hws.
    + exists s. split; [exact Hws|reflexivity].
  - exists ws. split; [exact Hws|].
    cbn [String.append] in IH |- *. now rewrite <- IH.
Qed.

Lemma trim_split s :
  exists ws1 ws2,
    allChars isSpace ws1 = true /\ allChars isSpace ws2 = true
    /\ s = ws1 +++ trim s +++ ws2.
Proof.
  destruct (trimStart_split s) as (ws1 & H1 & E1).
  destruct (trimEnd_split (trimStart s)) as (ws2 & H2 & E2).
  exists ws1, ws2. split; [exact H1|]. split; [exact H2|].
  unfold trim. now rewrite <- E2.
Qed.

(** A formula laid out as its tokens, each after some whitespace. *)
Fixpoint layout (parts : list (string * Token)) : string :=
  match parts with
  | [] => ""
  | (ws, t) :: parts' => ws +++ text t +++ layout parts'
  end.

Definition blank (ws : string) : Prop := allChars isSpace ws = true.

Lemma tokenizeLoop_layout : forall fuel acc s toks,
  tokenizeLoop fuel acc s = Return toks ->
  exists more gaps trailing,
    toks = acc ++ more
    /\ List.length gaps = List.length more
    /\ Forall blank gaps /\ blank trailing
    /\ s = layout (combine gaps more) +++ trailing.
Proof.
  induction fuel as [|fuel IH]; intros acc s toks; [discriminate|].
  rewrite tokenizeLoop_S.
  destruct (trim_split s) as (ws1 & ws2 & H1 & H2 & Es).
  destruct (firstToken (trim s)) as [t| | |] eqn:Et; try discriminate.
  apply firstToken_Return in Et.
  destruct Et as [[Etrim ->]|(Hty & Htx & rest & Hrest)].
  - simpl. intros [= <-].
    exists [mkToken TokenType.END ""], [ws1], ws2.
    repeat split; auto. simpl. rewrite Etrim in Es. simpl in Es.
    now rewrite append_nil_r.
  - apply type_eqb_neq in Hty. rewrite Hty. intro H.
    rewrite Hrest, slice_append in H. apply IH in H.
    destruct H as (more & gaps & trailing & -> & Hlen & Hg & Htr & Er).
    exists (t :: more), (ws1 :: gaps), (trailing +++ ws2).
    split; [now rewrite <- app_assoc|]. split; [simpl; now rewrite Hlen|].
    split; [now constructor|].
    split; [unfold blank in *; now rewrite allChars_append, Htr, H2|].
    simpl. rewrite Es at 1. rewrite Hrest, Er. now rewrite !append_assoc.
Qed.

(** X10: The formula is its tokens in order, the END marker last, with
    whitespace before each and at the end: the tokenizer drops whitespace
    and nothing else. *)
Theorem tokenize_lossless s toks :
  tokenize s = Return toks ->
  exists gaps trailing,
    List.length gaps = List.length toks
    /\ Forall blank gaps /\ blank trailing
    /\ s = layout (combine gaps toks) +++ trailing.
Proof.
  unfold tokenize. intro H. apply tokenizeLoop_layout in H.
  destruct H as (more & gaps & trailing & -> & H). now exists gaps, trailing.
Qed.

Lemma tokenize_lossless_witness :
  exists gaps trailing,
    List.length gaps
    = List.length [mkToken TokenType.Name "$a"; mkToken TokenType.LessOrEq "<=";
                   mkToken TokenType.Number "2"; mkToken TokenType.END ""]
    /\ Forall blank gaps /\ blank trailing
    /\ " $a <=2  "
       = layout (combine gaps
                   [mkToken TokenType.Name "$a"; mkToken TokenType.LessOrEq "<=";
                    mkToken TokenType.Number "2"; mkToken TokenType.END ""])
         +++ trailing.
Proof. apply (tokenize_lossless " $a <=2  "). reflexivity. Defined.



(** ** Only the formulas of the grammar translate

    What the parser returns, it returns on the tokens of a tree of the
    grammar, and it returns the translation of the tree. *)

(** The text of a punctuation token, as the tokenizer gives it. *)
Definition plain (t : Token) : Prop :=
  match type t with
  | TokenType.LParen => text t = "("
  | TokenType.RParen => text t = ")"
  | TokenType.LBracket => text t = "["
  | TokenType.RBracket => text t = "]"
  | TokenType.Comma => text t = ","
  | _ => True
  end.

Lemma wellFormed_plain t : wellFormed t -> plain t.
Proof. unfold wellFormed, plain. destruct (type t); auto. Qed.

Lemma plain_LParen t : plain t -> type t = TokenType.LParen -> t = tLParen.
Proof.
  destruct t as [ty tx]. unfold plain. simpl. intros H ->. now rewrite H.
Qed.

Lemma plain_RParen t : plain t -> type t = TokenType.RParen -> t = tRParen.
Proof.
  destruct t as [ty tx]. unfold plain. simpl. intros H ->. now rewrite H.
Qed.

Lemma plain_LBracket t :
  plain t -> type t = TokenType.LBracket -> t = tLBracket.
Proof.
  destruct t as [ty tx]. unfold plain. simpl. intros H ->. now rewrite H.
Qed.

Lemma plain_RBracket t :
  plain t -> type t = TokenType.RBracket -> t = tRBracket.
Proof.
  destruct t as [ty tx]. unfold plain. simpl. intros H ->. now rewrite H.
Qed.

Lemma plain_Comma t : plain t -> type t = TokenType.Comma -> t = tComma.
Proof.
  destruct t as [ty tx]. unfold plain. simpl. intros H ->. now rewrite H.
Qed.

Lemma indent_token t : type t = TokenType.Indent -> t = tName (text t).
Proof. destruct t as [ty tx]. simpl. now intros ->. Qed.

(** [parsed P toks r]: when the parser returns, on punctuation as the
    tokenizer gives it, [P] holds of what it returns, the tokens it took
    and the tokens it left. *)
Definition parsed {A} (P : A -> list Token -> list Token -> Prop)
  (toks : list Token) (r : Completion (A * list Token)) : Prop :=
  Forall plain toks ->
  match r with
  | Return (a, rest) => exists c, toks = c ++ rest /\ P a c rest
  | _ => True
  end.

Lemma parsed_ret {A} (P : A -> list Token -> list Token -> Prop) toks a :
  P a [] toks -> parsed P toks (ret a toks).
Proof. intros H _. now exists []. Qed.

Lemma parsed_Throw {A} (P : A -> list Token -> list Token -> Prop) toks msg :
  parsed P toks (Throw msg).
Proof. intros _. exact I. Qed.

Lemma parsed_impl {A} (P1 P2 : A -> list Token -> list Token -> Prop) toks r :
  parsed P1 toks r ->
  (forall a c rest, toks = c ++ rest -> P1 a c rest -> P2 a c rest) ->
  parsed P2 toks r.
Proof.
  intros H HP Hp. specialize (H Hp). destruct r as [[a rest]| | |]; auto.
  destruct H as (c & Hc & H). exists c. split; [exact Hc|]. now apply HP.
Qed.

Lemma parsed_pop {A} (P : A -> list Token -> list Token -> Prop) toks
  (k : Token -> Parser A) :
  (forall tok rest, toks = tok :: rest -> plain tok ->
     parsed (fun a c r => P a (tok :: c) r) rest (k tok rest)) ->
  parsed P toks (bind pop k toks).
Proof.
  intros Hk Hp. unfold bind, pop. destruct toks as [|tok rest]; [exact I|].
  inversion Hp as [|? ? Htok Hrest]; subst.
  specialize (Hk tok rest eq_refl Htok Hrest).
  destruct (k tok rest) as [[a rest']| | |]; auto.
  destruct Hk as (c & -> & H). now exists (tok :: c).
Qed.

Lemma parsed_peek {A} (P : A -> list Token -> list Token -> Prop) toks
  (k : Token -> Parser A) :
  (forall tok rest, toks = tok :: rest -> parsed P toks (k tok toks)) ->
  parsed P toks (bind peek k toks).
Proof.
  intros Hk Hp. unfold bind, peek. destruct toks as [|tok rest]; [exact I|].
  exact (Hk tok rest eq_refl Hp).
Qed.

Lemma parsed_consume {A} (P : A -> list Token -> list Token -> Prop) toks ty
  (k : Token -> Parser A) :
  (forall tok rest, toks = tok :: rest -> plain tok -> type tok = ty ->
     parsed (fun a c r => P a (tok :: c) r) rest (k tok rest)) ->
  parsed P toks (bind (consume ty) k toks).
Proof.
  intros Hk Hp. unfold bind. rewrite consume_cons_any.
  destruct toks as [|tok rest]; [exact I|].
  inversion Hp as [|? ? Htok Hrest]; subst.
  destruct (TokenType.eqb (type tok) ty) eqn:E; [|exact I].
  apply type_eqb_eq in E. specialize (Hk tok rest eq_refl Htok E Hrest).
  destruct (k tok rest) as [[a rest']| | |]; auto.
  destruct Hk as (c & -> & H). now exists (tok :: c).
Qed.

Lemma parsed_call {A B} (P1 : A -> list Token -> list Token -> Prop)
  (P : B -> list Token -> list Token -> Prop) toks
  (p : Parser A) (k : A -> Parser B) :
  parsed P1 toks (p toks) ->
  (forall a c rest, toks = c ++ rest -> P1 a c rest ->
     parsed (fun b c' r => P b (c ++ c') r) rest (k a rest)) ->
  parsed P toks (bind p k toks).
Proof.
  intros H1 Hk Hp. unfold bind. specialize (H1 Hp).
  destruct (p toks) as [[a rest]| | |]; auto.
  destruct H1 as (c & -> & H1).
  apply Forall_app in Hp. destruct Hp as [_ Hp].
  specialize (Hk a c rest eq_refl H1 Hp).
  destruct (k a rest) as [[b rest']| | |]; auto.
  destruct Hk as (c' & -> & H). exists (c ++ c'). split; [|exact H].
  now rewrite app_assoc.
Qed.

(** What the loop of [parseExpression] returns, entered with [js0]. *)
Definition exprParsed (js0 : string) (e : TokenType.t)
  (js : string) (c rest : list Token) : Prop :=
  exists ex,
    exprOk ex = true /\ c = exprTokens ex /\ js = js0 +++ exprJs ex
    /\ endsAt (isEnd e) rest.

(** What the second half of the loop returns: the expression ends, or
    an operator and an expression follow. *)
Definition tailParsed (js0 : string) (e : TokenType.t)
  (js : string) (c rest : list Token) : Prop :=
  (c = [] /\ js = js0 /\ endsAt (isEnd e) rest)
  \/ (exists op ex,
        isOperator op = true /\ exprOk ex = true
        /\ c = op :: exprTokens ex
        /\ js = js0 +++ operatorJs op +++ exprJs ex
        /\ endsAt (isEnd e) rest).

Definition elemsParsed (js0 : string)
  (js : string) (c rest : list Token) : Prop :=
  exists es,
    elemsOk es = true /\ c = elemsTokens es /\ js = js0 +++ elemsJs es.

Definition listParsed (js : string) (c rest : list Token) : Prop :=
  (c = [] /\ js = "") \/ elemsParsed "" js c rest.

Definition callParsed (name : string)
  (js : string) (c rest : list Token) : Prop :=
  exists o,
    operandOk o = true /\ tName name :: c = operandTokens o
    /\ js = operandJs o.

Lemma operand_then_tail o js0 e js c rest :
  operandOk o = true ->
  tailParsed (js0 +++ operandJs o) e js c rest ->
  exprParsed js0 e js (operandTokens o ++ c) rest.
Proof.
  intros Ho [(-> & -> & He)|(op & ex & Hop & Hex & -> & -> & He)].
  - exists (Single o). rewrite app_nil_r. repeat split; auto.
  - exists (Binary o op ex). split; [simpl; now rewrite Ho, Hop, Hex|].
    split; [reflexivity|]. split; [|exact He].
    simpl. now rewrite !append_assoc.
Qed.

Lemma parsed_afterOperand loop e js0 toks :
  (forall js' toks', parsed (exprParsed js' e) toks' (loop js' toks')) ->
  parsed (tailParsed js0 e) toks (afterOperand loop e js0 toks).
Proof.
  intros Hloop Hp. destruct toks as [|next rest]; [exact I|].
  destruct (isEnd e (type next)) eqn:E.
  - rewrite afterOperand_end by exact E. exists []. split; [reflexivity|].
    left. repeat split. now exists next, rest.
  - rewrite afterOperand_operator by exact E.
    destruct (expectedOperator next) as [o|] eqn:Eop; [|exact I].
    inversion Hp as [|? ? _ Hrest]; subst.
    specialize (Hloop (js0 +++ o) rest Hrest).
    destruct (loop (js0 +++ o) rest) as [[a rest']| | |]; auto.
    destruct Hloop as (c & -> & ex & Hex & -> & -> & He).
    exists (next :: exprTokens ex). split; [reflexivity|].
    right. exists next, ex. unfold isOperator, operatorJs. rewrite Eop.
    repeat split; auto. now rewrite append_assoc.
Qed.

(** A prefix before the first operand of an expression. *)
Definition prefixFirst (op : Token) (ex : Expr) : Expr :=
  match ex with
  | Single o => Single (Prefix op o)
  | Binary o op' ex' => Binary (Prefix op o) op' ex'
  end.

Lemma prefixFirst_tokens op ex :
  exprTokens (prefixFirst op ex) = op :: exprTokens ex.
Proof. destruct ex; reflexivity. Qed.

Lemma prefixFirst_js op ex :
  exprJs (prefixFirst op ex) = prefixJs op +++ exprJs ex.
Proof. destruct ex; simpl; [reflexivity|now rewrite append_assoc]. Qed.

Lemma startsWithSign_app a b :
  opens a -> startsWithSign (a ++ b) = startsWithSign a.
Proof. intros (t & rest & -> & _). reflexivity. Qed.

Lemma prefixFirst_ok op ex :
  exprOk ex = true ->
  TokenType.eqb (type op) TokenType.Not
  || (isSign (type op) && negb (startsWithSign (exprTokens ex))) = true ->
  exprOk (prefixFirst op ex) = true.
Proof.
  intros Hex Hop. destruct ex as [o|o op' ex']; simpl in *.
  - now rewrite Hop, Hex.
  - apply andb_true_iff in Hex. destruct Hex as [Hex He'].
    apply andb_true_iff in Hex. destruct Hex as [Ho Hop'].
    rewrite startsWithSign_app in Hop
      by (apply (proj1 grammar_opens); exact Ho).
    now rewrite Hop, Ho, Hop', He'.
Qed.

Lemma exprParsed_prefix op js0 e js c rest next rest1 :
  TokenType.eqb (type op) TokenType.Not
  || (isSign (type op) && negb (isSign (type next))) = true ->
  next :: rest1 = c ++ rest ->
  exprParsed (js0 +++ prefixJs op) e js c rest ->
  exprParsed js0 e js (op :: c) rest.
Proof.
  intros Hop Ht (ex & Hex & -> & -> & He).
  exists (prefixFirst op ex). split; [|split; [|split]].
  - apply prefixFirst_ok; [exact Hex|].
    destruct (proj1 (proj2 grammar_opens) ex Hex) as (t & ts & Et & _).
    rewrite Et in *. simpl in Ht. injection Ht as -> _. exact Hop.
  - now rewrite prefixFirst_tokens.
  - now rewrite prefixFirst_js, append_assoc.
  - exact He.
Qed.

Definition Sound (fuel : nat) : Prop :=
  (forall e toks,
     parsed (exprParsed "" e) toks (parseExpression fuel e toks))
  /\ (forall js0 e toks,
        parsed (exprParsed js0 e) toks (parseExpressionLoop fuel js0 e toks))
  /\ (forall e toks, parsed listParsed toks (parseList fuel e toks))
  /\ (forall js0 e toks,
        parsed (elemsParsed js0) toks (parseListLoop fuel js0 e toks))
  /\ (forall name toks,
        parsed (callParsed name) toks (parseFunctionCall fuel name toks))
  /\ (forall toks,
        parsed (callParsed "COUNTFORMS") toks (parseCountForms fuel toks)).

Lemma parser_sound : forall fuel, Sound fuel.
Proof.
  induction fuel as [|fuel (IHe & IHl & IHL & IHLL & IHf & IHc)].
  { repeat split; intros; intros _; exact I. }
  repeat split.
  - (* parseExpression *)
    intros e toks. rewrite parseExpression_S. unfold parseExpressionBody.
    destruct (negb (validEnd e)); [apply parsed_Throw|apply IHl].
  - (* parseExpressionLoop *)
    intros js0 e toks. rewrite parseExpressionLoop_S.
    unfold parseExpressionIter.
    apply parsed_pop. intros tok rest -> Hp.
    assert (Hafter : forall o jsA toks',
               operandOk o = true -> jsA = js0 +++ operandJs o ->
               parsed (fun a c r => exprParsed js0 e a (operandTokens o ++ c) r)
                 toks'
                 (afterOperand (fun js' => parseExpressionLoop fuel js' e) e
                    jsA toks')).
    { intros o jsA toks' Ho ->.
      eapply parsed_impl; [apply parsed_afterOperand; intros; apply IHl|].
      intros a c r _ H. now apply operand_then_tail. }
    assert (Hatom : isAtom (type tok) = true ->
              forall toks',
                parsed (fun a c r => exprParsed js0 e a (tok :: c) r) toks'
                  (afterOperand (fun js' => parseExpressionLoop fuel js' e) e
                     (js0 +++ atomJs tok) toks')).
    { intros Ha toks'. now apply (Hafter (Atom tok)). }
    assert (Hprefix : forall next rest1,
               TokenType.eqb (type tok) TokenType.Not
               || (isSign (type tok) && negb (isSign (type next))) = true ->
               parsed (fun a c r => exprParsed js0 e a (tok :: c) r)
                 (next :: rest1)
                 (parseExpressionLoop fuel (js0 +++ prefixJs tok) e
                    (next :: rest1))).
    { intros next rest1 Hop.
      eapply parsed_impl; [apply IHl|].
      intros a c r Ht H. now apply (exprParsed_prefix tok js0 e a c r next rest1). }
    destruct (type tok) eqn:Ety; try apply parsed_Throw.
    + (* LParen *)
      eapply parsed_call; [apply IHe|].
      intros inner c1 rest1 -> (ex & Hex & -> & -> & _).
      apply parsed_consume. intros rp rest2 -> Hrp Erp.
      eapply parsed_impl;
        [apply (Hafter (Paren ex)); [exact Hex|reflexivity]|].
      intros a c r _ H. cbn beta.
      rewrite (plain_LParen tok Hp Ety), (plain_RParen rp Hrp Erp).
      cbn [operandTokens app] in H. now rewrite <- app_assoc in H.
    + (* LBracket *)
      eapply parsed_call; [apply IHL|].
      intros inner c1 rest1 -> [[-> ->]|(es & Hes & -> & ->)];
        apply parsed_consume; intros rb rest2 -> Hrb Erb.
      * eapply parsed_impl;
          [apply (Hafter EmptyArray); reflexivity|].
        intros a c r _ H. cbn beta.
        now rewrite (plain_LBracket tok Hp Ety), (plain_RBracket rb Hrb Erb).
      * eapply parsed_impl;
          [apply (Hafter (Array es)); [exact Hes|reflexivity]|].
        intros a c r _ H. cbn beta.
        rewrite (plain_LBracket tok Hp Ety), (plain_RBracket rb Hrb Erb).
        cbn [operandTokens app] in H. now rewrite <- app_assoc in H.
    + (* Plus *)
      apply parsed_peek. intros next rest1 ->.
      destruct (_ || _) eqn:Es.
      * unfold bind, pop, throwUnexpected. apply parsed_Throw.
      * replace (text tok) with (prefixJs tok)
          by (unfold prefixJs; now rewrite Ety).
        apply Hprefix. unfold isSign. rewrite ?Ety, Es. reflexivity.
    + (* Minus *)
      apply parsed_peek. intros next rest1 ->.
      destruct (_ || _) eqn:Es.
      * unfold bind, pop, throwUnexpected. apply parsed_Throw.
      * replace (text tok) with (prefixJs tok)
          by (unfold prefixJs; now rewrite Ety).
        apply Hprefix. unfold isSign. rewrite ?Ety, Es. reflexivity.
    + (* Not *)
      intro Hrest. destruct rest as [|next rest1].
      * destruct fuel; exact I.
      * revert Hrest. replace "!" with (prefixJs tok)
          by (unfold prefixJs; now rewrite Ety).
        apply Hprefix. rewrite ?Ety. reflexivity.
    + (* String *)
      specialize (Hatom eq_refl). unfold atomJs in Hatom.
      rewrite Ety in Hatom. apply Hatom.
    + (* Number *)
      specialize (Hatom eq_refl). unfold atomJs in Hatom.
      rewrite Ety in Hatom. apply Hatom.
    + (* Indent *)
      apply parsed_peek. intros next rest1 ->.
      destruct (TokenType.eqb (type next) TokenType.LParen);
        [|specialize (Hatom eq_refl); unfold atomJs in Hatom;
          rewrite Ety in Hatom; apply Hatom].
      eapply parsed_call; [apply IHf|].
      intros call c1 rest2 Ht (o & Ho & Hc & ->).
      eapply parsed_impl; [apply (Hafter o); [exact Ho|reflexivity]|].
      intros a c r _ H. cbn beta.
      rewrite (indent_token tok Ety), app_comm_cons, Hc. exact H.
    + (* Name *)
      specialize (Hatom eq_refl). unfold atomJs in Hatom.
      rewrite Ety in Hatom. apply Hatom.
  - (* parseList *)
    intros e toks. rewrite parseList_S. unfold parseListBody.
    destruct (_ && _); [apply parsed_Throw|].
    apply parsed_peek. intros next rest ->.
    destruct (isClosing (type next)).
    + apply parsed_ret. now left.
    + eapply parsed_impl; [apply IHLL|]. intros a c r _ H. now right.
  - (* parseListLoop *)
    intros js0 e toks. rewrite parseListLoop_S. unfold parseListIter.
    eapply parsed_call; [apply IHe|].
    intros item c1 rest -> (ex & Hex & -> & -> & _).
    apply parsed_peek. intros next rest1 ->.
    destruct (isClosing (type next)).
    + apply parsed_ret. exists (Last ex). rewrite app_nil_r.
      repeat split; auto.
    + apply parsed_consume. intros comma rest2 [= <- <-] Hcomma Ecomma.
      eapply parsed_impl; [apply IHLL|].
      intros a c r _ (es & Hes & -> & ->). cbn beta.
      exists (More ex es). split; [simpl; now rewrite Hex, Hes|].
      split.
      * now rewrite (plain_Comma next Hcomma Ecomma).
      * simpl. now rewrite !append_assoc.
  - (* parseFunctionCall *)
    intros name toks. rewrite parseFunctionCall_S.
    unfold parseFunctionCallBody.
    destruct (String.eqb name "INCLUDES") eqn:E1;
      [|destruct (String.eqb name "PERCENT") eqn:E2;
        [|destruct (String.eqb name "COUNTFORMS") eqn:E3]].
    + apply String.eqb_eq in E1. subst name.
      apply parsed_consume. intros lp rest -> Hlp Elp.
      eapply parsed_call; [apply IHe|].
      intros l c1 rest1 -> (exl & Hl & -> & -> & _).
      apply parsed_consume. intros comma rest2 -> Hcomma Ecomma.
      eapply parsed_call; [apply IHe|].
      intros i c2 rest3 -> (exi & Hi & -> & -> & _).
      apply parsed_consume. intros rp rest4 -> Hrp Erp.
      apply parsed_ret. exists (Includes exl exi).
      split; [simpl; now rewrite Hl, Hi|]. split.
      * rewrite (plain_LParen lp Hlp Elp), (plain_Comma comma Hcomma Ecomma),
          (plain_RParen rp Hrp Erp). reflexivity.
      * cbn [operandJs String.append]. now rewrite !append_assoc.
    + apply String.eqb_eq in E2. subst name.
      apply parsed_consume. intros lp rest -> Hlp Elp.
      eapply parsed_call; [apply IHe|].
      intros l c1 rest1 -> (exl & Hl & -> & -> & _).
      apply parsed_consume. intros comma rest2 -> Hcomma Ecomma.
      eapply parsed_call; [apply IHe|].
      intros i c2 rest3 -> (exi & Hi & -> & -> & _).
      apply parsed_consume. intros rp rest4 -> Hrp Erp.
      apply parsed_ret. exists (Percent exl exi).
      split; [simpl; now rewrite Hl, Hi|]. split.
      * rewrite (plain_LParen lp Hlp Elp), (plain_Comma comma Hcomma Ecomma),
          (plain_RParen rp Hrp Erp). reflexivity.
      * cbn [operandJs String.append]. now rewrite !append_assoc.
    + apply String.eqb_eq in E3. subst name. apply IHc.
    + apply parsed_Throw.
  - (* parseCountForms *)
    intros toks. rewrite parseCountForms_S. unfold parseCountFormsBody.
    apply parsed_consume. intros lp rest -> Hlp Elp.
    apply parsed_consume. intros form rest1 -> Hform Eform.
    apply parsed_pop. intros tok rest2 -> Htok.
    destruct (type tok) eqn:Ety; try apply parsed_Throw.
    + apply parsed_ret. exists (CountForms form).
      split; [simpl; rewrite Eform; reflexivity|]. split.
      * now rewrite (plain_LParen lp Hlp Elp), (plain_RParen tok Htok Ety).
      * reflexivity.
    + eapply parsed_call; [apply IHe|].
      intros cond c2 rest3 -> (ex & Hex & -> & -> & _).
      apply parsed_consume. intros rp rest4 -> Hrp Erp.
      apply parsed_ret. exists (CountFormsIf form ex).
      split; [simpl; rewrite Eform; exact Hex|]. split.
      * now rewrite (plain_LParen lp Hlp Elp), (plain_Comma tok Htok Ety),
          (plain_RParen rp Hrp Erp).
      * reflexivity.
Qed.

Lemma tokenize_plain formula toks :
  tokenize formula = Return toks -> Forall plain toks.
Proof.
  unfold tokenize. intro H.
  eapply (tokenizeLoop_Forall plain
            (fun s t Ht => wellFormed_plain t (firstToken_wellFormed s t Ht)));
    [|exact H]. constructor.
Qed.

(** A formula that translates has the tokens of a tree of the grammar,
    and translates to the translation of the tree. *)
Lemma translation_sound formula body js :
  tokenize formula = Return (body ++ [mkToken TokenType.END ""]) ->
  runExpression TokenType.END (body ++ [mkToken TokenType.END ""])
  = Return (js, [mkToken TokenType.END ""]) ->
  exists ex, exprOk ex = true /\ body = exprTokens ex /\ js = exprJs ex.
Proof.
  intros Ht Hr.
  pose proof (proj1 (parser_sound
                       (4 * List.length (body ++ [mkToken TokenType.END ""])
                        + 2))
                TokenType.END (body ++ [mkToken TokenType.END ""])
                (tokenize_plain _ _ Ht)) as S.
  fold (runExpression TokenType.END (body ++ [mkToken TokenType.END ""])) in S.
  rewrite Hr in S. destruct S as (c & Hc & ex & Hex & -> & -> & _).
  apply app_inv_tail in Hc. subst body. now exists ex.
Qed.

(** ** Formulas that end too early *)

(** Whether an operand is expected after a token of type [ty] that stood
    where an operand was expected ([operand]) or where an operator was:
    an identifier is an operand in the first case and an operator
    ([AND], [OR]) in the second. *)
Definition operandNext (operand : bool) (ty : TokenType.t) : bool :=
  match ty with
  | TokenType.Indent => negb operand
  | TokenType.Name | TokenType.String | TokenType.Number
  | TokenType.RParen | TokenType.RBracket => false
  | _ => true
  end.

(** Whether an operand is expected after the tokens [toks]. *)
Fixpoint operandExpected (operand : bool) (toks : list Token) : bool :=
  match toks with
  | [] => operand
  | t :: rest => operandExpected (operandNext operand (type t)) rest
  end.

(** An operand is expected where the END marker stands: the formula is
    empty or ends after an operator, a prefix, a comma or an opening
    parenthesis or bracket. *)
Definition endsEarly (toks : list Token) : bool :=
  operandExpected true (removelast toks).

(** The formula has a lexical error (a string that is not closed, for
    one), or its parentheses and brackets do not match, or it ends where
    an operand is missing. *)
Definition illFormed (formula : string) : bool :=
  match tokenize formula with
  | Return toks => negb (balanced toks) || endsEarly toks
  | _ => true
  end.

Lemma operator_operandNext op :
  isOperator op = true -> operandNext false (type op) = true.
Proof.
  unfold isOperator, expectedOperator, operandNext.
  destruct (type op); (reflexivity || discriminate).
Qed.

(** After the tokens of a tree an operator is expected. *)
Lemma grammar_operandExpected :
  (forall o, operandOk o = true -> forall rest,
     operandExpected true (operandTokens o ++ rest)
     = operandExpected false rest)
  /\ (forall e, exprOk e = true -> forall rest,
        operandExpected true (exprTokens e ++ rest)
        = operandExpected false rest)
  /\ (forall es, elemsOk es = true -> forall rest,
        operandExpected true (elemsTokens es ++ rest)
        = operandExpected false rest).
Proof.
  apply grammar_ind.
  - (* Atom *)
    intros t H rest. simpl in *. now destruct (type t).
  - (* Prefix *)
    intros op o IH H rest. simpl in H.
    apply andb_true_iff in H. destruct H as [Hop Ho].
    cbn [operandTokens app operandExpected operandNext type tComma tLParen
         tRParen tLBracket tRBracket tName negb]. rewrite <- (IH Ho rest).
    f_equal. unfold isSign in Hop. now destruct (type op).
  - (* Paren *)
    intros e IH H rest. simpl in H.
    cbn [operandTokens app operandExpected operandNext type tComma tLParen
         tRParen tLBracket tRBracket tName negb]. rewrite <- app_assoc.
    now rewrite (IH H).
  - (* EmptyArray *)
    reflexivity.
  - (* Array *)
    intros es IH H rest. simpl in H.
    cbn [operandTokens app operandExpected operandNext type tComma tLParen
         tRParen tLBracket tRBracket tName negb]. rewrite <- app_assoc.
    now rewrite (IH H).
  - (* Includes *)
    intros l IHl i IHi H rest. simpl in H.
    apply andb_true_iff in H. destruct H as [Hl Hi].
    cbn [operandTokens app operandExpected operandNext type tComma tLParen
         tRParen tLBracket tRBracket tName negb]. rewrite <- !app_assoc.
    rewrite (IHl Hl). cbn [app operandExpected operandNext type tComma tLParen
         tRParen tLBracket tRBracket tName negb].
    rewrite <- ?app_assoc. now rewrite (IHi Hi).
  - (* Percent *)
    intros a IHa b IHb H rest. simpl in H.
    apply andb_true_iff in H. destruct H as [Ha Hb].
    cbn [operandTokens app operandExpected operandNext type tComma tLParen
         tRParen tLBracket tRBracket tName negb]. rewrite <- !app_assoc.
    rewrite (IHa Ha). cbn [app operandExpected operandNext type tComma tLParen
         tRParen tLBracket tRBracket tName negb].
    rewrite <- ?app_assoc. now rewrite (IHb Hb).
  - (* CountForms *)
    intros form H rest. simpl in H. apply type_eqb_eq in H.
    cbn [operandTokens app operandExpected]. now rewrite H.
  - (* CountFormsIf *)
    intros form cond IH H rest. simpl in H.
    apply andb_true_iff in H. destruct H as [H Hc]. apply type_eqb_eq in H.
    cbn [operandTokens app operandExpected]. rewrite H.
    cbn [operandNext type tName tLParen tComma negb].
    rewrite <- ?app_assoc. now rewrite (IH Hc).
  - (* Single *)
    intros o IH H rest. now apply IH.
  - (* Binary *)
    intros o IHo op e IHe H rest. simpl in H.
    apply andb_true_iff in H. destruct H as [H He].
    apply andb_true_iff in H. destruct H as [Ho Hop].
    cbn [exprTokens]. rewrite <- app_assoc. rewrite (IHo Ho).
    cbn [app operandExpected operandNext type tComma tLParen
         tRParen tLBracket tRBracket tName negb]. rewrite (operator_operandNext op Hop).
    now apply IHe.
  - (* Last *)
    intros e IH H rest. now apply IH.
  - (* More *)
    intros e IHe es IHes H rest. simpl in H.
    apply andb_true_iff in H. destruct H as [He Hes].
    cbn [elemsTokens]. rewrite <- app_assoc. rewrite (IHe He).
    cbn [app operandExpected operandNext type tComma tLParen
         tRParen tLBracket tRBracket tName negb]. now apply IHes.
Qed.

(** The END marker after a tree and an operator is the end-of-stream
    error. *)
Lemma operator_then_END : forall ex op js tok rest,
  exprOk ex = true -> isOperator op = true -> type tok = TokenType.END ->
  runExpressionLoop js TokenType.END (exprTokens ex ++ op :: tok :: rest)
  = Throw "unexpected end of token stream".
Proof.
  assert (Hop : forall op js tok rest,
             isOperator op = true -> type tok = TokenType.END ->
             afterOperand (fun js' => runExpressionLoop js' TokenType.END)
               TokenType.END js (op :: tok :: rest)
             = Throw "unexpected end of token stream").
  { intros op js tok rest Hop Htok. unfold isOperator in Hop.
    rewrite afterOperand_operator.
    - destruct (expectedOperator op); [|discriminate Hop].
      now apply runExpressionLoop_END.
    - apply expectedOperator_not_end; [reflexivity|].
      intro E. now rewrite E in Hop. }
  assert (Hnot : forall op rest, isOperator op = true -> notLParen (op :: rest)).
  { intros op rest H. simpl. intro E.
    unfold isOperator, expectedOperator in H. rewrite E in H. discriminate H. }
  induction ex as [o|o op' ex IH]; intros op js tok rest Hex Hop' Htok;
    simpl in Hex.
  - cbn [exprTokens].
    rewrite (proj1 grammar_translates o Hex js TokenType.END) by now apply Hnot.
    now apply Hop.
  - apply andb_true_iff in Hex. destruct Hex as [Hex He].
    apply andb_true_iff in Hex. destruct Hex as [Ho Hop1].
    cbn [exprTokens]. rewrite <- app_assoc. cbn [app].
    rewrite (proj1 grammar_translates o Ho js TokenType.END)
      by now apply Hnot.
    rewrite afterOperand_operator.
    + unfold isOperator in Hop1.
      destruct (expectedOperator op'); [|discriminate Hop1].
      now apply IH.
    + apply expectedOperator_not_end; [reflexivity|].
      intro E. unfold isOperator in Hop1. now rewrite E in Hop1.
Qed.

(** C7, as the code has it: a formula that is not balanced or ends too
    early (where an operand is expected: after an operator, [AND] and
    [OR] among them, a prefix, a comma or an opening parenthesis or
    bracket) raises an error, one of the end-of-stream error, the
    unexpected-token error, a lexical error and the unsupported-function
    error; it neither crashes nor returns a string.  A formula that ends
    after a well-formed expression and an operator raises the
    end-of-stream error.  More generally, the translation of any formula
    either raises one of these errors or returns the translation of all
    its tokens, which are those of a tree of the grammar; and the END
    marker, found where an operand or an operator is needed, is the
    end-of-stream error. *)
Theorem illformed_raises :
  (forall formula, illFormed formula = true ->
     exists msg, indicatorToJs formula = Throw msg /\ describes msg)
  /\ (forall formula ex op,
        exprOk ex = true -> isOperator op = true ->
        tokenize formula
        = Return (exprTokens ex ++ [op; mkToken TokenType.END ""]) ->
        illFormed formula = true
        /\ indicatorToJs formula = Throw "unexpected end of token stream")
  /\ (forall formula,
        (exists msg, indicatorToJs formula = Throw msg /\ describes msg)
        \/ (exists js ex,
              exprOk ex = true /\ js = exprJs ex
              /\ tokenize formula
                 = Return (exprTokens ex ++ [mkToken TokenType.END ""])
              /\ runExpression TokenType.END
                   (exprTokens ex ++ [mkToken TokenType.END ""])
                 = Return (js, [mkToken TokenType.END ""])
              /\ indicatorToJs formula = Return js
              /\ illFormed formula = false))
  /\ (forall js e tok rest,
        type tok = TokenType.END ->
        runExpressionLoop js e (tok :: rest)
        = Throw "unexpected end of token stream")
  /\ (forall loop e js tok rest,
        type tok = TokenType.END -> e <> TokenType.END ->
        afterOperand loop e js (tok :: rest)
        = Throw "unexpected end of token stream")
  /\ indicatorToJs "(1 + 2" = Throw "unexpected end of token stream"
  /\ indicatorToJs "1 AND" = Throw "unexpected end of token stream"
  /\ indicatorToJs (String dquote "abc")
     = Throw ("unterminated string literal in: " +++ String dquote "abc").
Proof.
  assert (Hall : forall formula,
             (exists msg, indicatorToJs formula = Throw msg /\ describes msg)
             \/ (exists js ex,
                   exprOk ex = true /\ js = exprJs ex
                   /\ tokenize formula
                      = Return (exprTokens ex ++ [mkToken TokenType.END ""])
                   /\ runExpression TokenType.END
                        (exprTokens ex ++ [mkToken TokenType.END ""])
                      = Return (js, [mkToken TokenType.END ""])
                   /\ indicatorToJs formula = Return js
                   /\ illFormed formula = false)).
  { intro formula.
    destruct (indicatorToJs_completes formula)
      as [G|(js & body & G1 & G2 & G3 & G4)]; [now left|right].
    destruct (translation_sound formula body js G1 G2) as (ex & Hex & -> & ->).
    exists (exprJs ex), ex. repeat split; auto.
    unfold illFormed. rewrite G1, G4. unfold endsEarly.
    rewrite removelast_last.
    rewrite <- (app_nil_r (exprTokens ex)).
    now rewrite (proj1 (proj2 grammar_operandExpected) ex Hex []). }
  split; [|split; [|split; [|split; [|split; [|repeat split; reflexivity]]]]].
  - intros formula H.
    destruct (Hall formula) as [G|(js & ex & _ & _ & _ & _ & _ & G)].
    + exact G.
    + rewrite G in H. discriminate H.
  - intros formula ex op Hex Hop Ht.
    assert (Hthrow : indicatorToJs formula
                     = Throw "unexpected end of token stream").
    { rewrite (indicatorToJs_tokens _ _ Ht).
      rewrite runExpression_loop by reflexivity.
      now rewrite (operator_then_END ex op "" (mkToken TokenType.END "") []). }
    split; [|exact Hthrow].
    destruct (Hall formula) as [_|(js & ex' & _ & _ & _ & _ & G & _)].
    + destruct (illFormed formula) eqn:E; [reflexivity|].
      unfold illFormed in E. rewrite Ht in E.
      apply orb_false_iff in E. destruct E as [_ E].
      unfold endsEarly in E.
      change (exprTokens ex ++ [op; mkToken TokenType.END ""])
        with (exprTokens ex ++ [op] ++ [mkToken TokenType.END ""]) in E.
      rewrite app_assoc, removelast_last in E.
      rewrite (proj1 (proj2 grammar_operandExpected) ex Hex [op]) in E.
      cbn [operandExpected] in E.
      now rewrite (operator_operandNext op Hop) in E.
    + rewrite Hthrow in G. discriminate G.
  - exact Hall.
  - apply runExpressionLoop_END.
  - apply afterOperand_END.
Qed.

Lemma illformed_raises_witness :
  (exists msg, indicatorToJs "[1, (2 + 3]" = Throw msg /\ describes msg)
  /\ (exists msg, indicatorToJs "a AND b OR" = Throw msg /\ describes msg)
  /\ (illFormed "(a + 1) AND" = true
      /\ indicatorToJs "(a + 1) AND" = Throw "unexpected end of token stream")
  /\ afterOperand (fun js => ret js) TokenType.RParen "(1"
       [mkToken TokenType.END ""]
     = Throw "unexpected end of token stream".
Proof.
  split; [|split; [|split]].
  - apply (proj1 illformed_raises). reflexivity.
  - apply (proj1 illformed_raises). reflexivity.
  - apply (proj1 (proj2 illformed_raises) "(a + 1) AND"
             (Single (Paren (Binary (Atom (mkToken TokenType.Indent "a"))
                               (mkToken TokenType.Plus "+")
                               (Single (Atom (mkToken TokenType.Number "1"))))))
             (mkToken TokenType.Indent "AND"));
      reflexivity.
  - apply (proj1 (proj2 (proj2 (proj2 (proj2 illformed_raises)))));
      [reflexivity|discriminate].
Defined.

(** C7 as it is stated, with the three kinds of error only, fails on a
    call of an unknown function that is not closed. *)
Lemma illformed_unsupported_function :
  ~ (illFormed "FOO(1" = true ->
     exists msg,
       indicatorToJs "FOO(1" = Throw msg
       /\ (raised EndOfStream msg \/ raised UnexpectedToken msg
           \/ raised Lexical msg)).
Proof.
  intro H. destruct (H eq_refl) as (msg & Hmsg & Hkind).
  change (indicatorToJs "FOO(1") with
    (@Throw string "unsupported function: FOO") in Hmsg.
  injection Hmsg as <-.
  destruct Hkind as [E|[(tok & rest & _ & E)|(s & [E|[E|E]])]];
    discriminate E.
Qed.

End BespokeMore.

(** * More on the second dialect *)

Module GenericMore.
Import Js JsFacts JsMore.

(** ** The tokenizers of the two dialects

    The token types of the second dialect are those of the first one
    but [Name], with the same numeric values. *)

Definition embedType (ty : Generic.TokenType.t) : Bespoke.TokenType.t :=
  match ty with
  | Generic.TokenType.END => Bespoke.TokenType.END
  | Generic.TokenType.LParen => Bespoke.TokenType.LParen
  | Generic.TokenType.RParen => Bespoke.TokenType.RParen
  | Generic.TokenType.LBracket => Bespoke.TokenType.LBracket
  | Generic.TokenType.RBracket => Bespoke.TokenType.RBracket
  | Generic.TokenType.Comma => Bespoke.TokenType.Comma
  | Generic.TokenType.Plus => Bespoke.TokenType.Plus
  | Generic.TokenType.Minus => Bespoke.TokenType.Minus
  | Generic.TokenType.Mul => Bespoke.TokenType.Mul
  | Generic.TokenType.Div => Bespoke.TokenType.Div
  | Generic.TokenType.Less => Bespoke.TokenType.Less
  | Generic.TokenType.LessOrEq => Bespoke.TokenType.LessOrEq
  | Generic.TokenType.Greater => Bespoke.TokenType.Greater
  | Generic.TokenType.GreaterOrEq => Bespoke.TokenType.GreaterOrEq
  | Generic.TokenType.Equal => Bespoke.TokenType.Equal
  | Generic.TokenType.NotEqual => Bespoke.TokenType.NotEqual
  | Generic.TokenType.Not => Bespoke.TokenType.Not
  | Generic.TokenType.String => Bespoke.TokenType.String
  | Generic.TokenType.Number => Bespoke.TokenType.Number
  | Generic.TokenType.Indent => Bespoke.TokenType.Indent
  end.

Definition embed (t : Generic.Token) : Bespoke.Token :=
  Bespoke.mkToken (embedType (Generic.type t)) (Generic.text t).

Lemma embedType_code ty :
  Bespoke.TokenType.code (embedType ty) = Generic.TokenType.code ty.
Proof. destruct ty; reflexivity. Qed.

Lemma embedType_eqb a b :
  Bespoke.TokenType.eqb (embedType a) (embedType b) = Generic.TokenType.eqb a b.
Proof.
  unfold Bespoke.TokenType.eqb, Generic.TokenType.eqb.
  now rewrite !embedType_code.
Qed.

Lemma embedType_not_Name ty : embedType ty <> Bespoke.TokenType.Name.
Proof. destruct ty; discriminate. Qed.

(** On a string that does not start with [$] the two [firstToken] do the
    same; on one that does, the second one finds no token. *)
Lemma firstToken_dialects s :
  match Generic.firstToken s with
  | Return t => Bespoke.firstToken s = Return (embed t)
  | Throw msg =>
      if String.eqb (charAt s 0) "$"
      then msg = "unrecognized token in: " +++ s
      else Bespoke.firstToken s = Throw msg
  | _ => False
  end.
Proof.
  unfold Generic.firstToken, Bespoke.firstToken.
  destruct (String.length s =? 0) eqn:E0; [reflexivity|].
  cbv zeta.
  do 13 (match goal with
    | |- context [if String.eqb (charAt s 0) ?x then _ else _] =>
        destruct (String.eqb (charAt s 0) x);
        [try match goal with
           | |- context [if ?b then _ else _] => destruct b
           end; reflexivity|]
    end).
  destruct (String.eqb (charAt s 0) "$") eqn:Ed.
  - destruct s as [|a s']; [discriminate E0|]. simpl in Ed.
    destruct (Ascii.eqb_spec a "$"); [subst a|discriminate Ed]. reflexivity.
  - destruct (String.eqb (charAt s 0) (String dquote "")).
    { destruct (regexMatch reString s); reflexivity. }
    destruct (String.leb "0" (charAt s 0) && String.leb (charAt s 0) "9").
    + destruct (regexMatch reNumber s); reflexivity.
    + destruct (regexMatch reIdent s); [reflexivity|].
      destruct (regexMatch reSpace s); reflexivity.
Qed.



Lemma embed_inj t t' : embed t = embed t' -> t = t'.
Proof.
  destruct t as [ty tx], t' as [ty' tx']. unfold embed. simpl.
  intros [= H ->]. f_equal. destruct ty, ty'; (reflexivity || discriminate H).
Qed.

Lemma field_firstToken s t :
  String.eqb (charAt s 0) "$" = true ->
  Bespoke.firstToken s = Return t -> Bespoke.type t = Bespoke.TokenType.Name.
Proof.
  intros Hd. destruct s as [|a s']; [discriminate Hd|]. simpl in Hd.
  destruct (Ascii.eqb_spec a "$"); [subst a|discriminate Hd].
  unfold Bespoke.firstToken. cbn -[regexMatch reName].
  destruct (regexMatch reName _); [|discriminate]. now intros [= <-].
Qed.

(** ** The tokenizer *)

Import Generic.

Definition g_properToken (s : string) (t : Token) : Prop :=
  type t <> TokenType.END /\ text t <> "" /\ exists rest, s = text t +++ rest.

Lemma g_type_eqb_eq a b : TokenType.eqb a b = true <-> a = b.
Proof.
  unfold TokenType.eqb. rewrite Nat.eqb_eq. split; [|now intros ->].
  destruct a, b; simpl; intro H; (reflexivity || discriminate H).
Qed.

Lemma g_type_eqb_neq a b : TokenType.eqb a b = false <-> a <> b.
Proof.
  rewrite <- g_type_eqb_eq. destruct (TokenType.eqb a b); split; intro H;
    (reflexivity || discriminate H || (now exfalso; apply H) || (intro X; discriminate X)).
Qed.

Lemma g_firstToken_Return s t :
  firstToken s = Return t ->
  (s = "" /\ t = mkToken TokenType.END "") \/ g_properToken s t.
Proof.
  intro H. pose proof (firstToken_dialects s) as Hd. rewrite H in Hd.
  apply BespokeFacts.firstToken_Return in Hd.
  destruct Hd as [[-> Ht]|(Hty & Htx & Hrest)].
  - left. split; [reflexivity|].
    apply embed_inj. exact Ht.
  - right. split; [|split; assumption].
    intro E. apply Hty. unfold embed. simpl. now rewrite E.
Qed.

Lemma g_firstToken_completes s :
  firstToken s <> TypeError /\ firstToken s <> Diverge.
Proof.
  pose proof (firstToken_dialects s) as Hd.
  destruct (firstToken s); try contradiction; split; discriminate.
Qed.

(** The two messages of the tokenizer, on what is left of the input. *)
Definition g_lexicalOn (rest msg : string) : Prop :=
  msg = "unterminated string literal in: " +++ rest
  \/ msg = "unrecognized token in: " +++ rest.

Lemma g_firstToken_Throw s msg :
  firstToken (trim s) = Throw msg -> g_lexicalOn (trim s) msg.
Proof.
  unfold firstToken. destruct (String.length (trim s) =? 0) eqn:E0;
    [discriminate|].
  cbv zeta. intro H. unfold g_lexicalOn.
  repeat match type of H with
    | (if String.eqb ?c ?x then _ else _) = _ =>
        destruct (String.eqb c x); [try discriminate H|]
    end;
  try match type of H with
    | (if ?b then _ else _) = _ =>
        let E := fresh "Eq" in destruct b eqn:E; try discriminate H
    end.
  - destruct (regexMatch reString (trim s)); [discriminate H|].
    injection H as <-. auto.
  - exfalso. destruct (trim s) as [|a s'] eqn:Et; [discriminate E0|].
    simpl in Eq. apply digit_char in Eq.
    destruct (regexMatch reNumber (String a s')) eqn:Em; [discriminate H|].
    now apply BespokeFacts.reNumber_matches in Em.
  - destruct (regexMatch reIdent (trim s)); [discriminate H|].
    destruct (regexMatch reSpace (trim s)) eqn:Es.
    + exfalso. unfold regexMatch, reSpace in Es. simpl in Es.
      destruct (trim s) as [|a s'] eqn:Et; [discriminate Es|].
      apply trim_head in Et. now rewrite Et in Es.
    + injection H as <-. auto.
Qed.

Lemma g_tokenizeLoop_S fuel toks s :
  tokenizeLoop (S fuel) toks s =
  match firstToken (trim s) with
  | Return t =>
      if TokenType.eqb (type t) TokenType.END then Return (toks ++ [t])
      else tokenizeLoop fuel (toks ++ [t])
             (slice (String.length (text t)) (trim s))
  | Throw msg => Throw msg
  | TypeError => TypeError
  | Diverge => Diverge
  end.
Proof. reflexivity. Qed.

Definition g_noEND (c : list Token) : Prop :=
  Forall (fun t => type t <> TokenType.END) c.

Definition g_hasEND (toks : list Token) : Prop :=
  Exists (fun t => type t = TokenType.END) toks.

Lemma g_tokenizeLoop_Return : forall fuel acc s toks,
  tokenizeLoop fuel acc s = Return toks ->
  exists body,
    toks = acc ++ body ++ [mkToken TokenType.END ""] /\ g_noEND body.
Proof.
  induction fuel as [|fuel IH]; intros acc s toks; [discriminate|].
  rewrite g_tokenizeLoop_S.
  destruct (firstToken (trim s)) as [t| | |] eqn:Et; try discriminate.
  apply g_firstToken_Return in Et.
  destruct Et as [[_ ->]|(Hty & Htx & rest & Hrest)].
  - simpl. intros [= <-]. exists []. split; [reflexivity|constructor].
  - pose proof Hty as Hty'. apply g_type_eqb_neq in Hty. rewrite Hty. intro H.
    apply IH in H. destruct H as (body & -> & Hbody). exists (t :: body). split.
    + now rewrite <- app_assoc.
    + now constructor.
Qed.

Lemma g_tokenizeLoop_Throw : forall fuel acc s msg,
  tokenizeLoop fuel acc s = Throw msg -> exists rest, g_lexicalOn rest msg.
Proof.
  induction fuel as [|fuel IH]; intros acc s msg; [discriminate|].
  rewrite g_tokenizeLoop_S.
  destruct (firstToken (trim s)) as [t| | |] eqn:Et; try discriminate.
  - destruct (TokenType.eqb (type t) TokenType.END); [discriminate|]. apply IH.
  - intros [= <-]. exists (trim s). now apply g_firstToken_Throw in Et.
Qed.

Lemma g_tokenizeLoop_completes : forall fuel acc s,
  String.length s < fuel ->
  tokenizeLoop fuel acc s <> TypeError /\ tokenizeLoop fuel acc s <> Diverge.
Proof.
  induction fuel as [|fuel IH]; intros acc s Hlen; [lia|].
  rewrite g_tokenizeLoop_S.
  destruct (firstToken (trim s)) as [t| | |] eqn:Et;
    try (split; discriminate);
    try (destruct (g_firstToken_completes (trim s)); contradiction).
  apply g_firstToken_Return in Et.
  destruct Et as [[_ ->]|(Hty & Htx & rest & Hrest)].
  - simpl. split; discriminate.
  - apply g_type_eqb_neq in Hty. rewrite Hty. apply IH.
    pose proof (substringOf_length _ _ (trim_substringOf s)) as Hl.
    rewrite Hrest, slice_append. rewrite Hrest, length_append in Hl.
    destruct (text t); [contradiction|]. simpl in Hl. lia.
Qed.

(** ** The two tokenizers compared *)

Definition isField (t : Bespoke.Token) : Prop :=
  Bespoke.type t = Bespoke.TokenType.Name.

Lemma tokenizeLoop_dialects : forall fuel acc gacc s toks,
  Bespoke.tokenizeLoop fuel acc s = Return toks ->
  exists more,
    toks = acc ++ more
    /\ (Forall (fun t => ~ isField t) more ->
        exists gmore,
          more = map embed gmore
          /\ tokenizeLoop fuel gacc s = Return (gacc ++ gmore))
    /\ (Exists isField more ->
        exists rest,
          tokenizeLoop fuel gacc s = Throw ("unrecognized token in: " +++ rest)
          /\ String.eqb (charAt rest 0) "$" = true).
Proof.
  induction fuel as [|fuel IH]; intros acc gacc s toks; [discriminate|].
  rewrite BespokeFacts.tokenizeLoop_S, g_tokenizeLoop_S.
  pose proof (firstToken_dialects (trim s)) as Hd.
  destruct (Bespoke.firstToken (trim s)) as [t| | |] eqn:Et; try discriminate.
  destruct (firstToken (trim s)) as [gt|msg| |] eqn:Eg; try contradiction.
  - injection Hd as ->.
    unfold embed at 1 3. cbn [Bespoke.type Bespoke.text].
    change Bespoke.TokenType.END with (embedType TokenType.END).
    rewrite embedType_eqb.
    destruct (TokenType.eqb (type gt) TokenType.END) eqn:Eend.
    + intros [= <-]. exists [embed gt]. split; [reflexivity|]. split.
      * intros _. exists [gt]. split; reflexivity.
      * intro H. inversion H as [? ? Hf|? ? Hf]; subst; [|inversion Hf].
        exfalso. now apply (embedType_not_Name (type gt)).
    + intro H. apply (IH _ (gacc ++ [gt])) in H.
      destruct H as (more & -> & Hall & Hex). exists (embed gt :: more).
      split; [now rewrite <- app_assoc|]. split.
      * intro H. inversion H; subst.
        destruct Hall as (gmore & -> & Hg); [assumption|].
        exists (gt :: gmore). split; [reflexivity|].
        now rewrite <- app_assoc in Hg.
      * intro H. inversion H as [? ? Hf|? ? Hf]; subst.
        -- exfalso. now apply (embedType_not_Name (type gt)).
        -- now apply Hex.
  - destruct (String.eqb (charAt (trim s) 0) "$") eqn:Ed; [|discriminate Hd].
    subst msg. pose proof (field_firstToken _ _ Ed Et) as Hn.
    destruct (Bespoke.TokenType.eqb (Bespoke.type t) Bespoke.TokenType.END) eqn:Eend.
    { rewrite Hn in Eend. discriminate Eend. }
    intro H. apply (BespokeFacts.tokenizeLoop_Return _ _ _ _ _ (substringOf_refl _)) in H.
    destruct H as (body & -> & _). exists ([t] ++ body ++ [Bespoke.mkToken Bespoke.TokenType.END ""]).
    split; [now rewrite <- !app_assoc|]. split.
    + intro H. inversion H; subst. contradiction.
    + intros _. exists (trim s). split; [reflexivity|exact Ed].
Qed.

Lemma tokenizeLoop_embed : forall fuel gacc s gtoks,
  tokenizeLoop fuel gacc s = Return gtoks ->
  Bespoke.tokenizeLoop fuel (map embed gacc) s = Return (map embed gtoks).
Proof.
  induction fuel as [|fuel IH]; intros gacc s gtoks; [discriminate|].
  rewrite BespokeFacts.tokenizeLoop_S, g_tokenizeLoop_S.
  pose proof (firstToken_dialects (trim s)) as Hd.
  destruct (firstToken (trim s)) as [gt|msg| |] eqn:Eg; try discriminate.
  rewrite Hd. unfold embed at 1 3. cbn [Bespoke.type Bespoke.text].
  change Bespoke.TokenType.END with (embedType TokenType.END).
  rewrite embedType_eqb.
  destruct (TokenType.eqb (type gt) TokenType.END).
  - intros [= <-]. now rewrite map_app.
  - intro H. apply IH in H. now rewrite map_app in H.
Qed.

(** X11: The second dialect tokenizes a formula as the first one does, unless
    the formula has a field reference: then it finds no token at the first
    [$] and throws.  It accepts no formula the first tokenizer rejects. *)
Theorem tokenizers_agree s :
  (forall gtoks,
     tokenize s = Return gtoks ->
     Bespoke.tokenize s = Return (map embed gtoks))
  /\ (forall toks,
        Bespoke.tokenize s = Return toks ->
        (Forall (fun t => ~ isField t) toks ->
         exists gtoks, toks = map embed gtoks /\ tokenize s = Return gtoks)
        /\ (Exists isField toks ->
            exists rest,
              tokenize s = Throw ("unrecognized token in: " +++ rest)
              /\ String.eqb (charAt rest 0) "$" = true)).
Proof.
  unfold Bespoke.tokenize, tokenize. split.
  - intros gtoks H. now apply (tokenizeLoop_embed _ []) in H.
  - intros toks H. apply (tokenizeLoop_dialects _ _ []) in H.
    destruct H as (more & -> & Hall & Hex). exact (conj Hall Hex).
Qed.

Lemma tokenizers_agree_witness :
  Bespoke.tokenize "a <= 2"
  = Return (map embed [mkToken TokenType.Indent "a";
                       mkToken TokenType.LessOrEq "<=";
                       mkToken TokenType.Number "2";
                       mkToken TokenType.END ""])
  /\ (exists gtoks,
        [Bespoke.mkToken Bespoke.TokenType.Indent "a";
         Bespoke.mkToken Bespoke.TokenType.LessOrEq "<=";
         Bespoke.mkToken Bespoke.TokenType.Number "2";
         Bespoke.mkToken Bespoke.TokenType.END ""] = map embed gtoks
        /\ tokenize "a <= 2" = Return gtoks)
  /\ (exists rest,
        tokenize "a <= $b" = Throw ("unrecognized token in: " +++ rest)
        /\ String.eqb (charAt rest 0) "$" = true).
Proof.
  split; [|split].
  - apply (proj1 (tokenizers_agree "a <= 2")). reflexivity.
  - apply (proj1 (proj2 (tokenizers_agree "a <= 2") _ eq_refl)).
    repeat constructor; discriminate.
  - apply (proj2 (proj2 (tokenizers_agree "a <= $b") _ eq_refl)).
    do 2 apply Exists_cons_tl. apply Exists_cons_hd. reflexivity.
Defined.



(** ** Shapes of token sequences

    The second dialect never accepts a bracket: [g_nesting] counts the
    parentheses left open and fails on a bracket. *)

Fixpoint g_nesting (opened : nat) (toks : list Token) : option nat :=
  match toks with
  | [] => Some opened
  | t :: rest =>
      match type t with
      | TokenType.LParen => g_nesting (S opened) rest
      | TokenType.RParen =>
          match opened with
          | S o => g_nesting o rest
          | 0 => None
          end
      | TokenType.LBracket | TokenType.RBracket => None
      | _ => g_nesting opened rest
      end
  end.

Definition g_framed (c : list Token) : Prop :=
  forall opened, g_nesting opened c = Some opened.

Definition g_neutral (ty : TokenType.t) : bool :=
  match ty with
  | TokenType.LParen | TokenType.RParen
  | TokenType.LBracket | TokenType.RBracket => false
  | _ => true
  end.

Lemma g_nesting_app (c1 c2 : list Token) : forall opened,
  g_nesting opened (c1 ++ c2) =
  match g_nesting opened c1 with
  | Some o => g_nesting o c2
  | None => None
  end.
Proof.
  induction c1 as [|t c1 IH]; intro opened; simpl; [reflexivity|].
  destruct (type t); try apply IH; try reflexivity.
  destruct opened; [reflexivity|apply IH].
Qed.

Lemma g_framed_nil : g_framed [].
Proof. intro; reflexivity. Qed.

Lemma g_framed_app c1 c2 : g_framed c1 -> g_framed c2 -> g_framed (c1 ++ c2).
Proof. intros H1 H2 o. rewrite g_nesting_app, H1. apply H2. Qed.

Lemma g_framed_neutral t : g_neutral (type t) = true -> g_framed [t].
Proof. intros H o. simpl. destruct (type t); try discriminate; reflexivity. Qed.

Lemma g_framed_round l c r :
  type l = TokenType.LParen -> type r = TokenType.RParen ->
  g_framed c -> g_framed (l :: c ++ [r]).
Proof.
  intros Hl Hr Hc o. simpl. rewrite Hl, g_nesting_app, Hc. simpl. now rewrite Hr.
Qed.

Lemma g_nesting_brackets : forall c opened o,
  g_nesting opened c = Some o ->
  Forall (fun t => type t <> TokenType.LBracket
                   /\ type t <> TokenType.RBracket) c.
Proof.
  induction c as [|t c IH]; intros opened o H; [constructor|].
  simpl in H. constructor.
  - destruct (type t); try discriminate H; split; discriminate.
  - destruct (type t); try discriminate H; try (eapply IH; exact H).
    destruct opened; [discriminate H|eapply IH; exact H].
Qed.

Lemma g_noEND_app c1 c2 : g_noEND (c1 ++ c2) <-> g_noEND c1 /\ g_noEND c2.
Proof. apply Forall_app. Qed.

Lemma g_noEND_one t : type t <> TokenType.END -> g_noEND [t].
Proof. intro H. repeat constructor. exact H. Qed.

Lemma g_noEND_cons t c :
  type t <> TokenType.END -> g_noEND c -> g_noEND (t :: c).
Proof. intros H Hc. constructor; assumption. Qed.

Lemma g_hasEND_app_noEND c toks :
  g_noEND c -> g_hasEND (c ++ toks) -> g_hasEND toks.
Proof.
  intros Hc H. apply Exists_app in H. destruct H as [H|H]; [|exact H].
  exfalso. induction H as [t l H|t l H IH].
  - inversion Hc; subst. contradiction.
  - inversion Hc; subst. auto.
Qed.

Lemma g_noEND_not_hasEND c : g_noEND c -> ~ g_hasEND c.
Proof.
  intros Hc H. rewrite <- (app_nil_r c) in H.
  apply g_hasEND_app_noEND in H; [inversion H|exact Hc].
Qed.

(** ** The errors the parser raises

    An error of the parser names a token of the formula: one that is not
    expected where it stands, or an identifier before a parenthesis that
    the table of functions does not have. *)

Definition g_unexpected (all : list Token) (msg : string) : Prop :=
  exists tok, In tok all /\ type tok <> TokenType.END
              /\ msg = "unexpected token: " +++ text tok.

Definition g_unsupported (all : list Token) (msg : string) : Prop :=
  exists tok, In tok all /\ type tok = TokenType.Indent
              /\ getProperty (text tok) = Undefined
              /\ msg = "Unsupported function: " +++ text tok.

Definition g_parseError (all : list Token) (msg : string) : Prop :=
  msg = "unexpected end of token stream"
  \/ g_unexpected all msg \/ g_unsupported all msg.

Lemma g_parseError_more pre all post msg :
  g_parseError all msg -> g_parseError (pre ++ all ++ post) msg.
Proof.
  intros [H|[(tok & Hin & H)|(tok & Hin & H)]]; [now left| |].
  - right; left. exists tok. split; [|exact H].
    apply in_or_app. right. apply in_or_app. now left.
  - right; right. exists tok. split; [|exact H].
    apply in_or_app. right. apply in_or_app. now left.
Qed.

Lemma g_parseError_frame pre all msg :
  g_parseError all msg -> g_parseError (pre ++ all) msg.
Proof.
  intro H. apply (g_parseError_more pre all []) in H.
  now rewrite app_nil_r in H.
Qed.

Section WithEngine.

Variable inheritedText : string -> string.


(** ** A specification of parsers

    [g_good D c0 P toks r]: [r] is an acceptable result of a parser run on
    the stack [toks] after the tokens [c0] were taken.  A result comes
    with the tokens [c] that were taken, on which [P] holds; an error is
    one of those above; a [TypeError] needs a stack without the END token;
    fuel runs out under [D] only. *)

Section Good.
Context {A : Type}.
Implicit Types (P : A -> list Token -> list Token -> Prop).

Definition g_good (D : Prop) (c0 : list Token) P (toks : list Token)
  (r : Completion (A * list Token)) : Prop :=
  match r with
  | Return (a, rest) => exists c, toks = c ++ rest /\ P a (c0 ++ c) rest
  | Throw msg => g_parseError (c0 ++ toks) msg
  | TypeError => ~ g_hasEND (c0 ++ toks)
  | Diverge => D
  end.

Lemma g_good_ret D c0 P toks a :
  P a c0 toks -> g_good D c0 P toks (ret a toks).
Proof. intro H. exists []. now rewrite app_nil_r. Qed.

Lemma g_good_unexpected D c0 P toks tok toks' :
  In tok (c0 ++ toks) ->
  g_good D c0 P toks (throw (A := A) (unexpectedTokenError tok) toks').
Proof.
  intro Hin. unfold throw, g_good, unexpectedTokenError.
  destruct (TokenType.eqb (type tok) TokenType.END) eqn:E.
  - now left.
  - right; left. exists tok. split; [exact Hin|].
    split; [now apply g_type_eqb_neq|reflexivity].
Qed.

Lemma g_good_diverge (D : Prop) c0 P toks :
  D -> g_good D c0 P toks (diverge toks).
Proof. trivial. Qed.

End Good.

Section GoodBind.
Context {A B : Type}.
Implicit Types (P : B -> list Token -> list Token -> Prop).

Lemma g_good_step D c0 P tok rest (r : Completion (B * list Token)) :
  g_good D (c0 ++ [tok]) P rest r -> g_good D c0 P (tok :: rest) r.
Proof.
  unfold g_good. destruct r as [[b rest']| | |]; auto.
  - intros (c & -> & HP). exists (tok :: c). split; [reflexivity|].
    now rewrite <- app_assoc in HP.
  - now rewrite <- app_assoc.
  - now rewrite <- app_assoc.
Qed.

Lemma g_good_pop D c0 P toks (k : Token -> Parser B) :
  g_noEND c0 ->
  (forall tok rest, toks = tok :: rest ->
     g_good D (c0 ++ [tok]) P rest (k tok rest)) ->
  g_good D c0 P toks (bind pop k toks).
Proof.
  intros H0 Hk. unfold bind, pop. destruct toks as [|tok rest].
  - simpl. rewrite app_nil_r. now apply g_noEND_not_hasEND.
  - apply g_good_step, Hk. reflexivity.
Qed.

Lemma g_good_peek D c0 P toks (k : Token -> Parser B) :
  g_noEND c0 ->
  (forall tok rest, toks = tok :: rest -> g_good D c0 P toks (k tok toks)) ->
  g_good D c0 P toks (bind peek k toks).
Proof.
  intros H0 Hk. unfold bind, peek. destruct toks as [|tok rest].
  - simpl. rewrite app_nil_r. now apply g_noEND_not_hasEND.
  - apply (Hk tok rest eq_refl).
Qed.

Lemma g_good_consume D c0 P toks ty (k : unit -> Parser B) :
  g_noEND c0 ->
  (forall tok rest, toks = tok :: rest -> type tok = ty ->
     g_good D (c0 ++ [tok]) P rest (k tt rest)) ->
  g_good D c0 P toks (bind (consume ty) k toks).
Proof.
  intros H0 Hk. unfold bind, consume, bind, pop. destruct toks as [|tok rest].
  - simpl. rewrite app_nil_r. now apply g_noEND_not_hasEND.
  - destruct (TokenType.eqb (type tok) ty) eqn:E; simpl.
    + apply g_type_eqb_eq in E. unfold ret. apply g_good_step, Hk; auto.
    + apply (@g_good_unexpected B D c0 (fun _ _ _ => True) (tok :: rest) tok rest).
      apply in_or_app. right. now left.
Qed.

Lemma g_good_call (D1 D : Prop) pre c1
  (P1 : A -> list Token -> list Token -> Prop) P toks
  (p : Parser A) (k : A -> Parser B) :
  g_good D1 c1 P1 toks (p toks) ->
  (D1 -> D) ->
  g_noEND pre ->
  (forall a c rest, toks = c ++ rest -> P1 a (c1 ++ c) rest ->
     g_good D ((pre ++ c1) ++ c) P rest (k a rest)) ->
  g_good D (pre ++ c1) P toks (bind p k toks).
Proof.
  intros Hp HD H0 Hk. unfold bind. unfold g_good in Hp.
  destruct (p toks) as [[a rest]| | |]; simpl; auto.
  - destruct Hp as (c & -> & HP). specialize (Hk a c rest eq_refl HP).
    unfold g_good in *. destruct (k a rest) as [[b rest']| | |]; auto.
    + destruct Hk as (c' & -> & HP'). exists (c ++ c'). split.
      * now rewrite app_assoc.
      * now rewrite app_assoc.
    + now rewrite <- app_assoc in Hk.
    + now rewrite <- app_assoc in Hk.
  - rewrite <- app_assoc. now apply g_parseError_frame.
  - intro H. apply Hp. rewrite <- app_assoc in H.
    eapply g_hasEND_app_noEND; eauto.
Qed.

End GoodBind.

Lemma g_good_tail {A} (D1 D : Prop) pre c1
  (P1 P : A -> list Token -> list Token -> Prop) toks r :
  g_good D1 c1 P1 toks r ->
  (D1 -> D) ->
  g_noEND pre ->
  (forall a c rest, toks = c ++ rest -> P1 a (c1 ++ c) rest ->
     P a ((pre ++ c1) ++ c) rest) ->
  g_good D (pre ++ c1) P toks r.
Proof.
  intros Hp HD H0 HP. unfold g_good in *. destruct r as [[a rest]| | |]; auto.
  - destruct Hp as (c & -> & H). exists c. split; auto.
  - rewrite <- app_assoc. now apply g_parseError_frame.
  - intro H. apply Hp. rewrite <- app_assoc in H.
    eapply g_hasEND_app_noEND; eauto.
Qed.

Lemma g_good_call0 {A B} (D1 D : Prop) c0
  (P1 : A -> list Token -> list Token -> Prop)
  (P : B -> list Token -> list Token -> Prop) toks
  (p : Parser A) (k : A -> Parser B) :
  g_good D1 [] P1 toks (p toks) ->
  (D1 -> D) ->
  g_noEND c0 ->
  (forall a c rest, toks = c ++ rest -> P1 a c rest ->
     g_good D (c0 ++ c) P rest (k a rest)) ->
  g_good D c0 P toks (bind p k toks).
Proof.
  intros Hp HD H0 Hk. rewrite <- (app_nil_r c0).
  apply (g_good_call D1 D c0 [] P1); auto.
  intros a c rest Ht HP. rewrite app_nil_r. now apply Hk.
Qed.

Lemma g_good_tail0 {A} (D1 D : Prop) c0
  (P1 P : A -> list Token -> list Token -> Prop) toks r :
  g_good D1 [] P1 toks r ->
  (D1 -> D) ->
  g_noEND c0 ->
  (forall a c rest, toks = c ++ rest -> P1 a c rest -> P a (c0 ++ c) rest) ->
  g_good D c0 P toks r.
Proof.
  intros Hp HD H0 Hk. rewrite <- (app_nil_r c0).
  apply (g_good_tail D1 D c0 [] P1); auto.
  intros a c rest Ht HP. rewrite app_nil_r. now apply Hk.
Qed.

(** ** One step of each parsing function *)

Lemma g_parseExpression_S fuel e :
  parseExpression inheritedText (S fuel) e =
  parseExpressionBody (fun js => parseExpressionLoop inheritedText fuel js e) e.
Proof. reflexivity. Qed.

Lemma g_parseExpressionLoop_S fuel js e :
  parseExpressionLoop inheritedText (S fuel) js e =
  parseExpressionIter (parseExpression inheritedText fuel) (parseFunctionCall inheritedText fuel)
    (fun js' => parseExpressionLoop inheritedText fuel js' e) js e.
Proof. reflexivity. Qed.

Lemma g_parseListLoop_S fuel js e :
  parseListLoop inheritedText (S fuel) js e =
  parseListIter (parseExpression inheritedText fuel) (fun js' => parseListLoop inheritedText fuel js' e)
    js e.
Proof. reflexivity. Qed.

(** ** What the parsing functions guarantee *)

Definition g_endsAt (ok : TokenType.t -> bool) (rest : list Token) : Prop :=
  exists next rest', rest = next :: rest' /\ ok (type next) = true.

Definition g_exprPost (e : TokenType.t) (_ : string) (c rest : list Token)
  : Prop :=
  g_noEND c /\ g_framed c /\ g_endsAt (isEnd e) rest.

Definition g_listPost (_ : string) (c rest : list Token) : Prop :=
  g_noEND c /\ g_framed c /\ g_endsAt isClosing rest.

Definition g_callPost (_ : string) (c rest : list Token) : Prop :=
  g_noEND c /\ g_framed c.

Lemma g_listEnd_validEnd e :
  GenericFacts.listEnd e = true -> validEnd e = true.
Proof. destruct e; simpl; intro H; try discriminate H; reflexivity. Qed.

Ltac g_noend :=
  repeat match goal with
    | |- g_noEND (_ ++ _) => apply g_noEND_app; split
    | |- g_noEND [] => constructor
    | |- g_noEND [_] => apply g_noEND_one; congruence
    | |- g_noEND (_ :: _) => apply g_noEND_cons; [congruence|]
    | |- g_noEND _ => assumption
    end.

Ltac g_isframed :=
  repeat match goal with
    | |- g_framed (_ ++ _) => apply g_framed_app
    | |- g_framed [] => apply g_framed_nil
    | H : type ?t = _ |- g_framed [?t] =>
        apply g_framed_neutral; rewrite H; reflexivity
    | |- g_framed _ => assumption
    end.

Ltac g_lens :=
  cbn [List.length] in *; rewrite ?length_app in *; cbn [List.length] in *; lia.

Ltac g_here := rewrite ?in_app_iff; simpl; tauto.

Lemma g_good_afterOperand (D : Prop) c0 loop e js toks :
  g_noEND c0 -> g_framed c0 ->
  (forall js' op rest, toks = op :: rest ->
     type op <> TokenType.END -> g_neutral (type op) = true ->
     g_good D (c0 ++ [op]) (g_exprPost e) rest (loop js' rest)) ->
  g_good D c0 (g_exprPost e) toks (afterOperand loop e js toks).
Proof.
  intros H0 Hf Hloop. unfold afterOperand.
  apply g_good_peek; [exact H0|]. intros next rest ->.
  destruct (isEnd e (type next)) eqn:Eend.
  - apply g_good_ret. repeat split; auto. now exists next, rest.
  - apply g_good_pop; [exact H0|]. intros op rest' [= <- <-].
    destruct (isPassThrough (type next)) eqn:Ep.
    + apply Hloop; auto; destruct (type next); try discriminate; reflexivity.
    + destruct (type next) eqn:Ety;
        try (apply g_good_unexpected; g_here);
        try (apply Hloop; auto; rewrite Ety; (discriminate || reflexivity)).
      destruct (String.eqb (text next) "AND");
        [apply Hloop; auto; rewrite Ety; (discriminate || reflexivity)|].
      destruct (String.eqb (text next) "OR");
        [apply Hloop; auto; rewrite Ety; (discriminate || reflexivity)|].
      apply g_good_unexpected; g_here.
Qed.

Definition g_ParserGood (fuel : nat) : Prop :=
  (forall e toks, validEnd e = true ->
     g_good (fuel < 4 * List.length toks + 2) [] (g_exprPost e) toks
       (parseExpression inheritedText fuel e toks))
  /\ (forall js e toks,
        g_good (fuel < 4 * List.length toks + 1) [] (g_exprPost e) toks
          (parseExpressionLoop inheritedText fuel js e toks))
  /\ (forall e toks, GenericFacts.listEnd e = true ->
        g_good (fuel < 4 * List.length toks + 4) [] g_listPost toks
          (parseList inheritedText fuel e toks))
  /\ (forall js e toks, validEnd e = true ->
        g_good (fuel < 4 * List.length toks + 3) [] g_listPost toks
          (parseListLoop inheritedText fuel js e toks))
  /\ (forall tok toks, type tok = TokenType.Indent ->
        g_good (fuel < 4 * List.length toks + 4) [tok] g_callPost toks
          (parseFunctionCall inheritedText fuel (text tok) toks)).

Lemma g_exprPost_frame e c0 js c rest :
  g_noEND c0 -> g_framed c0 ->
  g_exprPost e js c rest -> g_exprPost e js (c0 ++ c) rest.
Proof.
  intros H0 Hf (Hn & Hc & He). repeat split; auto.
  - g_noend.
  - g_isframed.
Qed.

Lemma g_parser_good : forall fuel, g_ParserGood fuel.
Proof.
  induction fuel as [|fuel (IHe & IHl & IHL & IHLL & IHf)].
  { repeat split; intros; apply g_good_diverge; lia. }
  assert (Hloop : forall (D : Prop) e c0 js rest,
             g_noEND c0 -> g_framed c0 ->
             (fuel < 4 * List.length rest + 1 -> D) ->
             g_good D c0 (g_exprPost e) rest
               (parseExpressionLoop inheritedText fuel js e rest)).
  { intros D e c0 js rest H0 Hf HD.
    eapply g_good_tail0; [apply (IHl js e rest)|exact HD|exact H0|].
    intros a c rest' _ HP. now apply g_exprPost_frame. }
  repeat split.
  - (* parseExpression *)
    intros e toks Hv. rewrite g_parseExpression_S. unfold parseExpressionBody.
    rewrite Hv. simpl negb. cbv iota.
    apply Hloop; [constructor|apply g_framed_nil|lia].
  - (* parseExpressionLoop *)
    intros js e toks. rewrite g_parseExpressionLoop_S. unfold parseExpressionIter.
    apply g_good_pop; [g_noend|]. intros tok rest ->. simpl app.
    assert (Hafter : forall c0 js' rest',
               g_noEND c0 -> g_framed c0 ->
               List.length rest' < List.length (tok :: rest) ->
               g_good (S fuel < 4 * List.length (tok :: rest) + 1) c0
                 (g_exprPost e) rest'
                 (afterOperand (fun js0 => parseExpressionLoop inheritedText fuel js0 e) e
                    js' rest')).
    { intros c0 js' rest' H0 Hf Hlen.
      apply g_good_afterOperand; auto.
      intros js0 op rest0 -> Hop Hneu. apply Hloop.
      - g_noend.
      - apply g_framed_app; [assumption|now apply g_framed_neutral].
      - intro. g_lens. }
    destruct (type tok) eqn:Ety;
      try (apply g_good_unexpected; g_here).
    + (* LParen *)
      eapply g_good_call0.
      * apply (IHe TokenType.RParen rest eq_refl).
      * g_lens.
      * g_noend.
      * intros inner c rest1 -> (Hn & Hf & He).
        apply g_good_consume; [g_noend|]. intros rp rest2 -> Erp. simpl app.
        apply Hafter.
        -- g_noend.
        -- now apply g_framed_round.
        -- g_lens.
    + (* Plus *)
      apply g_good_peek; [g_noend|]. intros next rest1 ->.
      destruct (_ || _).
      * apply g_good_unexpected. g_here.
      * apply Hloop; [g_noend|g_isframed|g_lens].
    + (* Minus *)
      apply g_good_peek; [g_noend|]. intros next rest1 ->.
      destruct (_ || _).
      * apply g_good_unexpected. g_here.
      * apply Hloop; [g_noend|g_isframed|g_lens].
    + (* Not *)
      apply Hloop; [g_noend|g_isframed|g_lens].
    + (* String *)
      apply Hafter; [g_noend|g_isframed|g_lens].
    + (* Number *)
      apply Hafter; [g_noend|g_isframed|g_lens].
    + (* Indent *)
      apply g_good_peek; [g_noend|]. intros next rest1 ->.
      destruct (TokenType.eqb (type next) TokenType.LParen).
      * eapply (g_good_call _ _ [] [tok] g_callPost).
        -- apply (IHf tok (next :: rest1) Ety).
        -- g_lens.
        -- constructor.
        -- intros call c rest2 Hc (Hn & Hf).
           apply Hafter; [exact Hn|exact Hf|].
           rewrite Hc. g_lens.
      * apply Hafter; [g_noend|g_isframed|g_lens].
  - (* parseList *)
    intros e toks He. rewrite GenericFacts.generic_parseList_S.
    unfold parseListBody.
    replace (negb (TokenType.eqb e TokenType.Comma)
             && negb (TokenType.eqb e TokenType.RBracket)) with false
      by (destruct e; try discriminate He; reflexivity).
    apply g_good_peek; [g_noend|]. intros next rest ->.
    destruct (isClosing (type next)) eqn:Ec.
    + apply g_good_ret. split; [|split];
        [g_noend|g_isframed|now exists next, rest].
    + eapply g_good_tail0.
      * apply (IHLL "" e (next :: rest) (g_listEnd_validEnd e He)).
      * lia.
      * constructor.
      * intros a c rest' _ HP. exact HP.
  - (* parseListLoop *)
    intros js e toks He. rewrite g_parseListLoop_S. unfold parseListIter.
    eapply g_good_call0.
    { apply (IHe e toks He). }
    { lia. }
    { constructor. }
    intros item c rest -> (Hn & Hf & Hend). simpl app.
    apply g_good_peek; [g_noend|]. intros next rest1 ->.
    destruct (isClosing (type next)) eqn:Ec.
    + apply g_good_ret. split; [|split];
        [g_noend|g_isframed|now exists next, rest1].
    + apply g_good_consume; [g_noend|]. intros comma rest2 [= <- <-] Ecomma.
      eapply g_good_tail0.
      * apply (IHLL _ e rest1 He).
      * g_lens.
      * g_noend.
      * intros a c' rest' _ (Hn' & Hf' & Hend'). split; [|split]; auto.
        -- g_noend.
        -- g_isframed.
  - (* parseFunctionCall *)
    intros tok toks Ety. rewrite GenericFacts.generic_parseFunctionCall_S.
    unfold parseFunctionCallBody.
    destruct (isNullish (getProperty (text tok))) eqn:En.
    { right; right. exists tok. split; [now left|]. split; [exact Ety|].
      split; [|reflexivity].
      destruct (getProperty (text tok)); (reflexivity || discriminate En). }
    apply g_good_consume; [g_noend|]. intros lp rest -> Elp.
    eapply g_good_call0.
    { apply (IHL TokenType.Comma rest eq_refl). }
    { g_lens. }
    { g_noend. }
    intros args c rest1 -> (Hn & Hf & Hend).
    apply g_good_consume; [g_noend|]. intros rp rest2 -> Erp.
    apply g_good_ret. split.
    + g_noend.
    + replace ((([tok] ++ [lp]) ++ c) ++ [rp]) with ([tok] ++ lp :: c ++ [rp])
        by (cbn [app]; rewrite <- ?app_assoc; reflexivity).
      apply (g_framed_app [tok]); [g_isframed|].
      apply (g_framed_round lp c rp); auto.
Qed.


(** ** The translation of a formula *)

Lemma g_first_END c : forall body next rest e,
  g_noEND c -> g_noEND body ->
  type next = TokenType.END -> type e = TokenType.END ->
  c ++ next :: rest = body ++ [e] -> c = body /\ rest = [].
Proof.
  induction c as [|x c IH]; intros body next rest e Hc Hb Hn He H.
  - destruct body as [|y body]; simpl in H.
    + injection H as _ <-. auto.
    + injection H as <- _. inversion Hb; subst. contradiction.
  - inversion Hc; subst. destruct body as [|y body]; simpl in H.
    + injection H as -> _. contradiction.
    + injection H as <- H. inversion Hb; subst.
      destruct (IH body next rest e) as [-> ->]; auto.
Qed.

Definition g_finish (r : Completion (string * list Token))
  : Completion string :=
  match r with
  | Return (js, _) => Return js
  | Throw msg => Throw msg
  | TypeError => TypeError
  | Diverge => Diverge
  end.

Lemma g_indicatorToJs_tokens formula toks :
  tokenize formula = Return toks ->
  indicatorToJs inheritedText formula
  = g_finish (runExpression inheritedText TokenType.END toks).
Proof.
  intro H. unfold indicatorToJs. rewrite H. unfold stackOf, reverse.
  rewrite rev_involutive. reflexivity.
Qed.

Lemma g_tokenize_cases formula :
  (exists body,
     tokenize formula = Return (body ++ [mkToken TokenType.END ""])
     /\ g_noEND body)
  \/ (exists msg rest, tokenize formula = Throw msg /\ g_lexicalOn rest msg).
Proof.
  unfold tokenize.
  destruct (g_tokenizeLoop_completes (S (String.length formula)) [] formula)
    as [H1 H2]; [lia|].
  destruct (tokenizeLoop _ _ _) as [toks|msg| |] eqn:E; try contradiction.
  - left. apply g_tokenizeLoop_Return in E. destruct E as (body & -> & Hb).
    now exists body.
  - right. apply g_tokenizeLoop_Throw in E. destruct E as (rest & Hr).
    now exists msg, rest.
Qed.

(** What the translation of a formula comes to, once it has its tokens. *)
Lemma g_indicatorToJs_cases formula body :
  tokenize formula = Return (body ++ [mkToken TokenType.END ""]) ->
  g_noEND body ->
  (exists js,
     indicatorToJs inheritedText formula = Return js
     /\ runExpression inheritedText TokenType.END
          (body ++ [mkToken TokenType.END ""])
        = Return (js, [mkToken TokenType.END ""])
     /\ g_nesting 0 body = Some 0)
  \/ (exists msg,
        indicatorToJs inheritedText formula = Throw msg
        /\ g_parseError (body ++ [mkToken TokenType.END ""]) msg).
Proof.
  intros Ht Hne. rewrite (g_indicatorToJs_tokens _ _ Ht).
  pose proof (proj1 (g_parser_good
                       (4 * List.length (body ++ [mkToken TokenType.END ""]) + 2))
                TokenType.END (body ++ [mkToken TokenType.END ""]) eq_refl) as G.
  fold (runExpression inheritedText TokenType.END
          (body ++ [mkToken TokenType.END ""])) in G.
  destruct (runExpression inheritedText TokenType.END _)
    as [[js rest]|msg| |] eqn:Er; simpl in G.
  - left. destruct G as (c & Hc & Hn & Hf & next & rest' & -> & Hend).
    assert (Hnext : type next = TokenType.END).
    { destruct (type next); try discriminate Hend; reflexivity. }
    symmetry in Hc.
    destruct (g_first_END c body next rest' (mkToken TokenType.END "")
                Hn Hne Hnext eq_refl Hc) as [-> ->].
    apply app_inv_head in Hc. injection Hc as ->.
    exists js. repeat split; auto.
  - right. exists msg. split; [reflexivity|exact G].
  - exfalso. apply G. apply Exists_app. right. now constructor.
  - exfalso. lia.
Qed.

(** X12: The second dialect translates every formula or throws: no run goes on
    for ever or fails in another way.  An error is a lexical one, on what
    is left of the formula, or one of the parser, which names a token of
    the formula. *)
Theorem generic_translation_completes formula :
  (exists js, indicatorToJs inheritedText formula = Return js)
  \/ (exists msg,
        indicatorToJs inheritedText formula = Throw msg
        /\ ((exists rest, g_lexicalOn rest msg)
            \/ (exists toks,
                  tokenize formula = Return toks /\ g_parseError toks msg))).
Proof.
  destruct (g_tokenize_cases formula) as [(body & Ht & Hb)|(msg & rest & Ht & Hl)].
  - destruct (g_indicatorToJs_cases formula body Ht Hb)
      as [(js & H & _)|(msg & H & He)].
    + left. now exists js.
    + right. exists msg. split; [exact H|]. right.
      now exists (body ++ [mkToken TokenType.END ""]).
  - right. exists msg. unfold indicatorToJs. rewrite Ht.
    split; [reflexivity|]. left. now exists rest.
Qed.

Definition notBracket (t : Token) : Prop :=
  type t <> TokenType.LBracket /\ type t <> TokenType.RBracket.

(** X13: A formula the second dialect translates is not empty, has no bracket
    and has its parentheses matched. *)
Theorem generic_accepts_balanced formula js :
  indicatorToJs inheritedText formula = Return js ->
  exists body,
    tokenize formula = Return (body ++ [mkToken TokenType.END ""])
    /\ body <> []
    /\ Forall notBracket body
    /\ g_nesting 0 body = Some 0.
Proof.
  intro H.
  destruct (g_tokenize_cases formula) as [(body & Ht & Hb)|(msg & rest & Ht & Hl)].
  2:{ unfold indicatorToJs in H. rewrite Ht in H. discriminate H. }
  exists body. split; [exact Ht|].
  destruct (g_indicatorToJs_cases formula body Ht Hb)
    as [(js' & _ & Hr & Hn)|(msg & H' & _)].
  2:{ rewrite H in H'. discriminate H'. }
  split; [|split; [|exact Hn]].
  - intros ->. discriminate Hr.
  - now apply g_nesting_brackets in Hn.
Qed.

End WithEngine.

(** The strings an engine (V8) gives for the values of [Object.prototype]:
    [constructor] is the function [Object], [__proto__] is an object, the
    others are built-in functions of the same name. *)
Definition engineText (key : string) : string :=
  if String.eqb key "constructor" then "function Object() { [native code] }"
  else if String.eqb key "__proto__" then "[object Object]"
  else "function " +++ key +++ "() { [native code] }".

Lemma generic_accepts_balanced_witness :
  exists body,
    tokenize "SUM(a, (b + 1)) >= 2"
    = Return (body ++ [mkToken TokenType.END ""])
    /\ body <> []
    /\ Forall notBracket body
    /\ g_nesting 0 body = Some 0.
Proof.
  apply (generic_accepts_balanced engineText "SUM(a, (b + 1)) >= 2"
           "sumConditionalOccurrences(a,(b+1))>=2").
  reflexivity.
Defined.



(** ** The formulas that translate

    A grammar of formulas, as trees, with the tokens and the translation
    of each tree; the parser translates the tokens of every tree of the
    grammar to the translation of the tree. *)

Inductive GOperand : Type :=
| GAtom (t : Token)
| GPrefix (op : Token) (o : GOperand)
| GParen (e : GExpr)
| GCall0 (name : Token)
| GCall (name : Token) (args : GElems)

with GExpr : Type :=
| GSingle (o : GOperand)
| GBinary (o : GOperand) (op : Token) (e : GExpr)

with GElems : Type :=
| GLast (e : GExpr)
| GMore (e : GExpr) (es : GElems).

Scheme GOperand_mut := Induction for GOperand Sort Prop
  with GExpr_mut := Induction for GExpr Sort Prop
  with GElems_mut := Induction for GElems Sort Prop.

Combined Scheme g_grammar_ind from GOperand_mut, GExpr_mut, GElems_mut.

Definition gLParen := mkToken TokenType.LParen "(".
Definition gRParen := mkToken TokenType.RParen ")".
Definition gComma := mkToken TokenType.Comma ",".

Fixpoint g_operandTokens (o : GOperand) : list Token :=
  match o with
  | GAtom t => [t]
  | GPrefix op o' => op :: g_operandTokens o'
  | GParen e => gLParen :: g_exprTokens e ++ [gRParen]
  | GCall0 name => [name; gLParen; gRParen]
  | GCall name args => name :: gLParen :: g_elemsTokens args ++ [gRParen]
  end

with g_exprTokens (e : GExpr) : list Token :=
  match e with
  | GSingle o => g_operandTokens o
  | GBinary o op e' => g_operandTokens o ++ op :: g_exprTokens e'
  end

with g_elemsTokens (es : GElems) : list Token :=
  match es with
  | GLast e => g_exprTokens e
  | GMore e es' => g_exprTokens e ++ gComma :: g_elemsTokens es'
  end.

Definition g_isSign (ty : TokenType.t) : bool :=
  TokenType.eqb ty TokenType.Plus || TokenType.eqb ty TokenType.Minus.

Definition g_isAtom (ty : TokenType.t) : bool :=
  match ty with
  | TokenType.Indent | TokenType.String | TokenType.Number => true
  | _ => false
  end.

Definition g_prefixJs (op : Token) : string :=
  match type op with
  | TokenType.Not => "!"
  | _ => text op
  end.

(** What the parser adds for a token at an operator position. *)
Definition g_expectedOperator (op : Token) : option string :=
  if isPassThrough (type op) then Some (text op)
  else
    match type op with
    | TokenType.Indent =>
        if String.eqb (text op) "AND" then Some "&&"
        else if String.eqb (text op) "OR" then Some "||"
        else None
    | TokenType.Equal => Some "==="
    | TokenType.NotEqual => Some "!=="
    | _ => None
    end.

Definition g_isOperator (op : Token) : bool :=
  match g_expectedOperator op with
  | Some _ => true
  | None => false
  end.

Definition g_operatorJs (op : Token) : string :=
  match g_expectedOperator op with
  | Some o => o
  | None => ""
  end.

Definition g_startsWithSign (toks : list Token) : bool :=
  match toks with
  | t :: _ => g_isSign (type t)
  | [] => false
  end.

(** The trees of the grammar: the atoms are literals and identifiers, a
    prefix is [!] or a sign that no sign follows, the binary operators
    are those of [g_expectedOperator], the name of a call is an identifier
    for which [func2jsfunc[name]] is not [undefined]. *)
Definition g_callable (name : Token) : bool :=
  TokenType.eqb (type name) TokenType.Indent
  && negb (isNullish (getProperty (text name))).

Fixpoint g_operandOk (o : GOperand) : bool :=
  match o with
  | GAtom t => g_isAtom (type t)
  | GPrefix op o' =>
      (TokenType.eqb (type op) TokenType.Not
       || (g_isSign (type op) && negb (g_startsWithSign (g_operandTokens o'))))
      && g_operandOk o'
  | GParen e => g_exprOk e
  | GCall0 name => g_callable name
  | GCall name args => g_callable name && g_elemsOk args
  end

with g_exprOk (e : GExpr) : bool :=
  match e with
  | GSingle o => g_operandOk o
  | GBinary o op e' => g_operandOk o && g_isOperator op && g_exprOk e'
  end

with g_elemsOk (es : GElems) : bool :=
  match es with
  | GLast e => g_exprOk e
  | GMore e es' => g_exprOk e && g_elemsOk es'
  end.

(** The runs of the loop of [parseExpression] an operand takes, and the
    fuel the calls inside it need. *)
Fixpoint g_steps (o : GOperand) : nat :=
  match o with
  | GPrefix _ o' => S (g_steps o')
  | _ => 1
  end.

Fixpoint g_inner (o : GOperand) : nat :=
  match o with
  | GAtom _ => 0
  | GPrefix _ o' => g_inner o'
  | GParen e => S (g_loopFuel e)
  | GCall0 _ => 2
  | GCall _ args => 2 + g_elemsFuel args
  end

with g_loopFuel (e : GExpr) : nat :=
  match e with
  | GSingle o => g_steps o + g_inner o
  | GBinary o _ e' => g_steps o + Nat.max (g_inner o) (g_loopFuel e')
  end

with g_elemsFuel (es : GElems) : nat :=
  match es with
  | GLast e => S (S (g_loopFuel e))
  | GMore e es' => S (Nat.max (S (g_loopFuel e)) (g_elemsFuel es'))
  end.

(** The first token of an operand closes nothing. *)
Definition g_opens (toks : list Token) : Prop :=
  exists t rest, toks = t :: rest /\ isClosing (type t) = false.

Lemma g_grammar_opens :
  (forall o, g_operandOk o = true -> g_opens (g_operandTokens o))
  /\ (forall e, g_exprOk e = true -> g_opens (g_exprTokens e))
  /\ (forall es, g_elemsOk es = true -> g_opens (g_elemsTokens es)).
Proof.
  apply g_grammar_ind; simpl; intros.
  - exists t, []. split; [reflexivity|]. now destruct (type t).
  - apply andb_true_iff in H0. destruct H0 as [Hop _].
    exists op, (g_operandTokens o). split; [reflexivity|].
    unfold g_isSign in Hop. now destruct (type op).
  - eexists; eexists; split; reflexivity.
  - apply andb_true_iff in H. destruct H as [H _].
    apply g_type_eqb_eq in H.
    exists name, [gLParen; gRParen]. split; [reflexivity|]. now rewrite H.
  - apply andb_true_iff in H0. destruct H0 as [H0 _].
    apply andb_true_iff in H0. destruct H0 as [H0 _].
    apply g_type_eqb_eq in H0.
    eexists; eexists; split; [reflexivity|]. now rewrite H0.
  - auto.
  - apply andb_true_iff in H1. destruct H1 as [H1 _].
    apply andb_true_iff in H1. destruct H1 as [Ho _].
    destruct (H Ho) as (t & rest & -> & Ht).
    now exists t, (rest ++ op :: g_exprTokens e).
  - auto.
  - apply andb_true_iff in H1. destruct H1 as [He _].
    destruct (H He) as (t & rest & -> & Ht).
    now exists t, (rest ++ gComma :: g_elemsTokens es).
Qed.

Lemma g_grammar_fuel :
  (forall o, g_steps o + g_inner o <= 4 * List.length (g_operandTokens o))
  /\ (forall e, g_loopFuel e <= 4 * List.length (g_exprTokens e))
  /\ (forall es, g_elemsFuel es <= 4 * List.length (g_elemsTokens es) + 2).
Proof.
  apply g_grammar_ind; intros;
    cbn [g_steps g_inner g_loopFuel g_elemsFuel g_operandTokens g_exprTokens
         g_elemsTokens List.length];
    rewrite ?length_app; cbn [List.length]; lia.
Qed.

Definition g_notLParen (rest : list Token) : Prop :=
  exists next rest', rest = next :: rest' /\ type next <> TokenType.LParen.

Lemma g_consume_cons ty tok rest :
  consume ty (tok :: rest) =
  if TokenType.eqb (type tok) ty then Return (tt, rest)
  else Throw (unexpectedTokenError tok).
Proof.
  unfold consume, bind, pop. now destruct (TokenType.eqb (type tok) ty).
Qed.

Lemma g_afterOperand_end loop e js next rest :
  isEnd e (type next) = true ->
  afterOperand loop e js (next :: rest) = Return (js, next :: rest).
Proof. intro H. unfold afterOperand, bind, peek. now rewrite H. Qed.

Lemma g_afterOperand_operator loop e js op rest o :
  validEnd e = true -> g_expectedOperator op = Some o ->
  afterOperand loop e js (op :: rest) = loop (js +++ o) rest.
Proof.
  intros Hv Ho. unfold afterOperand, bind, peek, pop.
  unfold g_expectedOperator in Ho.
  assert (He : isEnd e (type op) = false).
  { destruct (type op); try discriminate Ho;
      destruct e; try discriminate Hv; reflexivity. }
  rewrite He.
  destruct (isPassThrough (type op)); [now injection Ho as <-|].
  destruct (type op); try discriminate Ho; try (now injection Ho as <-).
  destruct (String.eqb (text op) "AND"); [now injection Ho as <-|].
  destruct (String.eqb (text op) "OR"); [now injection Ho as <-|].
  discriminate Ho.
Qed.

Section Grammar.

Variable inheritedText : string -> string.

Fixpoint g_operandJs (o : GOperand) : string :=
  match o with
  | GAtom t => text t
  | GPrefix op o' => g_prefixJs op +++ g_operandJs o'
  | GParen e => "(" +++ g_exprJs e +++ ")"
  | GCall0 name => toText inheritedText (getProperty (text name)) +++ "()"
  | GCall name args =>
      toText inheritedText (getProperty (text name))
      +++ "(" +++ g_elemsJs args +++ ")"
  end

with g_exprJs (e : GExpr) : string :=
  match e with
  | GSingle o => g_operandJs o
  | GBinary o op e' => g_operandJs o +++ g_operatorJs op +++ g_exprJs e'
  end

with g_elemsJs (es : GElems) : string :=
  match es with
  | GLast e => g_exprJs e
  | GMore e es' => g_exprJs e +++ "," +++ g_elemsJs es'
  end.

Lemma g_parseFunctionCall_run fuel name lp toks args rp rest :
  isNullish (getProperty name) = false ->
  type lp = TokenType.LParen -> type rp = TokenType.RParen ->
  parseList inheritedText fuel TokenType.Comma toks = Return (args, rp :: rest) ->
  parseFunctionCall inheritedText (S fuel) name (lp :: toks)
  = Return (toText inheritedText (getProperty name) +++ "(" +++ args +++ ")",
            rest).
Proof.
  intros Hn Hlp Hrp Hl. rewrite GenericFacts.generic_parseFunctionCall_S.
  unfold parseFunctionCallBody. rewrite Hn.
  unfold bind at 1. rewrite g_consume_cons, Hlp.
  cbn [TokenType.eqb TokenType.code Nat.eqb].
  unfold bind at 1. rewrite Hl.
  unfold bind. rewrite g_consume_cons, Hrp. reflexivity.
Qed.

Definition GOperandSpec (o : GOperand) : Prop :=
  g_operandOk o = true ->
  forall fuel js e rest,
    g_inner o <= fuel -> g_notLParen rest ->
    parseExpressionLoop inheritedText (g_steps o + fuel) js e
      (g_operandTokens o ++ rest)
    = afterOperand (fun js' => parseExpressionLoop inheritedText fuel js' e) e
        (js +++ g_operandJs o) rest.

Definition GExprSpec (ex : GExpr) : Prop :=
  g_exprOk ex = true ->
  forall fuel js e next rest,
    g_loopFuel ex <= fuel ->
    validEnd e = true -> isEnd e (type next) = true ->
    parseExpressionLoop inheritedText fuel js e (g_exprTokens ex ++ next :: rest)
    = Return (js +++ g_exprJs ex, next :: rest).

Definition GElemsSpec (es : GElems) : Prop :=
  g_elemsOk es = true ->
  forall fuel js rest,
    g_elemsFuel es <= fuel ->
    parseListLoop inheritedText fuel js TokenType.Comma
      (g_elemsTokens es ++ gRParen :: rest)
    = Return (js +++ g_elemsJs es, gRParen :: rest).

Lemma g_expr_parseExpression ex fuel e next rest :
  GExprSpec ex -> g_exprOk ex = true ->
  g_loopFuel ex < fuel ->
  validEnd e = true -> isEnd e (type next) = true ->
  parseExpression inheritedText fuel e (g_exprTokens ex ++ next :: rest)
  = Return (g_exprJs ex, next :: rest).
Proof.
  intros H Hok Hf Hv Hn. destruct fuel as [|fuel]; [lia|].
  rewrite g_parseExpression_S. unfold parseExpressionBody. rewrite Hv.
  cbn [negb]. cbv iota. rewrite (H Hok fuel "" e next rest); auto. lia.
Qed.

Lemma g_isEnd_notLParen e next rest :
  validEnd e = true -> isEnd e (type next) = true ->
  g_notLParen (next :: rest).
Proof.
  intros Hv Hn. exists next, rest. split; [reflexivity|].
  intro E. rewrite E in Hn. now destruct e.
Qed.

Lemma g_grammar_translates :
  (forall o, GOperandSpec o) /\ (forall e, GExprSpec e)
  /\ (forall es, GElemsSpec es).
Proof.
  apply g_grammar_ind.
  - (* GAtom *)
    intros t H fuel js e rest _ (next & rest' & -> & Hn).
    cbn [g_steps g_operandTokens g_operandJs app Nat.add].
    rewrite g_parseExpressionLoop_S. unfold parseExpressionIter.
    unfold bind at 1. unfold pop. simpl in H.
    destruct (type t) eqn:Ety; try discriminate H; try reflexivity.
    unfold bind, peek.
    apply g_type_eqb_neq in Hn. now rewrite Hn.
  - (* GPrefix *)
    intros op o IH H fuel js e rest Hf Hr. simpl in H.
    apply andb_true_iff in H. destruct H as [Hop Ho].
    specialize (IH Ho). cbn [g_steps g_inner g_operandTokens g_operandJs app Nat.add] in *.
    rewrite g_parseExpressionLoop_S. unfold parseExpressionIter.
    unfold bind at 1. unfold pop.
    apply orb_true_iff in Hop. destruct Hop as [Hop|Hop].
    + apply g_type_eqb_eq in Hop. rewrite Hop. unfold g_prefixJs. rewrite Hop.
      rewrite (IH fuel _ e rest Hf Hr). now rewrite append_assoc.
    + apply andb_true_iff in Hop. destruct Hop as [Hsign Hnext].
      destruct (proj1 g_grammar_opens o Ho) as (t & ts & Et & _).
      rewrite Et in Hnext. simpl in Hnext. apply negb_true_iff in Hnext.
      unfold g_isSign in Hsign, Hnext. unfold g_prefixJs.
      assert (E : forall js',
                (next <- peek ;;
                 if TokenType.eqb (type next) TokenType.Plus
                    || TokenType.eqb (type next) TokenType.Minus
                 then throw (unexpectedTokenError next)
                 else parseExpressionLoop inheritedText (g_steps o + fuel) js' e)
                  (g_operandTokens o ++ rest)
                = parseExpressionLoop inheritedText (g_steps o + fuel) js' e
                    (g_operandTokens o ++ rest)).
      { intro js'. rewrite Et. unfold bind, peek. cbn [app]. now rewrite Hnext. }
      destruct (type op) eqn:Ety; try discriminate Hsign;
        rewrite E, (IH fuel _ e rest Hf Hr); now rewrite append_assoc.
  - (* GParen *)
    intros ex IH H fuel js e rest Hf Hr. simpl in H.
    cbn [g_steps g_inner g_operandTokens g_operandJs app Nat.add] in *.
    rewrite g_parseExpressionLoop_S. unfold parseExpressionIter.
    unfold bind at 1. unfold pop. cbn [type gLParen].
    unfold bind at 1. rewrite <- app_assoc. cbn [app].
    rewrite (g_expr_parseExpression ex fuel TokenType.RParen gRParen rest IH H)
      by (reflexivity || lia).
    unfold bind. rewrite g_consume_cons. reflexivity.
  - (* GCall0 *)
    intros name H fuel js e rest Hf Hr. simpl in H.
    apply andb_true_iff in H. destruct H as [Hty Hnull].
    apply g_type_eqb_eq in Hty. apply negb_true_iff in Hnull.
    cbn [g_steps g_inner g_operandTokens g_operandJs app Nat.add] in *.
    rewrite g_parseExpressionLoop_S. unfold parseExpressionIter.
    unfold bind at 1. unfold pop. rewrite Hty.
    unfold bind at 1. unfold peek. cbn [type gLParen].
    cbn [TokenType.eqb TokenType.code Nat.eqb].
    destruct fuel as [|[|fuel]]; try lia.
    unfold bind.
    rewrite (g_parseFunctionCall_run (S fuel) (text name) gLParen
               (gRParen :: rest) "" gRParen rest Hnull eq_refl eq_refl eq_refl).
    reflexivity.
  - (* GCall *)
    intros name es IH H fuel js e rest Hf Hr. simpl in H.
    apply andb_true_iff in H. destruct H as [H Hes].
    apply andb_true_iff in H. destruct H as [Hty Hnull].
    apply g_type_eqb_eq in Hty. apply negb_true_iff in Hnull.
    cbn [g_steps g_inner g_operandTokens g_operandJs app Nat.add] in *.
    rewrite g_parseExpressionLoop_S. unfold parseExpressionIter.
    unfold bind at 1. unfold pop. rewrite Hty.
    unfold bind at 1. unfold peek. cbn [type gLParen].
    cbn [TokenType.eqb TokenType.code Nat.eqb].
    destruct fuel as [|[|fuel]]; try lia.
    rewrite <- app_assoc. cbn [app].
    assert (E : parseList inheritedText (S fuel) TokenType.Comma
                  (g_elemsTokens es ++ gRParen :: rest)
                = Return (g_elemsJs es, gRParen :: rest)).
    { rewrite GenericFacts.generic_parseList_S. unfold parseListBody.
      cbn [TokenType.eqb TokenType.code Nat.eqb negb andb].
      destruct (proj2 (proj2 g_grammar_opens) es Hes) as (t & ts & Et & Ht).
      assert (Hl := IH Hes fuel "" rest ltac:(lia)).
      cbn [String.append] in Hl. rewrite <- Hl.
      rewrite Et. unfold bind, peek. cbn [app]. now rewrite Ht. }
    unfold bind.
    rewrite (g_parseFunctionCall_run (S fuel) (text name) gLParen
               _ _ gRParen rest Hnull eq_refl eq_refl E).
    reflexivity.
  - (* GSingle *)
    intros o IH H fuel js e next rest Hf Hv Hn. simpl in H.
    cbn [g_exprTokens g_exprJs g_loopFuel] in *.
    replace fuel with (g_steps o + (fuel - g_steps o)) by lia.
    rewrite (IH H (fuel - g_steps o) js e (next :: rest)); [|lia|].
    + now apply g_afterOperand_end.
    + now apply (g_isEnd_notLParen e).
  - (* GBinary *)
    intros o IHo op ex IHe H fuel js e next rest Hf Hv Hn. simpl in H.
    apply andb_true_iff in H. destruct H as [H He].
    apply andb_true_iff in H. destruct H as [Ho Hop].
    cbn [g_exprTokens g_exprJs g_loopFuel] in *.
    rewrite <- app_assoc. cbn [app].
    replace fuel with (g_steps o + (fuel - g_steps o)) by lia.
    unfold g_isOperator in Hop. unfold g_operatorJs.
    destruct (g_expectedOperator op) as [o'|] eqn:Eop; [|discriminate Hop].
    rewrite (IHo Ho (fuel - g_steps o) js e); [|lia|].
    + rewrite (g_afterOperand_operator _ e _ op _ o' Hv Eop).
      rewrite (IHe He _ _ e next rest); auto; [|lia].
      now rewrite !append_assoc.
    + exists op, (g_exprTokens ex ++ next :: rest). split; [reflexivity|].
      intro E. unfold g_expectedOperator in Eop. rewrite E in Eop.
      discriminate Eop.
  - (* GLast *)
    intros ex IH H fuel js rest Hf. simpl in H.
    cbn [g_elemsTokens g_elemsJs g_elemsFuel] in *.
    destruct fuel as [|fuel]; [lia|].
    rewrite g_parseListLoop_S. unfold parseListIter. unfold bind at 1.
    rewrite (g_expr_parseExpression ex fuel TokenType.Comma gRParen rest IH H)
      by (reflexivity || lia).
    reflexivity.
  - (* GMore *)
    intros ex IHe es IHes H fuel js rest Hf. simpl in H.
    apply andb_true_iff in H. destruct H as [He Hes].
    cbn [g_elemsTokens g_elemsJs g_elemsFuel] in *.
    rewrite <- app_assoc. cbn [app].
    destruct fuel as [|fuel]; [lia|].
    rewrite g_parseListLoop_S. unfold parseListIter. unfold bind at 1.
    rewrite (g_expr_parseExpression ex fuel TokenType.Comma gComma _ IHe He)
      by (reflexivity || lia).
    unfold bind at 1. unfold peek.
    cbn [type gComma isClosing TokenType.eqb TokenType.code Nat.eqb orb].
    unfold bind at 1. rewrite g_consume_cons.
    cbn [type gComma TokenType.eqb TokenType.code Nat.eqb].
    rewrite (IHes Hes fuel) by lia. now rewrite !append_assoc.
Qed.


Lemma g_runExpression_loop e toks :
  validEnd e = true ->
  runExpression inheritedText e toks
  = parseExpressionLoop inheritedText (4 * List.length toks + 1) "" e toks.
Proof.
  intro Hv. unfold runExpression.
  replace (4 * List.length toks + 2) with (S (4 * List.length toks + 1)) by lia.
  rewrite g_parseExpression_S. unfold parseExpressionBody. now rewrite Hv.
Qed.

(** X14: The parser of the second dialect translates the tokens of every tree
    of the grammar to the translation of the tree, up to the token that
    ends the expression; so a formula whose tokens are those of a tree
    translates to the translation of the tree.  The translation has the
    texts of the tokens in the order of the formula, with [&&], [||],
    [===] and [!==] for [AND], [OR], [=] and [!=] and the name the table
    gives for the name of a function, and no space between them. *)
Theorem generic_grammar_translation :
  (forall ex e next rest,
     g_exprOk ex = true ->
     validEnd e = true -> isEnd e (type next) = true ->
     runExpression inheritedText e (g_exprTokens ex ++ next :: rest)
     = Return (g_exprJs ex, next :: rest))
  /\ (forall formula ex,
        g_exprOk ex = true ->
        tokenize formula
        = Return (g_exprTokens ex ++ [mkToken TokenType.END ""]) ->
        indicatorToJs inheritedText formula = Return (g_exprJs ex)).
Proof.
  assert (H : forall ex e next rest,
             g_exprOk ex = true ->
             validEnd e = true -> isEnd e (type next) = true ->
             runExpression inheritedText e (g_exprTokens ex ++ next :: rest)
             = Return (g_exprJs ex, next :: rest)).
  { intros ex e next rest Hok Hv Hn. rewrite g_runExpression_loop by exact Hv.
    rewrite (proj1 (proj2 g_grammar_translates) ex Hok _ "" e next rest);
      auto.
    pose proof (proj1 (proj2 g_grammar_fuel) ex). rewrite length_app. lia. }
  split; [exact H|].
  intros formula ex Hok Ht. rewrite (g_indicatorToJs_tokens _ _ _ Ht).
  now rewrite H.
Qed.

(** ** Operands and operators in a row *)

Definition GChain : Type := list (GOperand * Token).

Fixpoint g_chainTokens (chain : GChain) : list Token :=
  match chain with
  | [] => []
  | (o, op) :: chain' => g_operandTokens o ++ op :: g_chainTokens chain'
  end.

Fixpoint g_chainJs (chain : GChain) : string :=
  match chain with
  | [] => ""
  | (o, op) :: chain' => g_operandJs o +++ g_operatorJs op +++ g_chainJs chain'
  end.

Definition g_chainOk (chain : GChain) : bool :=
  forallb (fun link => g_operandOk (fst link) && g_isOperator (snd link)) chain.

Fixpoint g_chainSteps (chain : GChain) : nat :=
  match chain with
  | [] => 0
  | (o, _) :: chain' => g_steps o + g_chainSteps chain'
  end.

Fixpoint g_chainFuel (chain : GChain) : nat :=
  match chain with
  | [] => 0
  | (o, _) :: chain' => g_steps o + Nat.max (g_inner o) (g_chainFuel chain')
  end.

Lemma g_chain_fuel chain :
  g_chainSteps chain <= g_chainFuel chain
  /\ g_chainFuel chain <= 4 * List.length (g_chainTokens chain).
Proof.
  induction chain as [|[o op] chain [IH1 IH2]]; [simpl; lia|].
  cbn [g_chainSteps g_chainFuel g_chainTokens].
  pose proof (proj1 g_grammar_fuel o).
  rewrite length_app. cbn [List.length]. lia.
Qed.

Lemma g_chain_run : forall chain fuel js e rest,
  g_chainOk chain = true -> validEnd e = true ->
  g_chainFuel chain <= fuel ->
  parseExpressionLoop inheritedText fuel js e (g_chainTokens chain ++ rest)
  = parseExpressionLoop inheritedText (fuel - g_chainSteps chain)
      (js +++ g_chainJs chain) e rest.
Proof.
  induction chain as [|[o op] chain IH]; intros fuel js e rest Hok Hv Hf.
  - cbn [g_chainTokens g_chainSteps g_chainJs app].
    now rewrite Nat.sub_0_r, append_nil_r.
  - cbn [g_chainOk forallb fst snd] in Hok.
    apply andb_true_iff in Hok. destruct Hok as [Hok Hch].
    apply andb_true_iff in Hok. destruct Hok as [Ho Hop].
    cbn [g_chainTokens g_chainSteps g_chainJs g_chainFuel] in *.
    rewrite <- app_assoc. cbn [app].
    unfold g_isOperator in Hop. unfold g_operatorJs.
    destruct (g_expectedOperator op) as [o'|] eqn:Eop; [|discriminate Hop].
    replace fuel with (g_steps o + (fuel - g_steps o)) at 1 by lia.
    rewrite (proj1 g_grammar_translates o Ho (fuel - g_steps o) js e);
      [|lia|].
    + rewrite (g_afterOperand_operator _ e _ op _ o' Hv Eop).
      rewrite (IH (fuel - g_steps o)); auto; [|lia].
      rewrite !append_assoc. f_equal. lia.
    + exists op, (g_chainTokens chain ++ rest). split; [reflexivity|].
      intro E. unfold g_expectedOperator in Eop. rewrite E in Eop.
      discriminate Eop.
Qed.

(** X15: Where an operand is expected, a sign followed by a sign is rejected,
    and the message has the text of the second sign. *)
Theorem generic_consecutive_signs chain s1 s2 rest e formula :
  g_chainOk chain = true ->
  g_isSign (type s1) = true -> g_isSign (type s2) = true ->
  validEnd e = true ->
  tokenize formula = Return (g_chainTokens chain ++ s1 :: s2 :: rest) ->
  runExpression inheritedText e (g_chainTokens chain ++ s1 :: s2 :: rest)
  = Throw ("unexpected token: " +++ text s2)
  /\ indicatorToJs inheritedText formula
     = Throw ("unexpected token: " +++ text s2).
Proof.
  intros Hok H1 H2 Hv Ht.
  assert (H : forall e, validEnd e = true ->
             runExpression inheritedText e
               (g_chainTokens chain ++ s1 :: s2 :: rest)
             = Throw ("unexpected token: " +++ text s2)).
  { clear e Hv. intros e Hv. rewrite g_runExpression_loop by exact Hv.
    destruct (g_chain_fuel chain) as [Hs Hf].
    rewrite g_chain_run; auto.
    2:{ rewrite length_app. lia. }
    rewrite length_app. cbn [List.length].
    match goal with
    | |- parseExpressionLoop _ ?f _ _ _ = _ =>
        destruct f as [|f'] eqn:Ef; [lia|]
    end.
    rewrite g_parseExpressionLoop_S. unfold parseExpressionIter.
    unfold bind, pop, peek. unfold g_isSign in H1, H2.
    destruct (type s1); try discriminate H1; rewrite H2;
      unfold throw, unexpectedTokenError;
      destruct (type s2); try discriminate H2; reflexivity. }
  split; [now apply H|].
  rewrite (g_indicatorToJs_tokens _ _ _ Ht). now rewrite H.
Qed.

End Grammar.

Definition g_sample : GExpr :=
  GBinary
    (GPrefix (mkToken TokenType.Minus "-")
       (GParen (GBinary (GAtom (mkToken TokenType.Indent "a"))
                  (mkToken TokenType.Plus "+")
                  (GSingle (GAtom (mkToken TokenType.Number "1"))))))
    (mkToken TokenType.Indent "AND")
    (GSingle
       (GCall (mkToken TokenType.Indent "SUM")
          (GMore (GSingle (GAtom (mkToken TokenType.Indent "b")))
             (GLast (GBinary (GAtom (mkToken TokenType.Indent "c"))
                       (mkToken TokenType.NotEqual "!=")
                       (GSingle (GCall0 (mkToken TokenType.Indent "SUM")))))))).

Lemma generic_grammar_translation_witness :
  runExpression engineText TokenType.END
    (g_exprTokens g_sample ++ mkToken TokenType.END "" :: [])
  = Return ("-(a+1)&&sumConditionalOccurrences(b,c!==sumConditionalOccurrences())",
            [mkToken TokenType.END ""])
  /\ indicatorToJs engineText "-(a + 1) AND SUM(b, c != SUM())"
     = Return "-(a+1)&&sumConditionalOccurrences(b,c!==sumConditionalOccurrences())".
Proof.
  split.
  - apply (proj1 (generic_grammar_translation engineText) g_sample
             TokenType.END); reflexivity.
  - apply (proj2 (generic_grammar_translation engineText)
             "-(a + 1) AND SUM(b, c != SUM())" g_sample); reflexivity.
Defined.

Lemma generic_consecutive_signs_witness :
  runExpression engineText TokenType.Comma
    (g_chainTokens [(GAtom (mkToken TokenType.Indent "a"),
                     mkToken TokenType.Mul "*")]
     ++ mkToken TokenType.Minus "-" :: mkToken TokenType.Plus "+"
        :: [mkToken TokenType.Number "1"; mkToken TokenType.END ""])
  = Throw ("unexpected token: " +++ "+")
  /\ indicatorToJs engineText "a * -+1" = Throw ("unexpected token: " +++ "+").
Proof.
  apply (generic_consecutive_signs engineText
           [(GAtom (mkToken TokenType.Indent "a"), mkToken TokenType.Mul "*")]
           (mkToken TokenType.Minus "-") (mkToken TokenType.Plus "+")
           [mkToken TokenType.Number "1"; mkToken TokenType.END ""]
           TokenType.Comma "a * -+1");
    reflexivity.
Defined.

End GenericMore.
